(** * owned_ptr: a shallow embedding of the owner/reader pointer pair

    The repository holds two generations of the same header:
    - [src/owned_ptr.hpp]: [owned_ptr] / [reader_ptr], the shared-read
      policy (module [Shared] below);
    - [src/unnamed/part_001]: [owned_ptr] / [child_ptr], the
      exclusive-lock policy (module [Exclusive] below).

    Objects live in a store indexed by their address; a [Type*] is an
    optional address ([None] is [nullptr]).  Member functions are state
    transformers in a small monad whose outcomes are: the call returns,
    the call does not return within the given number of loop iterations
    (a thread spinning or blocked on a mutex), or the call touches an
    object that does not exist, which is undefined behaviour. *)

From Stdlib Require Import ZArith Lia.
From stdpp Require Import base option list gmap.

Set Default Proof Using "Type".

(** ** Outcomes and the state monad *)

Inductive result (St A : Type) : Type :=
| Returns (a : A) (s : St)
| Hangs
| Crashes.
Arguments Returns {St A} a s.
Arguments Hangs {St A}.
Arguments Crashes {St A}.

Definition M (St A : Type) : Type := St → result St A.

Global Instance M_ret {St} : MRet (M St) := λ A a s, Returns a s.
Global Instance M_bind {St} : MBind (M St) := λ A B f m s,
  match m s with
  | Returns a s' => f a s'
  | Hangs => Hangs
  | Crashes => Crashes
  end.

Definition hang {St A} : M St A := λ _, Hangs.
Definition crash {St A} : M St A := λ _, Crashes.
Definition get_state {St} : M St St := λ s, Returns s s.
Definition put_state {St} (s : St) : M St unit := λ _, Returns () s.

(** A call terminates when some bound on its loop iterations lets it return. *)
Definition terminates {St A} (f : nat → M St A) (s : St) : Prop :=
  ∃ fuel a s', f fuel s = Returns a s'.
Definition never_returns {St A} (f : nat → M St A) (s : St) : Prop :=
  ∀ fuel, f fuel s = Hangs.

(** Addresses of values, of readers and of owners. *)
Definition addr := nat.
Definition ptr := option addr.
Abbreviation nullptr := (@None nat).
Definition rid := nat.
Definition oid := nat.

(** [delete p] on the set of freed addresses; [delete nullptr] does nothing. *)
Definition delete_ptr (p : ptr) (freed : gset addr) : gset addr :=
  match p with
  | Some a => {[a]} ∪ freed
  | None => freed
  end.

(** ** The shared-read policy: [src/owned_ptr.hpp] *)

Module Shared.

(** [class reader_ptr]: [value_], [locked_], [mutex_], [parent_]. *)
Record reader_ptr : Type := mk_reader {
  r_value_ : ptr;
  r_locked_ : ptr;
  r_mutex_ : bool;
  r_parent_ : option oid
}.

(** [class owned_ptr]: [mutex_], [value_], [children_], [update_]. *)
Record owned_ptr : Type := mk_owner {
  o_mutex_ : bool;
  o_value_ : ptr;
  o_children_ : list rid;
  o_update_ : list rid
}.

Record state : Type := mk_state {
  owners : gmap oid owned_ptr;
  readers : gmap rid reader_ptr;
  freed : gset addr
}.

Definition empty_state : state := mk_state ∅ ∅ ∅.

Abbreviation Op := (M state).

(** *** Field access *)

Definition set_readers (f : gmap rid reader_ptr → gmap rid reader_ptr) (s : state) : state :=
  mk_state (owners s) (f (readers s)) (freed s).
Definition set_owners (f : gmap oid owned_ptr → gmap oid owned_ptr) (s : state) : state :=
  mk_state (f (owners s)) (readers s) (freed s).
Definition set_freed (f : gset addr → gset addr) (s : state) : state :=
  mk_state (owners s) (readers s) (f (freed s)).

Definition with_value (v : ptr) (rd : reader_ptr) : reader_ptr :=
  mk_reader v (r_locked_ rd) (r_mutex_ rd) (r_parent_ rd).
Definition with_locked (l : ptr) (rd : reader_ptr) : reader_ptr :=
  mk_reader (r_value_ rd) l (r_mutex_ rd) (r_parent_ rd).
Definition with_rmutex (b : bool) (rd : reader_ptr) : reader_ptr :=
  mk_reader (r_value_ rd) (r_locked_ rd) b (r_parent_ rd).
Definition with_parent (p : option oid) (rd : reader_ptr) : reader_ptr :=
  mk_reader (r_value_ rd) (r_locked_ rd) (r_mutex_ rd) p.

Definition with_omutex (b : bool) (od : owned_ptr) : owned_ptr :=
  mk_owner b (o_value_ od) (o_children_ od) (o_update_ od).
Definition with_ovalue (v : ptr) (od : owned_ptr) : owned_ptr :=
  mk_owner (o_mutex_ od) v (o_children_ od) (o_update_ od).
Definition with_children (cs : list rid) (od : owned_ptr) : owned_ptr :=
  mk_owner (o_mutex_ od) (o_value_ od) cs (o_update_ od).
Definition with_update (us : list rid) (od : owned_ptr) : owned_ptr :=
  mk_owner (o_mutex_ od) (o_value_ od) (o_children_ od) us.

(** Reading through a pointer to an object that is not there crashes. *)
Definition reader (r : rid) : Op reader_ptr := λ s,
  match readers s !! r with
  | Some rd => Returns rd s
  | None => Crashes
  end.
Definition owner (o : oid) : Op owned_ptr := λ s,
  match owners s !! o with
  | Some od => Returns od s
  | None => Crashes
  end.
Definition upd_reader (r : rid) (f : reader_ptr → reader_ptr) : Op unit := λ s,
  match readers s !! r with
  | Some rd => Returns () (set_readers (insert r (f rd)) s)
  | None => Crashes
  end.
Definition upd_owner (o : oid) (f : owned_ptr → owned_ptr) : Op unit := λ s,
  match owners s !! o with
  | Some od => Returns () (set_owners (insert o (f od)) s)
  | None => Crashes
  end.

(** [delete p;] *)
Definition delete_value (p : ptr) : Op unit := λ s,
  Returns () (set_freed (delete_ptr p) s).

(** [std::mutex]: a thread that runs alone and locks a held mutex is
    blocked for good. *)
Definition omutex_lock (o : oid) : Op unit :=
  od ← owner o;
  if o_mutex_ od then hang else upd_owner o (with_omutex true).
Definition omutex_unlock (o : oid) : Op unit := upd_owner o (with_omutex false).
Definition rmutex_lock (r : rid) : Op unit :=
  rd ← reader r;
  if r_mutex_ rd then hang else upd_reader r (with_rmutex true).
Definition rmutex_unlock (r : rid) : Op unit := upd_reader r (with_rmutex false).

(** *** [reader_ptr::lock], [reader_ptr::unlock] *)

(** [return locked_ = value_;] *)
Definition lock (r : rid) : Op ptr :=
  rd ← reader r;
  upd_reader r (with_locked (r_value_ rd));;
  mret (r_value_ rd).

(** [locked_ = nullptr;] *)
Definition unlock (r : rid) : Op unit :=
  upd_reader r (with_locked nullptr).

(** *** [owned_ptr::remove_]

    The wait on the entry found: [while (entry->locked_ == nullptr) yield();] *)
Fixpoint remove_wait (fuel : nat) (c : rid) : Op unit :=
  match fuel with
  | 0 => hang
  | S fuel' =>
      rd ← reader c;
      if decide (r_locked_ rd = nullptr) then remove_wait fuel' c else mret ()
  end.

(** [auto i = children_.begin(); while (i != children_.end()) { ... }]:
    the body never advances [i], so every round looks at the front entry. *)
Fixpoint remove_loop (fuel : nat) (o : oid) (child : rid) : Op unit :=
  match fuel with
  | 0 => hang
  | S fuel' =>
      od ← owner o;
      match o_children_ od with
      | [] => mret ()
      | c :: rest =>
          if decide (c = child) then
            remove_wait fuel' c;;
            upd_owner o (with_children rest)
          else remove_loop fuel' o child
      end
  end.

Definition remove_ (fuel : nat) (o : oid) (child : rid) : Op unit :=
  omutex_lock o;;
  remove_loop fuel o child;;
  omutex_unlock o.

(** *** [owned_ptr::replace_] *)
Fixpoint replace_loop (fuel : nat) (o : oid) (rdr with_ : rid) : Op unit :=
  match fuel with
  | 0 => hang
  | S fuel' =>
      od ← owner o;
      match o_children_ od with
      | [] => mret ()
      | c :: rest =>
          if decide (c = rdr) then upd_owner o (with_children (with_ :: rest))
          else replace_loop fuel' o rdr with_
      end
  end.

Definition replace_ (fuel : nat) (o : oid) (rdr with_ : rid) : Op unit :=
  omutex_lock o;;
  replace_loop fuel o rdr with_;;
  omutex_unlock o.

(** *** [reader_ptr::set_owner_] *)
Definition set_owner_ (fuel : nat) (r : rid) (own : option oid) : Op unit :=
  rmutex_lock r;;
  rd ← reader r;
  match own, r_parent_ rd with
  | Some _, Some p => remove_ fuel p r
  | _, _ => mret ()
  end;;
  upd_reader r (with_parent own);;
  rmutex_unlock r.

(** *** [owned_ptr::get] *)
Definition get (fuel : nat) (o : oid) (r : rid) : Op unit :=
  omutex_lock o;;
  od ← owner o;
  upd_reader r (with_value (o_value_ od));;
  set_owner_ fuel r (Some o);;
  od' ← owner o;
  upd_owner o (with_children (o_children_ od' ++ [r]));;
  omutex_unlock o.

(** *** [owned_ptr::count] *)
Definition count (o : oid) : Op nat :=
  omutex_lock o;;
  od ← owner o;
  omutex_unlock o;;
  mret (length (o_children_ od)).

(** *** Constructors and the reader's destructor

    An object is constructed at an address that holds no live object. *)
Definition new_owner (o : oid) (value : ptr) : Op unit := λ s,
  match owners s !! o with
  | Some _ => Crashes
  | None => Returns () (set_owners (insert o (mk_owner false value [] [])) s)
  end.

(** [reader_ptr::reader_ptr()] *)
Definition new_reader (r : rid) : Op unit := λ s,
  match readers s !! r with
  | Some _ => Crashes
  | None => Returns () (set_readers (insert r (mk_reader nullptr nullptr false None)) s)
  end.

(** [reader_ptr::reader_ptr(owned_ptr<Type> *owner)] *)
Definition new_reader_on (fuel : nat) (r : rid) (o : oid) : Op unit :=
  new_reader r;;
  get fuel o r.

(** [reader_ptr::reader_ptr(reader_ptr<Type> &other)] *)
Definition copy_reader (fuel : nat) (r other : rid) : Op unit :=
  new_reader r;;
  rmutex_lock other;;
  rd ← reader other;
  match r_parent_ rd with
  | Some p => get fuel p r
  | None => mret ()
  end;;
  rmutex_unlock other.

(** [reader_ptr::reader_ptr(reader_ptr<Type> &&other)].  As written the
    constructor calls [replace_(other, this)], with a [reader_ptr&] where
    [replace_] takes a [reader_ptr*]: it is ill-formed as soon as it is
    instantiated, and no program of the source move-constructs a reader.
    [move_reader] is the constructor with the call taking the address of
    [other]; the runs of the source are the runs without it ([no_move]
    below). *)
Definition move_reader (fuel : nat) (r other : rid) : Op unit :=
  new_reader r;;
  rmutex_lock other;;
  rd ← reader other;
  match r_parent_ rd with
  | Some p => replace_ fuel p other r
  | None => mret ()
  end;;
  rmutex_unlock other.

(** [reader_ptr::~reader_ptr], after which the object is gone. *)
Definition delete_reader (fuel : nat) (r : rid) : Op unit :=
  rmutex_lock r;;
  rd ← reader r;
  match r_parent_ rd with
  | Some p => remove_ fuel p r
  | None => mret ()
  end;;
  rmutex_unlock r;;
  s ← get_state;
  put_state (set_readers (delete r) s).

(** *** Operations that wait for readers, as step machines

    [owned_ptr::~owned_ptr] and [owned_ptr::reset] poll the readers'
    [locked_] fields, which reader threads write without taking any
    mutex.  Both are given one atomic step per statement, so that they can
    be run alone ([run]) or interleaved with what the readers' [lock] and
    [unlock] calls do ([conc_step]).  A step that [Hangs] is a thread
    blocked on a mutex. *)

Fixpoint run {PC : Type} (step : PC → Op PC) (done : PC → bool)
    (fuel : nat) (pc : PC) : Op unit :=
  match fuel with
  | 0 => hang
  | S fuel' =>
      if done pc then mret ()
      else pc' ← step pc; run step done fuel' pc'
  end.

(** What other threads do meanwhile: [reader.lock()] and [reader.unlock()]
    on any reader.  [return locked_ = value_;] takes no mutex: it is a
    load of [value_] and then a store to [locked_], and the steps of other
    threads may come between the two.  The [loads] of a configuration are
    the values held by the threads that have loaded and not yet stored. *)
Definition loads : Type := list (rid * ptr).

Inductive env_step : loads * state → loads * state → Prop :=
| env_load r rd ls s :
    readers s !! r = Some rd →
    env_step (ls, s) ((r, r_value_ rd) :: ls, s)
| env_store r v ls1 ls2 s s' :
    upd_reader r (with_locked v) s = Returns () s' →
    env_step (ls1 ++ (r, v) :: ls2, s) (ls1 ++ ls2, s')
| env_unlock r ls s s' :
    unlock r s = Returns () s' → env_step (ls, s) (ls, s').

Inductive conc_step {PC : Type} (step : PC → Op PC)
    : PC * (loads * state) → PC * (loads * state) → Prop :=
| conc_thread pc ls s pc' s' :
    step pc s = Returns pc' s' → conc_step step (pc, (ls, s)) (pc', (ls, s'))
| conc_env pc c c' :
    env_step c c' → conc_step step (pc, c) (pc, c').

(** The entry at position [i] of [children_], of [update_]. *)
Definition child_at (o : oid) (i : nat) : Op rid :=
  od ← owner o;
  match o_children_ od !! i with
  | Some c => mret c
  | None => crash
  end.
Definition update_at (o : oid) (j : nat) : Op rid :=
  od ← owner o;
  match o_update_ od !! j with
  | Some c => mret c
  | None => crash
  end.

(** *** [owned_ptr::~owned_ptr] *)
Inductive dtor_pc : Type :=
| D_lock                 (* mutex_.lock(); *)
| D_for (i : nat)        (* for (auto &child : children_) *)
| D_value (i : nat)      (* child->value_ = nullptr; *)
| D_set_owner (i : nat)  (* child->set_owner_(nullptr); *)
| D_wait (i : nat)       (* while (child->locked_ != nullptr) yield(); *)
| D_delete               (* delete value_; *)
| D_unlock               (* mutex_.unlock(); *)
| D_done.

Definition dtor_step (o : oid) (pc : dtor_pc) : Op dtor_pc :=
  match pc with
  | D_lock => omutex_lock o;; mret (D_for 0)
  | D_for i =>
      od ← owner o;
      if decide (i < length (o_children_ od)) then mret (D_value i) else mret D_delete
  | D_value i =>
      c ← child_at o i;
      upd_reader c (with_value nullptr);;
      mret (D_set_owner i)
  | D_set_owner i =>
      c ← child_at o i;
      set_owner_ 0 c None;;
      mret (D_wait i)
  | D_wait i =>
      c ← child_at o i;
      rd ← reader c;
      if decide (r_locked_ rd ≠ nullptr) then mret (D_wait i) else mret (D_for (S i))
  | D_delete =>
      od ← owner o;
      delete_value (o_value_ od);;
      mret D_unlock
  | D_unlock => omutex_unlock o;; mret D_done
  | D_done => mret D_done
  end.

Definition dtor_done (pc : dtor_pc) : bool :=
  match pc with D_done => true | _ => false end.

(** [delete owner;]: the destructor runs, then the object is gone. *)
Definition delete_owner (fuel : nat) (o : oid) : Op unit :=
  run (dtor_step o) dtor_done fuel D_lock;;
  s ← get_state;
  put_state (set_owners (delete o) s).

(** *** [owned_ptr::reset]

    The second loop erases from [update_] through the iterator that the
    [for] statement then increments: [update_.erase(child)] destroys the
    list node that [child] points to, and [++child] reads the erased node.
    That is undefined behaviour; the step that erases has the outcome
    [Crashes]. *)
Inductive reset_pc : Type :=
| R_lock                 (* mutex_.lock(); *)
| R_for (i : nat)        (* for (auto &child : children_) *)
| R_value (i : nat)      (* child->value_ = value; *)
| R_test (i : nat)       (* if (child->locked_ != nullptr) *)
| R_push (i : nat)       (* update_.push_back(child); *)
| R_while                (* while (!update_.empty()) *)
| R_sweep (j : nat)      (* for (child = update_.begin(); child != update_.end(); ++child)
                            if (locked_ == nullptr || locked_ == value) *)
| R_erase (j : nat)      (* update_.erase(child); then ++child *)
| R_delete               (* delete value_; *)
| R_store                (* value_ = value; *)
| R_unlock               (* mutex_.unlock(); *)
| R_done.

Definition reset_step (o : oid) (value : ptr) (pc : reset_pc) : Op reset_pc :=
  match pc with
  | R_lock => omutex_lock o;; mret (R_for 0)
  | R_for i =>
      od ← owner o;
      if decide (i < length (o_children_ od)) then mret (R_value i) else mret R_while
  | R_value i =>
      c ← child_at o i;
      upd_reader c (with_value value);;
      mret (R_test i)
  | R_test i =>
      c ← child_at o i;
      rd ← reader c;
      if decide (r_locked_ rd ≠ nullptr) then mret (R_push i) else mret (R_for (S i))
  | R_push i =>
      c ← child_at o i;
      od ← owner o;
      upd_owner o (with_update (o_update_ od ++ [c]));;
      mret (R_for (S i))
  | R_while =>
      od ← owner o;
      match o_update_ od with
      | [] => mret R_delete
      | _ :: _ => mret (R_sweep 0)
      end
  | R_sweep j =>
      od ← owner o;
      if decide (j < length (o_update_ od)) then
        c ← update_at o j;
        rd ← reader c;
        if decide (r_locked_ rd = nullptr ∨ r_locked_ rd = value)
        then mret (R_erase j) else mret (R_sweep (S j))
      else mret R_while
  | R_erase j =>
      od ← owner o;
      upd_owner o (with_update (delete j (o_update_ od)));;
      crash
  | R_delete =>
      od ← owner o;
      delete_value (o_value_ od);;
      mret R_store
  | R_store => upd_owner o (with_ovalue value);; mret R_unlock
  | R_unlock => omutex_unlock o;; mret R_done
  | R_done => mret R_done
  end.

Definition reset_done (pc : reset_pc) : bool :=
  match pc with R_done => true | _ => false end.

Definition reset (fuel : nat) (o : oid) (value : ptr) : Op unit :=
  run (reset_step o value) reset_done fuel R_lock.

(** *** Programs: sequences of calls made by one thread *)
Inductive call : Type :=
| NewOwner (o : oid) (value : ptr)   (* new owned_ptr<T>(value) *)
| NewReader (r : rid)                (* reader_ptr<T> r; *)
| NewReaderOn (r : rid) (o : oid)    (* reader_ptr<T> r(owner); *)
| Get (o : oid) (r : rid)            (* owner->get(r); *)
| CopyReader (r other : rid)         (* reader_ptr<T> r(other); *)
| MoveReader (r other : rid)         (* reader_ptr<T> r(std::move(other)); *)
| DeleteReader (r : rid)             (* r goes out of scope *)
| Lock (r : rid)                     (* r.lock(); *)
| Unlock (r : rid)                   (* r.unlock(); *)
| Reset (o : oid) (value : ptr)      (* owner->reset(value); *)
| Count (o : oid)                    (* owner->count(); *)
| DeleteOwner (o : oid).             (* delete owner; *)

Definition exec (fuel : nat) (c : call) : Op unit :=
  match c with
  | NewOwner o value => new_owner o value
  | NewReader r => new_reader r
  | NewReaderOn r o => new_reader_on fuel r o
  | Get o r => get fuel o r
  | CopyReader r other => copy_reader fuel r other
  | MoveReader r other => move_reader fuel r other
  | DeleteReader r => delete_reader fuel r
  | Lock r => lock r;; mret ()
  | Unlock r => unlock r
  | Reset o value => reset fuel o value
  | Count o => count o;; mret ()
  | DeleteOwner o => delete_owner fuel o
  end.

Fixpoint exec_all (fuel : nat) (cs : list call) : Op unit :=
  match cs with
  | [] => mret ()
  | c :: cs' => exec fuel c;; exec_all fuel cs'
  end.

End Shared.

(** ** The exclusive-lock policy: [src/unnamed/part_001] *)

Module Exclusive.

(** [class child_ptr]: [mutex_], [parent_], [locked_]. *)
Record child_ptr : Type := mk_child {
  c_mutex_ : bool;
  c_parent_ : option oid;
  c_locked_ : bool
}.

(** [class owned_ptr]: [mutex_], [value_], [children_]. *)
Record owned_ptr : Type := mk_owner {
  o_mutex_ : bool;
  o_value_ : ptr;
  o_children_ : list rid
}.

Record state : Type := mk_state {
  owners : gmap oid owned_ptr;
  children : gmap rid child_ptr;
  freed : gset addr
}.

Definition empty_state : state := mk_state ∅ ∅ ∅.

Abbreviation Op := (M state).

Definition set_children (f : gmap rid child_ptr → gmap rid child_ptr) (s : state) : state :=
  mk_state (owners s) (f (children s)) (freed s).
Definition set_owners (f : gmap oid owned_ptr → gmap oid owned_ptr) (s : state) : state :=
  mk_state (f (owners s)) (children s) (freed s).

Definition with_cmutex (b : bool) (cd : child_ptr) : child_ptr :=
  mk_child b (c_parent_ cd) (c_locked_ cd).
Definition with_parent (p : option oid) (cd : child_ptr) : child_ptr :=
  mk_child (c_mutex_ cd) p (c_locked_ cd).
Definition with_locked (b : bool) (cd : child_ptr) : child_ptr :=
  mk_child (c_mutex_ cd) (c_parent_ cd) b.
Definition with_omutex (b : bool) (od : owned_ptr) : owned_ptr :=
  mk_owner b (o_value_ od) (o_children_ od).
Definition with_children (cs : list rid) (od : owned_ptr) : owned_ptr :=
  mk_owner (o_mutex_ od) (o_value_ od) cs.

Definition child (c : rid) : Op child_ptr := λ s,
  match children s !! c with
  | Some cd => Returns cd s
  | None => Crashes
  end.
Definition owner (o : oid) : Op owned_ptr := λ s,
  match owners s !! o with
  | Some od => Returns od s
  | None => Crashes
  end.
Definition upd_child (c : rid) (f : child_ptr → child_ptr) : Op unit := λ s,
  match children s !! c with
  | Some cd => Returns () (set_children (insert c (f cd)) s)
  | None => Crashes
  end.
Definition upd_owner (o : oid) (f : owned_ptr → owned_ptr) : Op unit := λ s,
  match owners s !! o with
  | Some od => Returns () (set_owners (insert o (f od)) s)
  | None => Crashes
  end.

Definition omutex_lock (o : oid) : Op unit :=
  od ← owner o;
  if o_mutex_ od then hang else upd_owner o (with_omutex true).
Definition omutex_unlock (o : oid) : Op unit := upd_owner o (with_omutex false).
Definition cmutex_lock (c : rid) : Op unit :=
  cd ← child c;
  if c_mutex_ cd then hang else upd_child c (with_cmutex true).
(** [mutex_.try_lock()] *)
Definition cmutex_try_lock (c : rid) : Op bool :=
  cd ← child c;
  if c_mutex_ cd then mret false else upd_child c (with_cmutex true);; mret true.
Definition cmutex_unlock (c : rid) : Op unit := upd_child c (with_cmutex false).

(** [owned_ptr::owned_ptr(Type *value)] *)
Definition new_owner (o : oid) (value : ptr) : Op unit := λ s,
  match owners s !! o with
  | Some _ => Crashes
  | None => Returns () (set_owners (insert o (mk_owner false value [])) s)
  end.

(** [child_ptr::child_ptr()] initialises [parent_] only; [locked_] holds
    whatever the storage held, here the argument [locked0]. *)
Definition new_child (c : rid) (locked0 : bool) : Op unit := λ s,
  match children s !! c with
  | Some _ => Crashes
  | None => Returns () (set_children (insert c (mk_child false None locked0)) s)
  end.

(** [owned_ptr::remove_] *)
Fixpoint remove_loop (fuel : nat) (o : oid) (c : rid) : Op unit :=
  match fuel with
  | 0 => hang
  | S fuel' =>
      od ← owner o;
      match o_children_ od with
      | [] => mret ()
      | c' :: rest =>
          if decide (c' = c) then upd_owner o (with_children rest)
          else remove_loop fuel' o c
      end
  end.

Definition remove_ (fuel : nat) (o : oid) (c : rid) : Op unit :=
  omutex_lock o;;
  remove_loop fuel o c;;
  omutex_unlock o.

(** [owned_ptr::get] *)
Definition get (fuel : nat) (o : oid) (c : rid) : Op unit :=
  cmutex_lock c;;
  cd ← child c;
  match c_parent_ cd with
  | Some p => remove_ fuel p c
  | None => mret ()
  end;;
  upd_child c (with_parent (Some o));;
  cmutex_unlock c;;
  omutex_lock o;;
  od ← owner o;
  upd_owner o (with_children (o_children_ od ++ [c]));;
  omutex_unlock o.

(** [child_ptr::lock_] *)
Definition lock_ (c : rid) : Op ptr :=
  cd ← child c;
  match c_parent_ cd with
  | Some p =>
      upd_child c (with_locked true);;
      od ← owner p;
      mret (o_value_ od)
  | None =>
      cmutex_unlock c;;
      mret nullptr
  end.

(** [child_ptr::lock] *)
Definition lock (c : rid) : Op ptr :=
  cmutex_lock c;;
  lock_ c.

(** [time_t] is a signed 64-bit integer: the values from [-2^63] up to
    [2^63 - 1]. *)
Definition in_time_t (z : Z) : Prop := (- 2 ^ 63 ≤ z < 2 ^ 63)%Z.

(** [a + b] on [time_t]: a sum that leaves the range comes out as the
    64-bit two's complement sum. *)
Definition time_t_add (a b : Z) : Z := ((a + b + 2 ^ 63) mod 2 ^ 64 - 2 ^ 63)%Z.

(** [child_ptr::try_lock].  [clock k] is what the [k]-th call of [time]
    made by this call returns. *)
Fixpoint try_lock_loop (clock : nat → Z) (fuel k : nat) (now timeout : Z) (c : rid)
    : Op ptr :=
  match fuel with
  | 0 => hang
  | S fuel' =>
      b ← cmutex_try_lock c;
      if b : bool then lock_ c
      else if decide (time_t_add now timeout < clock k)%Z
           then try_lock_loop clock fuel' (S k) now timeout c
           else mret nullptr
  end.

Definition try_lock (clock : nat → Z) (fuel : nat) (timeout : Z) (c : rid) : Op ptr :=
  try_lock_loop clock fuel 1 (clock 0) timeout c.

(** [child_ptr::unlock].  Unlocking a mutex that is not held leaves it
    not held. *)
Definition unlock (c : rid) : Op unit :=
  cd ← child c;
  if c_locked_ cd then
    cmutex_unlock c;;
    match c_parent_ cd with
    | Some p => omutex_unlock p
    | None => crash
    end;;
    upd_child c (with_locked false)
  else mret ().

(** *** The rest of the header: [set], the destructors, the constructor
    from an owner *)

Definition set_freed (f : gset addr → gset addr) (s : state) : state :=
  mk_state (owners s) (children s) (f (freed s)).
Definition with_ovalue (v : ptr) (od : owned_ptr) : owned_ptr :=
  mk_owner (o_mutex_ od) v (o_children_ od).

(** [delete p;] *)
Definition delete_value (p : ptr) : Op unit := λ s,
  Returns () (set_freed (delete_ptr p) s).

(** [owned_ptr::set] *)
Definition set (o : oid) (value : ptr) : Op unit :=
  omutex_lock o;;
  od ← owner o;
  delete_value (o_value_ od);;
  upd_owner o (with_ovalue value);;
  omutex_unlock o.

(** [owned_ptr::~owned_ptr]: [for (auto &i : children_)
    { i->mutex_.lock(); i->parent_ = nullptr; i->mutex_.unlock(); }] *)
Fixpoint dtor_loop (cs : list rid) : Op unit :=
  match cs with
  | [] => mret ()
  | c :: cs' =>
      cmutex_lock c;;
      upd_child c (with_parent None);;
      cmutex_unlock c;;
      dtor_loop cs'
  end.

Definition dtor (o : oid) : Op unit :=
  omutex_lock o;;
  od ← owner o;
  dtor_loop (o_children_ od);;
  od' ← owner o;
  delete_value (o_value_ od');;
  omutex_unlock o.

(** [delete owner;]: the destructor runs, then the object is gone. *)
Definition delete_owner (o : oid) : Op unit :=
  dtor o;;
  s ← get_state;
  put_state (set_owners (delete o) s).

(** [child_ptr::~child_ptr], after which the object is gone. *)
Definition delete_child (fuel : nat) (c : rid) : Op unit :=
  cmutex_lock c;;
  cd ← child c;
  match c_parent_ cd with
  | Some p => remove_ fuel p c
  | None => mret ()
  end;;
  cmutex_unlock c;;
  s ← get_state;
  put_state (set_children (delete c) s).

(** [child_ptr::child_ptr(owned_ptr<Type> *owner)] initialises no member
    before it calls [get], which reads [parent_]: [parent_] and [locked_]
    hold whatever the storage held, here [parent0] and [locked0]. *)
Definition new_child_on (fuel : nat) (c : rid) (parent0 : option oid) (locked0 : bool)
    (o : oid) : Op unit :=
  (λ s, match children s !! c with
        | Some _ => Crashes
        | None => Returns () (set_children (insert c (mk_child false parent0 locked0)) s)
        end);;
  get fuel o c.

(** *** Programs: sequences of calls made by one thread *)
Inductive call : Type :=
| NewOwner (o : oid) (value : ptr)       (* new owned_ptr<T>(value) *)
| NewChild (c : rid) (locked0 : bool)    (* child_ptr<T> c; *)
| NewChildOn (c : rid) (parent0 : option oid) (locked0 : bool) (o : oid)
                                         (* child_ptr<T> c(owner); *)
| Get (o : oid) (c : rid)                (* owner->get(c); *)
| SetValue (o : oid) (value : ptr)       (* owner->set(value); *)
| Lock (c : rid)                         (* c.lock(); *)
| TryLock (clock : nat → Z) (timeout : Z) (c : rid)
                                         (* c.try_lock(timeout); *)
| Unlock (c : rid)                       (* c.unlock(); *)
| DeleteChild (c : rid)                  (* c goes out of scope *)
| DeleteOwner (o : oid).                 (* delete owner; *)

Definition exec (fuel : nat) (c : call) : Op unit :=
  match c with
  | NewOwner o value => new_owner o value
  | NewChild c locked0 => new_child c locked0
  | NewChildOn c parent0 locked0 o => new_child_on fuel c parent0 locked0 o
  | Get o c => get fuel o c
  | SetValue o value => set o value
  | Lock c => lock c;; mret ()
  | TryLock clock timeout c => try_lock clock fuel timeout c;; mret ()
  | Unlock c => unlock c
  | DeleteChild c => delete_child fuel c
  | DeleteOwner o => delete_owner o
  end.

Fixpoint exec_all (fuel : nat) (cs : list call) : Op unit :=
  match cs with
  | [] => mret ()
  | c :: cs' => exec fuel c;; exec_all fuel cs'
  end.

End Exclusive.

(** ** Invariants, schedules and sample states of the shared-read policy *)

Module SharedSpec.
Import Shared.

(** *** Triples *)

(** [m] keeps [P] whenever it returns. *)
Definition preserves {A} (P : state → Prop) (m : Op A) : Prop :=
  ∀ s a s', P s → m s = Returns a s' → P s'.

(** From [P], [m] returns only in [Q]. *)
Definition hoare {A} (P : state → Prop) (m : Op A) (Q : A → state → Prop) : Prop :=
  ∀ s a s', P s → m s = Returns a s' → Q a s'.

(** *** Frames: what an operation leaves alone *)

Definition owners_unchanged {A} (m : Op A) : Prop :=
  ∀ s a s', m s = Returns a s' → owners s' = owners s.

(** The [locked_] field of reader [r], if [r] is live. *)
Definition locked_of (s : state) (r : rid) : option ptr :=
  r_locked_ <$> readers s !! r.

Definition keeps_locked {A} (m : Op A) : Prop :=
  ∀ s a s' r, m s = Returns a s' → locked_of s' r = locked_of s r.


(** *** Classes of calls *)

(** Every call but [delete owner]. *)
Definition keeps_owner (c : call) : bool :=
  match c with
  | DeleteOwner _ => false
  | _ => true
  end.

(** Every call but the move constructor of [reader_ptr]. *)
Definition no_move (c : call) : bool :=
  match c with
  | MoveReader _ _ => false
  | _ => true
  end.

(** *** The registry and the readers' back-pointers *)

(** Reader [rd] after [owned_ptr::get] of owner [o]. *)
Definition attached_to (o : oid) (od : owned_ptr) (rd : reader_ptr) : reader_ptr :=
  mk_reader (o_value_ od) (r_locked_ rd) false (Some o).

(** The number of live readers whose [parent_] is [o]. *)
Definition pointing_to (o : oid) (m : gmap rid reader_ptr) : nat :=
  size (filter (λ kv, r_parent_ kv.2 = Some o) m).

(** [children_.size()] is the number of readers pointing to the owner,
    for every live owner; and no reader points to an owner that does not
    exist. *)
Definition count_inv (s : state) : Prop :=
  (∀ o od, owners s !! o = Some od →
     length (o_children_ od) = pointing_to o (readers s)) ∧
  (∀ r rd o, readers s !! r = Some rd → r_parent_ rd = Some o →
     is_Some (owners s !! o)).

(** Registries have no duplicates; a reader is in the registry of owner
    [o] exactly when its [parent_] is [o]; and a reader's [value_] is its
    owner's [value_], or null when it has no owner. *)
Definition coh (om : gmap oid owned_ptr) (rm : gmap rid reader_ptr) : Prop :=
  (∀ o od, om !! o = Some od → NoDup (o_children_ od)) ∧
  (∀ o od r, om !! o = Some od →
     r ∈ o_children_ od ↔ ∃ rd, rm !! r = Some rd ∧ r_parent_ rd = Some o) ∧
  (∀ r rd, rm !! r = Some rd →
     match r_parent_ rd with
     | Some o => ∃ od, om !! o = Some od ∧ r_value_ rd = o_value_ od
     | None => r_value_ rd = nullptr
     end).

Definition coherent (s : state) : Prop := coh (owners s) (readers s).

(** The part of [coherent] that does not mention values. *)
Definition shape (s : state) : Prop :=
  (∀ o od, owners s !! o = Some od → NoDup (o_children_ od)) ∧
  (∀ o od r, owners s !! o = Some od →
     r ∈ o_children_ od ↔ ∃ rd, readers s !! r = Some rd ∧ r_parent_ rd = Some o).

(** *** The owners' mutexes *)

Definition omutex_free (s : state) : Prop :=
  ∀ o od, owners s !! o = Some od → o_mutex_ od = false.

(** All owner mutexes are free, except that of [o], which is [b]. *)
Definition omutex_only (o : oid) (b : bool) (s : state) : Prop :=
  ∀ o' od, owners s !! o' = Some od →
    o_mutex_ od = if decide (o' = o) then b else false.

(** The points of [reset] and of [~owned_ptr] at which [mutex_] is held. *)
Definition reset_holds (pc : reset_pc) : bool :=
  match pc with
  | R_lock | R_done => false
  | _ => true
  end.

Definition dtor_holds (pc : dtor_pc) : bool :=
  match pc with
  | D_lock | D_done => false
  | _ => true
  end.

(** *** Progress of [reset] *)

(** How far through the registry [reset] has written the new [value_],
    and how far it has also looked at [locked_]; [None] is the whole
    registry. *)
Definition reset_valued (pc : reset_pc) : option nat :=
  match pc with
  | R_lock => Some 0
  | R_for i | R_value i => Some i
  | R_test i | R_push i => Some (S i)
  | _ => None
  end.

Definition reset_settled (pc : reset_pc) : option nat :=
  match pc with
  | R_lock => Some 0
  | R_for i | R_value i | R_test i | R_push i => Some i
  | _ => None
  end.

Definition covered (n : option nat) (k : nat) : Prop :=
  match n with
  | Some i => k < i
  | None => True
  end.

(** [update_] has been found empty. *)
Definition reset_waited (pc : reset_pc) : bool :=
  match pc with
  | R_delete | R_store | R_unlock | R_done => true
  | _ => false
  end.

(** [value_ = value] has been executed. *)
Definition reset_stored (pc : reset_pc) : bool :=
  match pc with
  | R_unlock | R_done => true
  | _ => false
  end.

(** [reset] is in its second loop, polling the readers on [update_]. *)
Definition reset_sweeping (pc : reset_pc) : bool :=
  match pc with
  | R_while | R_sweep _ => true
  | _ => false
  end.

(** Reader [r] passes the test of the second loop of [reset(value)]:
    [locked_ == nullptr || locked_ == value]. *)
Definition released (value : ptr) (s : state) (r : rid) : Prop :=
  ∃ rd, readers s !! r = Some rd ∧ (r_locked_ rd = nullptr ∨ r_locked_ rd = value).

(** [reset] on owner [o] has found the readers [u] locked and put them on
    [update_]; it gets to [delete value_] only with [update_] empty. *)
Definition reset_found (o : oid) (u : list rid) (pc : reset_pc) (s : state) : Prop :=
  ∃ od, owners s !! o = Some od ∧ u `prefix_of` o_update_ od ∧
        (reset_waited pc = true → o_update_ od = []).

(** The cached values while [reset(value)] runs on owner [o]: a reader
    of another owner has that owner's value; a reader of [o] has the new
    value, or still the old one when [reset] has not come to it yet. *)
Definition reset_values (o : oid) (value : ptr) (pc : reset_pc) (s : state) : Prop :=
  ∀ r rd, readers s !! r = Some rd →
    match r_parent_ rd with
    | None => r_value_ rd = nullptr
    | Some p =>
        ∃ pd, owners s !! p = Some pd ∧
          (p ≠ o → r_value_ rd = o_value_ pd) ∧
          (p = o →
             (reset_stored pc = true → o_value_ pd = value) ∧
             (r_value_ rd = value ∨
              (r_value_ rd = o_value_ pd ∧
               ∃ i k, reset_valued pc = Some i ∧ i ≤ k ∧ o_children_ pd !! k = Some r)))
    end.

Definition reset_coh (o : oid) (value : ptr) (pc : reset_pc) (s : state) : Prop :=
  shape s ∧ reset_values o value pc s.

(** *** Progress of [~owned_ptr] *)

(** How many registry entries [~owned_ptr] has detached ([parent_]
    cleared), and how many it has nulled ([value_] cleared). *)
Definition dtor_detached (pc : dtor_pc) : option nat :=
  match pc with
  | D_lock => Some 0
  | D_for i | D_value i | D_set_owner i => Some i
  | D_wait i => Some (S i)
  | _ => None
  end.

Definition dtor_nulled (pc : dtor_pc) : option nat :=
  match pc with
  | D_lock => Some 0
  | D_for i | D_value i => Some i
  | D_set_owner i | D_wait i => Some (S i)
  | _ => None
  end.

(** The invariant of [~owned_ptr] on owner [o] with registry [cs], when
    [nd] entries are detached and [nn] nulled. *)
Definition dcoh (o : oid) (cs : list rid) (nd nn : option nat)
    (om : gmap oid owned_ptr) (rm : gmap rid reader_ptr) : Prop :=
  (∃ od, om !! o = Some od ∧ o_children_ od = cs) ∧
  (∀ o' od, om !! o' = Some od → NoDup (o_children_ od)) ∧
  (∀ o' od r, o' ≠ o → om !! o' = Some od →
     r ∈ o_children_ od ↔ ∃ rd, rm !! r = Some rd ∧ r_parent_ rd = Some o') ∧
  (∀ r rd, rm !! r = Some rd → r_parent_ rd = Some o → r ∈ cs) ∧
  (∀ k r rd, cs !! k = Some r → rm !! r = Some rd →
     (r_parent_ rd = Some o ∨ r_parent_ rd = None) ∧
     (covered nd k → r_parent_ rd = None) ∧
     (covered nn k → r_value_ rd = nullptr)) ∧
  (∀ r rd, rm !! r = Some rd →
     match r_parent_ rd with
     | None => r_value_ rd = nullptr
     | Some p => p ≠ o → ∃ pd, om !! p = Some pd ∧ r_value_ rd = o_value_ pd
     end).

Definition dtor_coh (o : oid) (cs : list rid) (pc : dtor_pc) (s : state) : Prop :=
  dcoh o cs (dtor_detached pc) (dtor_nulled pc) (owners s) (readers s).

(** *** Schedules *)

(** Which party moves next. *)
Inductive move : Type :=
| Thread                 (* the machine takes its next step *)
| EnvLock (r : rid)      (* some thread calls r.lock() *)
| EnvUnlock (r : rid).   (* some thread calls r.unlock() *)

Fixpoint play {PC} (step : PC → Op PC) (sched : list move) (pc : PC) (s : state)
    : option (PC * state) :=
  match sched with
  | [] => Some (pc, s)
  | Thread :: sched' =>
      match step pc s with
      | Returns pc' s' => play step sched' pc' s'
      | _ => None
      end
  | EnvLock r :: sched' =>
      match lock r s with
      | Returns _ s' => play step sched' pc s'
      | _ => None
      end
  | EnvUnlock r :: sched' =>
      match unlock r s with
      | Returns _ s' => play step sched' pc s'
      | _ => None
      end
  end.

(** *** Sample runs and states *)

(** The state of [src/example.cpp] when [other_owned_ref.unlock()] is called:
    reader 10 is locked, reader 11 is not. *)
Definition example_before_unlock : state :=
  match exec_all 10 [NewOwner 1 (Some 1204); NewReader 10; Get 1 10;
                     NewReaderOn 11 1; Lock 10] empty_state with
  | Returns _ s => s
  | _ => empty_state
  end.

(** Owner 1 holds value 7; reader 10 is attached to it. *)
Definition attached_reader_state : state :=
  match exec_all 5 [NewOwner 1 (Some 7); NewReaderOn 10 1] empty_state with
  | Returns _ s => s
  | _ => empty_state
  end.

(** Owner 1 holds value 7; reader 10 is attached to it and has locked. *)
Definition locked_reader_state : state :=
  match exec_all 5 [NewOwner 1 (Some 7); NewReaderOn 10 1; Lock 10] empty_state with
  | Returns _ s => s
  | _ => empty_state
  end.

(** Owner 1 with registry [10; 11]. *)
Definition two_readers_state : state :=
  match exec_all 5 [NewOwner 1 (Some 7); NewReaderOn 10 1;
                    NewReaderOn 11 1] empty_state with
  | Returns _ s => s
  | _ => empty_state
  end.

(** [reset(8)] on owner 1 of [locked_reader_state] goes through the
    registry, finds reader 10 locked and polls it; then reader 10
    unlocks. *)
Definition reset_wait_schedule : list move :=
  replicate 10 Thread ++ [EnvUnlock 10].

Definition reset_waiting_state : state :=
  match play (reset_step 1 (Some 8)) reset_wait_schedule R_lock locked_reader_state with
  | Some (_, s) => s
  | None => empty_state
  end.

(** Owners 1 and 2 hold values 7 and 8; readers 10 and 11 are attached to
    owner 1, and reader 10 has locked. *)
Definition shared_value_state : state :=
  match exec_all 5 [NewOwner 1 (Some 7); NewOwner 2 (Some 8); NewReaderOn 10 1;
                    NewReaderOn 11 1; Lock 10] empty_state with
  | Returns _ s => s
  | _ => empty_state
  end.

(** Two owners; readers are attached, copied, moved, locked, destroyed
    and handed from one owner to the other. *)
Definition attach_detach_run : list call :=
  [ NewOwner 1 (Some 1204); NewOwner 2 (Some 7);
    NewReader 10; Get 1 10; CopyReader 11 10; MoveReader 12 10;
    NewReaderOn 13 2; Lock 13; DeleteReader 13;
    NewReaderOn 14 2; Lock 14; Get 1 14;
    Lock 12; Unlock 12; Count 1 ].

Definition attach_detach_state : state :=
  match exec_all 5 attach_detach_run empty_state with
  | Returns _ s => s
  | _ => empty_state
  end.

(** The calls of [src/example.cpp] up to a [lock()] after the [reset]. *)
Definition example_run : list call :=
  [ NewOwner 1 (Some 1204); NewReader 10; Get 1 10; NewReaderOn 11 1;
    Lock 10; Unlock 11; Unlock 10; CopyReader 12 10; Count 1;
    Reset 1 (Some 326); Lock 10 ].

Definition example_state : state :=
  match exec_all 30 example_run empty_state with
  | Returns _ s => s
  | _ => empty_state
  end.




(** *** What single calls do, and what all calls keep *)

(** The state after [owner->get(reader)] has appended reader [r] to the
    registry of owner [o], which was [od]. *)
Definition after_get (o : oid) (od : owned_ptr) (r : rid) (rd : reader_ptr) (s : state)
    : state :=
  mk_state (<[o := with_children (o_children_ od ++ [r]) od]> (owners s))
           (<[r := attached_to o od rd]> (readers s))
           (freed s).

(** The readers after [reset(value)] has gone through the registry [cs]. *)
Definition revalue (value : ptr) (cs : list rid) (m : gmap rid reader_ptr)
    : gmap rid reader_ptr :=
  foldl (λ m c, alter (with_value value) c m) m cs.

(** The readers after [~owned_ptr] has gone through the registry [cs]. *)
Definition retire (cs : list rid) (m : gmap rid reader_ptr) : gmap rid reader_ptr :=
  foldl (λ m c, alter (with_parent None ∘ with_value nullptr) c m) m cs.

(** Every entry of the registry [cs] is a live reader that is not locked. *)
Definition idle_readers (cs : list rid) (s : state) : Prop :=
  ∀ c, c ∈ cs → ∃ rd, readers s !! c = Some rd ∧ r_locked_ rd = nullptr.

(** Moreover nobody holds the mutex of any of them. *)
Definition quiet_readers (cs : list rid) (s : state) : Prop :=
  ∀ c, c ∈ cs → ∃ rd, readers s !! c = Some rd ∧ r_mutex_ rd = false ∧
                      r_locked_ rd = nullptr.

(** [reset(value)] has not got past reader [r], entry [k] of the
    registry, which is locked on something other than [value]. *)
Definition reset_held (o : oid) (value : ptr) (r : rid) (k : nat)
    (pc : reset_pc) (s : state) : Prop :=
  reset_waited pc = false ∧
  (∃ rd, readers s !! r = Some rd ∧ r_locked_ rd ≠ nullptr ∧ r_locked_ rd ≠ value) ∧
  ∃ od, owners s !! o = Some od ∧ o_children_ od !! k = Some r ∧
    (covered (reset_settled pc) k → r ∈ o_update_ od) ∧
    (∀ j, pc = R_erase j → ∃ c, o_update_ od !! j = Some c ∧ c ≠ r).

(** [~owned_ptr] has not got past reader [r], entry [k] of the registry,
    which is locked. *)
Definition dtor_held (o : oid) (r : rid) (k : nat) (pc : dtor_pc) (s : state) : Prop :=
  (∃ rd, readers s !! r = Some rd ∧ r_locked_ rd ≠ nullptr) ∧
  (∃ od, owners s !! o = Some od ∧ o_children_ od !! k = Some r) ∧
  match pc with
  | D_lock => True
  | D_for i | D_value i | D_set_owner i | D_wait i => i ≤ k
  | D_delete | D_unlock | D_done => False
  end.

(** Nobody holds the mutex of a reader, reader [x] apart. *)
Definition rmutex_free_but (x : option rid) (s : state) : Prop :=
  ∀ r rd, x ≠ Some r → readers s !! r = Some rd → r_mutex_ rd = false.

(** Owner 1 holds value 7; reader 10 has no owner yet. *)
Definition lone_reader_state : state :=
  match exec_all 5 [NewOwner 1 (Some 7); NewReader 10] empty_state with
  | Returns _ s => s
  | _ => empty_state
  end.

(** Owners 1 and 2 hold values 7 and 8; reader 10 is attached to owner 1
    and has locked. *)
Definition two_owners_state : state :=
  match exec_all 5 [NewOwner 1 (Some 7); NewOwner 2 (Some 8); NewReaderOn 10 1; Lock 10]
          empty_state with
  | Returns _ s => s
  | _ => empty_state
  end.

End SharedSpec.

(** ** Invariants and sample states of the exclusive-lock policy *)

Module ExclusiveSpec.
Import Exclusive.

(** [src/unnamed/part_002]: an owner with value 3 and two children. *)
Definition two_children_state : state :=
  match (new_owner 1 (Some 3);; new_child 10 false;; new_child 11 false;;
         get 5 1 10;; get 5 1 11) empty_state with
  | Returns _ s => s
  | _ => empty_state
  end.

(** Child 10 of [two_children_state] has locked and not unlocked. *)
Definition child_locked_state : state :=
  match lock 10 two_children_state with
  | Returns _ s => s
  | _ => empty_state
  end.

(** [time] returns 100 when [try_lock] starts and 101 from then on. *)
Definition clock_tick (k : nat) : Z :=
  match k with
  | 0 => 100
  | _ => 101
  end.

(** *** What single calls do, and what all calls keep *)

(** The children after [~owned_ptr] has gone through the registry [cs]. *)
Definition orphan (cs : list rid) (m : gmap rid child_ptr) : gmap rid child_ptr :=
  foldl (λ m c, alter (with_parent None) c m) m cs.

(** Every entry of the registry [cs] is a live child whose mutex is free. *)
Definition unlocked_children (cs : list rid) (s : state) : Prop :=
  ∀ c, c ∈ cs → ∃ cd, children s !! c = Some cd ∧ c_mutex_ cd = false.

(** The state after [owner->get(child)] has appended child [c] to the
    registry of owner [o], which was [od]. *)
Definition attached (o : oid) (od : owned_ptr) (c : rid) (cd : child_ptr) (s : state)
    : state :=
  mk_state (<[o := with_children (o_children_ od ++ [c]) od]> (owners s))
           (<[c := mk_child false (Some o) (c_locked_ cd)]> (children s))
           (freed s).

(** Registries have no duplicates, every entry of the registry of an
    owner is a live child whose [parent_] is that owner, and every live
    child with a [parent_] is in the registry of that owner, which is
    live. *)
Definition registered (s : state) : Prop :=
  (∀ o od, owners s !! o = Some od → NoDup (o_children_ od)) ∧
  (∀ o od c, owners s !! o = Some od → c ∈ o_children_ od →
     ∃ cd, children s !! c = Some cd ∧ c_parent_ cd = Some o) ∧
  (∀ c cd o, children s !! c = Some cd → c_parent_ cd = Some o →
     ∃ od, owners s !! o = Some od ∧ c ∈ o_children_ od).

(** The same, with nothing said about where the [parent_] of child [x]
    points. *)
Definition registered_but (x : rid) (s : state) : Prop :=
  (∀ o od, owners s !! o = Some od → NoDup (o_children_ od)) ∧
  (∀ o od c, owners s !! o = Some od → c ∈ o_children_ od →
     ∃ cd, children s !! c = Some cd ∧ c_parent_ cd = Some o) ∧
  (∀ c cd o, c ≠ x → children s !! c = Some cd → c_parent_ cd = Some o →
     ∃ od, owners s !! o = Some od ∧ c ∈ o_children_ od).

(** [m] changes no registry and no [parent_], and neither creates nor
    destroys an object. *)
Definition keeps_registry {A} (m : Op A) : Prop :=
  ∀ s a s', m s = Returns a s' →
    (∀ o, o_children_ <$> owners s' !! o = o_children_ <$> owners s !! o) ∧
    (∀ c, c_parent_ <$> children s' !! c = c_parent_ <$> children s !! c).

(** The calls that construct no child on storage whose [locked_] byte
    was set. *)
Definition zeroed (c : call) : bool :=
  match c with
  | NewChild _ locked0 | NewChildOn _ _ locked0 _ => negb locked0
  | _ => true
  end.

(** Nobody holds the mutex of an owner; a child's mutex is held exactly
    when the child is locked, and a locked child has a live owner. *)
Definition disciplined (s : state) : Prop :=
  (∀ o od, owners s !! o = Some od → o_mutex_ od = false) ∧
  (∀ c cd, children s !! c = Some cd →
     c_mutex_ cd = c_locked_ cd ∧
     (c_locked_ cd = true → ∃ o od, c_parent_ cd = Some o ∧ owners s !! o = Some od)).

(** An owner with value 3 and a child that has no owner yet. *)
Definition lone_child_state : state :=
  match (new_owner 1 (Some 3);; new_child 10 false) empty_state with
  | Returns _ s => s
  | _ => empty_state
  end.

(** A thread that uses every call of the header. *)
Definition busy_run : list call :=
  [ NewOwner 1 (Some 3); NewOwner 2 nullptr; NewChild 10 false; Get 1 10;
    NewChildOn 11 None false 1; NewChild 12 false; Get 2 12;
    Lock 10; Unlock 10; TryLock (λ _, 0%Z) 5%Z 11; Unlock 11;
    SetValue 1 (Some 4); Get 2 10; DeleteChild 12; DeleteOwner 1 ].

Definition busy_state : state :=
  match exec_all 5 busy_run empty_state with
  | Returns _ s => s
  | _ => empty_state
  end.

End ExclusiveSpec.

(** ** General facts about the monad *)

Lemma bind_Returns {St A B} (m : M St A) (f : A → M St B) s b s' :
  (m ≫= f) s = Returns b s' ↔ ∃ a s1, m s = Returns a s1 ∧ f a s1 = Returns b s'.
Proof.
  unfold mbind, M_bind. split.
  - destruct (m s) as [a s1| |]; [eauto | done | done].
  - intros (a & s1 & -> & ?). done.
Qed.

Lemma bind_Hangs_l {St A B} (m : M St A) (f : A → M St B) s :
  m s = Hangs → (m ≫= f) s = Hangs.
Proof. unfold mbind, M_bind. by intros ->. Qed.

Lemma bind_Crashes_l {St A B} (m : M St A) (f : A → M St B) s :
  m s = Crashes → (m ≫= f) s = Crashes.
Proof. unfold mbind, M_bind. by intros ->. Qed.

Lemma bind_step {St A B} (m : M St A) (f : A → M St B) s a s1 :
  m s = Returns a s1 → (m ≫= f) s = f a s1.
Proof. unfold mbind, M_bind. by intros ->. Qed.

Lemma bind_ok {St A B} (m : M St A) (f : A → M St B) s a s1 r :
  m s = Returns a s1 → f a s1 = r → (m ≫= f) s = r.
Proof. intros H <-. by apply bind_step. Qed.

Lemma ret_Returns {St A} (a b : A) (s s' : St) :
  (mret a : M St A) s = Returns b s' ↔ a = b ∧ s = s'.
Proof. unfold mret, M_ret. split; [by inversion 1 | by intros [-> ->]]. Qed.

Lemma terminates_not_never {St A} (f : nat → M St A) s :
  never_returns f s → ¬ terminates f s.
Proof. intros Hn (fuel & a & s' & H). by rewrite Hn in H. Qed.

(** ** Facts about the shared-read policy *)

Module SharedFacts.
Import Shared SharedSpec.

Lemma reader_Returns r s rd s' :
  reader r s = Returns rd s' ↔ readers s !! r = Some rd ∧ s' = s.
Proof.
  unfold reader. destruct (readers s !! r); split; intros H;
    try (inversion H; subst; done); destruct H as [H ->]; by inversion H.
Qed.

Lemma owner_Returns o s od s' :
  owner o s = Returns od s' ↔ owners s !! o = Some od ∧ s' = s.
Proof.
  unfold owner. destruct (owners s !! o); split; intros H;
    try (inversion H; subst; done); destruct H as [H ->]; by inversion H.
Qed.

Lemma upd_reader_Returns r f s u s' :
  upd_reader r f s = Returns u s' ↔
  ∃ rd, readers s !! r = Some rd ∧ s' = set_readers (insert r (f rd)) s.
Proof.
  unfold upd_reader. destruct (readers s !! r) as [rd|]; split; intros H.
  - inversion H; subst. eauto.
  - destruct H as (rd' & [= <-] & ->). by destruct u.
  - done.
  - by destruct H as (? & ? & _).
Qed.

Lemma upd_owner_Returns o f s u s' :
  upd_owner o f s = Returns u s' ↔
  ∃ od, owners s !! o = Some od ∧ s' = set_owners (insert o (f od)) s.
Proof.
  unfold upd_owner. destruct (owners s !! o) as [od|]; split; intros H.
  - inversion H; subst. eauto.
  - destruct H as (od' & [= <-] & ->). by destruct u.
  - done.
  - by destruct H as (? & ? & _).
Qed.

Lemma omutex_lock_Returns o s u s' :
  omutex_lock o s = Returns u s' ↔
  ∃ od, owners s !! o = Some od ∧ o_mutex_ od = false ∧
        s' = set_owners (insert o (with_omutex true od)) s.
Proof.
  unfold omutex_lock. rewrite bind_Returns. split.
  - intros (od & s1 & [H ->]%owner_Returns & H2).
    destruct (o_mutex_ od) eqn:E; [done|].
    apply upd_owner_Returns in H2 as (od' & H3 & ->).
    exists od. by simplify_eq.
  - intros (od & H & E & ->). exists od, s. rewrite owner_Returns. split; [done|].
    rewrite E. apply upd_owner_Returns. eauto.
Qed.

Lemma rmutex_lock_Returns r s u s' :
  rmutex_lock r s = Returns u s' ↔
  ∃ rd, readers s !! r = Some rd ∧ r_mutex_ rd = false ∧
        s' = set_readers (insert r (with_rmutex true rd)) s.
Proof.
  unfold rmutex_lock. rewrite bind_Returns. split.
  - intros (rd & s1 & [H ->]%reader_Returns & H2).
    destruct (r_mutex_ rd) eqn:E; [done|].
    apply upd_reader_Returns in H2 as (rd' & H3 & ->).
    exists rd. by simplify_eq.
  - intros (rd & H & E & ->). exists rd, s. rewrite reader_Returns. split; [done|].
    rewrite E. apply upd_reader_Returns. eauto.
Qed.

Lemma get_state_Returns (s s1 s' : state) :
  get_state s = Returns s1 s' ↔ s1 = s ∧ s' = s.
Proof. unfold get_state. split; [by inversion 1 | by intros [-> ->]]. Qed.

Lemma put_state_Returns (s0 s : state) u s' :
  put_state s0 s = Returns u s' ↔ s' = s0.
Proof. unfold put_state. split; [by inversion 1 | intros ->; by destruct u]. Qed.

(** *** [unlock] of a reader that is not locked *)

Lemma with_locked_id rd : with_locked (r_locked_ rd) rd = rd.
Proof. by destruct rd. Qed.

Lemma unlock_not_locked s r rd :
  readers s !! r = Some rd → r_locked_ rd = nullptr → unlock r s = Returns () s.
Proof.
  intros Hr Hl. unfold unlock. apply upd_reader_Returns. exists rd. split; [done|].
  rewrite <- Hl, with_locked_id. unfold set_readers. rewrite insert_id by done.
  by destruct s.
Qed.

(** C8: under the shared-read policy, [unlock()] on a reader that is not
    locked returns and leaves the whole state as it was, so a [lock()] made
    afterwards by the same or by any other reader gives exactly what it
    would have given without the [unlock()]. *)
Theorem C8_unlock_not_locked_is_noop (s : state) (r : rid) (rd : reader_ptr) :
  readers s !! r = Some rd →
  r_locked_ rd = nullptr →
  unlock r s = Returns () s ∧
  ∀ r', (unlock r;; lock r') s = lock r' s.
Proof.
  intros Hr Hl. pose proof (unlock_not_locked s r rd Hr Hl) as Hu.
  split; [done|]. intros r'. by rewrite (bind_step _ _ _ _ _ Hu).
Qed.

Lemma C8_witness :
  (readers example_before_unlock !! 11 = Some (mk_reader (Some 1204) nullptr false (Some 1)) ∧
   r_locked_ (mk_reader (Some 1204) nullptr false (Some 1)) = nullptr) ∧
  (unlock 11 example_before_unlock = Returns () example_before_unlock ∧
   ∀ r', (unlock 11;; lock r') example_before_unlock = lock r' example_before_unlock).
Proof.
  split; [split; vm_compute; reflexivity|].
  apply (C8_unlock_not_locked_is_noop example_before_unlock 11
           (mk_reader (Some 1204) nullptr false (Some 1))); vm_compute; reflexivity.
Defined.

(** *** The registry search of [remove_] and [replace_] *)

(** Waiting on a reader whose [locked_] is null, with nobody to set it. *)
Lemma remove_wait_unlocked fuel c s rd :
  readers s !! c = Some rd → r_locked_ rd = nullptr → remove_wait fuel c s = Hangs.
Proof.
  intros Hr Hl. induction fuel as [|fuel IH]; [done|]. simpl.
  erewrite bind_step by by apply reader_Returns.
  by rewrite decide_True.
Qed.

Lemma remove_wait_Returns fuel c s u s' :
  remove_wait fuel c s = Returns u s' →
  s' = s ∧ ∃ rd, readers s !! c = Some rd ∧ r_locked_ rd ≠ nullptr.
Proof.
  revert s. induction fuel as [|fuel IH]; intros s H; [done|]. simpl in H.
  apply bind_Returns in H as (rd & ? & [Hr ->]%reader_Returns & H).
  destruct (decide _) as [E|E]; [by apply IH in H|].
  apply ret_Returns in H as [_ ->]. eauto.
Qed.

(** The front entry is another reader: the loop goes round for ever. *)
Lemma remove_loop_other fuel o child s od c rest :
  owners s !! o = Some od → o_children_ od = c :: rest → c ≠ child →
  remove_loop fuel o child s = Hangs.
Proof.
  intros Ho Hc Hne. induction fuel as [|fuel IH]; [done|]. simpl.
  erewrite bind_step by by apply owner_Returns.
  rewrite Hc. by rewrite decide_False.
Qed.

Lemma replace_loop_other fuel o rdr w s od c rest :
  owners s !! o = Some od → o_children_ od = c :: rest → c ≠ rdr →
  replace_loop fuel o rdr w s = Hangs.
Proof.
  intros Ho Hc Hne. induction fuel as [|fuel IH]; [done|]. simpl.
  erewrite bind_step by by apply owner_Returns.
  rewrite Hc. by rewrite decide_False.
Qed.

Lemma remove_loop_Returns fuel o child s u s' :
  remove_loop fuel o child s = Returns u s' →
  ∃ od, owners s !! o = Some od ∧
    ((o_children_ od = [] ∧ s' = s) ∨
     (∃ rest rd, o_children_ od = child :: rest ∧
        readers s !! child = Some rd ∧ r_locked_ rd ≠ nullptr ∧
        s' = set_owners (insert o (with_children rest od)) s)).
Proof.
  destruct fuel as [|fuel]; [done|]. simpl. intros H.
  apply bind_Returns in H as (od & ? & [Ho ->]%owner_Returns & H).
  exists od. split; [done|].
  destruct (o_children_ od) as [|c rest] eqn:Hc.
  - apply ret_Returns in H as [_ ->]. by left.
  - destruct (decide (c = child)) as [->|Hne].
    + apply bind_Returns in H as (? & ? & Hw & (od' & Ho' & ->)%upd_owner_Returns).
      apply remove_wait_Returns in Hw as (-> & rd & Hr & Hl).
      right. exists rest, rd. by simplify_eq.
    + by erewrite remove_loop_other in H.
Qed.

Lemma replace_loop_Returns fuel o rdr w s u s' :
  replace_loop fuel o rdr w s = Returns u s' →
  ∃ od, owners s !! o = Some od ∧
    ((o_children_ od = [] ∧ s' = s) ∨
     (∃ rest, o_children_ od = rdr :: rest ∧
        s' = set_owners (insert o (with_children (w :: rest) od)) s)).
Proof.
  destruct fuel as [|fuel]; [done|]. simpl. intros H.
  apply bind_Returns in H as (od & ? & [Ho ->]%owner_Returns & H).
  exists od. split; [done|].
  destruct (o_children_ od) as [|c rest] eqn:Hc.
  - apply ret_Returns in H as [_ ->]. by left.
  - destruct (decide (c = rdr)) as [->|Hne].
    + apply upd_owner_Returns in H as (od' & Ho' & ->).
      right. exists rest. by simplify_eq.
    + by erewrite replace_loop_other in H.
Qed.

Lemma with_omutex_restore od b :
  o_mutex_ od = false → with_omutex false (with_omutex b od) = od.
Proof. destruct od; simpl; by intros ->. Qed.

Lemma with_omutex_children b cs od :
  o_mutex_ od = false →
  with_omutex false (with_children cs (with_omutex b od)) = with_children cs od.
Proof. destruct od; simpl; by intros ->. Qed.

Lemma state_eta s : mk_state (owners s) (readers s) (freed s) = s.
Proof. by destruct s. Qed.

Ltac norm_state :=
  unfold set_owners, set_readers, set_freed in *; simpl in *.

Lemma remove__Returns fuel o child s u s' :
  remove_ fuel o child s = Returns u s' →
  ∃ od, owners s !! o = Some od ∧ o_mutex_ od = false ∧
    ((o_children_ od = [] ∧ s' = s) ∨
     (∃ rest rd, o_children_ od = child :: rest ∧
        readers s !! child = Some rd ∧ r_locked_ rd ≠ nullptr ∧
        s' = set_owners (insert o (with_children rest od)) s)).
Proof.
  unfold remove_. intros H.
  apply bind_Returns in H as (? & s1 & (od & Ho & Hm & ->)%omutex_lock_Returns & H).
  apply bind_Returns in H as (? & s2 & Hloop & (od2 & Ho2 & ->)%upd_owner_Returns).
  exists od. split; [done|]. split; [done|].
  apply remove_loop_Returns in Hloop as (od1 & Ho1 & Hcase).
  norm_state. rewrite lookup_insert_eq in Ho1. simplify_eq.
  destruct Hcase as [[Hc ->]|(rest & rd & Hc & Hr & Hl & ->)]; norm_state.
  - left. split; [done|]. rewrite lookup_insert_eq in Ho2. simplify_eq.
    rewrite insert_insert_eq, with_omutex_restore, insert_id by done.
    apply state_eta.
  - right. exists rest, rd. repeat split; try done.
    rewrite lookup_insert_eq in Ho2. simplify_eq.
    by rewrite !insert_insert_eq, with_omutex_children.
Qed.

Lemma replace__Returns fuel o rdr w s u s' :
  replace_ fuel o rdr w s = Returns u s' →
  ∃ od, owners s !! o = Some od ∧ o_mutex_ od = false ∧
    ((o_children_ od = [] ∧ s' = s) ∨
     (∃ rest, o_children_ od = rdr :: rest ∧
        s' = set_owners (insert o (with_children (w :: rest) od)) s)).
Proof.
  unfold replace_. intros H.
  apply bind_Returns in H as (? & s1 & (od & Ho & Hm & ->)%omutex_lock_Returns & H).
  apply bind_Returns in H as (? & s2 & Hloop & (od2 & Ho2 & ->)%upd_owner_Returns).
  exists od. split; [done|]. split; [done|].
  apply replace_loop_Returns in Hloop as (od1 & Ho1 & Hcase).
  norm_state. rewrite lookup_insert_eq in Ho1. simplify_eq.
  destruct Hcase as [[Hc ->]|(rest & Hc & ->)]; norm_state.
  - left. split; [done|]. rewrite lookup_insert_eq in Ho2. simplify_eq.
    rewrite insert_insert_eq, with_omutex_restore, insert_id by done.
    apply state_eta.
  - right. exists rest. repeat split; try done.
    rewrite lookup_insert_eq in Ho2. simplify_eq.
    by rewrite !insert_insert_eq, with_omutex_children.
Qed.

(** Forward versions, for running a call on a given state. *)
Lemma reader_ok r s rd : readers s !! r = Some rd → reader r s = Returns rd s.
Proof. intros. by apply reader_Returns. Qed.
Lemma owner_ok o s od : owners s !! o = Some od → owner o s = Returns od s.
Proof. intros. by apply owner_Returns. Qed.
Lemma upd_reader_ok r f s rd :
  readers s !! r = Some rd →
  upd_reader r f s = Returns () (set_readers (insert r (f rd)) s).
Proof. intros. apply upd_reader_Returns. eauto. Qed.
Lemma upd_owner_ok o f s od :
  owners s !! o = Some od →
  upd_owner o f s = Returns () (set_owners (insert o (f od)) s).
Proof. intros. apply upd_owner_Returns. eauto. Qed.
Lemma omutex_lock_ok o s od :
  owners s !! o = Some od → o_mutex_ od = false →
  omutex_lock o s = Returns () (set_owners (insert o (with_omutex true od)) s).
Proof. intros. apply omutex_lock_Returns. eauto. Qed.

Lemma owners_set_owners f s : owners (set_owners f s) = f (owners s).
Proof. done. Qed.
Lemma owners_set_readers f s : owners (set_readers f s) = owners s.
Proof. done. Qed.
Lemma readers_set_owners f s : readers (set_owners f s) = readers s.
Proof. done. Qed.
Lemma readers_set_readers f s : readers (set_readers f s) = f (readers s).
Proof. done. Qed.

Lemma set_owners_twice f g s : set_owners f (set_owners g s) = set_owners (f ∘ g) s.
Proof. done. Qed.

Lemma unlock_after_lock o od cs s :
  owners s !! o = Some od → o_mutex_ od = false →
  omutex_unlock o (set_owners (insert o (with_children cs (with_omutex true od))) s)
  = Returns () (set_owners (insert o (with_children cs od)) s).
Proof.
  intros Ho Hm. unfold omutex_unlock.
  erewrite upd_owner_ok by (rewrite owners_set_owners; apply lookup_insert_eq).
  f_equal. rewrite set_owners_twice. unfold set_owners. simpl.
  by rewrite insert_insert_eq, with_omutex_children.
Qed.

Lemma with_children_id od : with_children (o_children_ od) od = od.
Proof. by destruct od. Qed.

Lemma set_owners_insert_id o od s :
  owners s !! o = Some od → set_owners (insert o od) s = s.
Proof. intros. unfold set_owners. rewrite insert_id by done. apply state_eta. Qed.

(** When the search loop hangs, so does the call. *)
Lemma remove__other fuel o child s od c rest :
  owners s !! o = Some od → o_mutex_ od = false →
  o_children_ od = c :: rest → c ≠ child →
  remove_ fuel o child s = Hangs.
Proof.
  intros Ho Hm Hc Hne. unfold remove_.
  rewrite (bind_step _ _ _ _ _ (omutex_lock_ok _ _ _ Ho Hm)).
  apply bind_Hangs_l.
  eapply remove_loop_other with (od := with_omutex true od); [|done..].
  rewrite owners_set_owners. apply lookup_insert_eq.
Qed.

Lemma replace__other fuel o rdr w s od c rest :
  owners s !! o = Some od → o_mutex_ od = false →
  o_children_ od = c :: rest → c ≠ rdr →
  replace_ fuel o rdr w s = Hangs.
Proof.
  intros Ho Hm Hc Hne. unfold replace_.
  rewrite (bind_step _ _ _ _ _ (omutex_lock_ok _ _ _ Ho Hm)).
  apply bind_Hangs_l.
  eapply replace_loop_other with (od := with_omutex true od); [|done..].
  rewrite owners_set_owners. apply lookup_insert_eq.
Qed.

Lemma remove__unlocked fuel o child s od rest rd :
  owners s !! o = Some od → o_mutex_ od = false →
  o_children_ od = child :: rest →
  readers s !! child = Some rd → r_locked_ rd = nullptr →
  remove_ fuel o child s = Hangs.
Proof.
  intros Ho Hm Hc Hr Hl. unfold remove_.
  rewrite (bind_step _ _ _ _ _ (omutex_lock_ok _ _ _ Ho Hm)).
  apply bind_Hangs_l. destruct fuel as [|fuel]; [done|]. simpl.
  erewrite (bind_step (owner o)); last first.
  { apply owner_ok. rewrite owners_set_owners. apply lookup_insert_eq. }
  simpl. rewrite Hc, decide_True by done.
  apply bind_Hangs_l. by eapply remove_wait_unlocked.
Qed.

Lemma remove__empty o child s od :
  owners s !! o = Some od → o_mutex_ od = false → o_children_ od = [] →
  remove_ 1 o child s = Returns () s.
Proof.
  intros Ho Hm Hc. unfold remove_.
  rewrite (bind_step _ _ _ _ _ (omutex_lock_ok _ _ _ Ho Hm)).
  erewrite (bind_step (remove_loop _ _ _) _ _ ()); last first.
  { simpl. erewrite (bind_step (owner o)); last first.
    { apply owner_ok. rewrite owners_set_owners. apply lookup_insert_eq. }
    simpl. rewrite Hc. done. }
  rewrite <- (with_children_id (with_omutex true od)).
  rewrite unlock_after_lock by done. simpl.
  by rewrite with_children_id, set_owners_insert_id.
Qed.

Lemma replace__empty o rdr w s od :
  owners s !! o = Some od → o_mutex_ od = false → o_children_ od = [] →
  replace_ 1 o rdr w s = Returns () s.
Proof.
  intros Ho Hm Hc. unfold replace_.
  rewrite (bind_step _ _ _ _ _ (omutex_lock_ok _ _ _ Ho Hm)).
  erewrite (bind_step (replace_loop _ _ _ _) _ _ ()); last first.
  { simpl. erewrite (bind_step (owner o)); last first.
    { apply owner_ok. rewrite owners_set_owners. apply lookup_insert_eq. }
    simpl. rewrite Hc. done. }
  rewrite <- (with_children_id (with_omutex true od)).
  rewrite unlock_after_lock by done. simpl.
  by rewrite with_children_id, set_owners_insert_id.
Qed.

Lemma replace__front o rdr w s od rest :
  owners s !! o = Some od → o_mutex_ od = false →
  o_children_ od = rdr :: rest →
  replace_ 1 o rdr w s =
    Returns () (set_owners (insert o (with_children (w :: rest) od)) s).
Proof.
  intros Ho Hm Hc. unfold replace_.
  rewrite (bind_step _ _ _ _ _ (omutex_lock_ok _ _ _ Ho Hm)).
  erewrite (bind_step (replace_loop _ _ _ _) _ _ ()); last first.
  { simpl. erewrite (bind_step (owner o)); last first.
    { apply owner_ok. rewrite owners_set_owners. apply lookup_insert_eq. }
    simpl. rewrite Hc, decide_True by done.
    apply upd_owner_ok. rewrite owners_set_owners. apply lookup_insert_eq. }
  pose proof (unlock_after_lock o od (w :: rest) s Ho Hm) as Hu.
  unfold set_owners in *. simpl in *. by rewrite insert_insert_eq.
Qed.

(** *** What each call does to the store when it returns *)

Lemma with_children_tail_nil od :
  o_children_ od = [] → with_children (tail (o_children_ od)) od = od.
Proof. destruct od; simpl; by intros ->. Qed.

Lemma remove__effect fuel o child s u s' :
  remove_ fuel o child s = Returns u s' →
  ∃ od, owners s !! o = Some od ∧ o_mutex_ od = false ∧
    owners s' = <[o := with_children (tail (o_children_ od)) od]> (owners s) ∧
    readers s' = readers s ∧ freed s' = freed s ∧
    (o_children_ od = [] ∨
     ∃ rd, head (o_children_ od) = Some child ∧
           readers s !! child = Some rd ∧ r_locked_ rd ≠ nullptr).
Proof.
  intros (od & Ho & Hm & Hcase)%remove__Returns. exists od.
  split; [done|]. split; [done|].
  destruct Hcase as [[Hc ->]|(rest & rd & Hc & Hr & Hl & ->)].
  - rewrite with_children_tail_nil, insert_id by done. auto.
  - rewrite Hc. simpl. repeat split; try done. right. eauto.
Qed.

Lemma replace__effect fuel o rdr w s u s' :
  replace_ fuel o rdr w s = Returns u s' →
  ∃ od, owners s !! o = Some od ∧ o_mutex_ od = false ∧
    readers s' = readers s ∧ freed s' = freed s ∧
    ((o_children_ od = [] ∧ owners s' = owners s) ∨
     (∃ rest, o_children_ od = rdr :: rest ∧
        owners s' = <[o := with_children (w :: rest) od]> (owners s))).
Proof.
  intros (od & Ho & Hm & Hcase)%replace__Returns. exists od.
  split; [done|]. split; [done|].
  destruct Hcase as [[Hc ->]|(rest & Hc & ->)]; [by auto|].
  repeat split; try done. right. eauto.
Qed.

Lemma with_rmutex_parent own rd :
  r_mutex_ rd = false →
  with_rmutex false (with_parent own (with_rmutex true rd)) = with_parent own rd.
Proof. destruct rd; simpl; by intros ->. Qed.

Lemma set_owner__effect fuel r own s u s' :
  set_owner_ fuel r own s = Returns u s' →
  ∃ rd, readers s !! r = Some rd ∧ r_mutex_ rd = false ∧
    readers s' = <[r := with_parent own rd]> (readers s) ∧ freed s' = freed s ∧
    match own, r_parent_ rd with
    | Some _, Some p =>
        ∃ pd, owners s !! p = Some pd ∧ o_mutex_ pd = false ∧
          owners s' = <[p := with_children (tail (o_children_ pd)) pd]> (owners s) ∧
          (o_children_ pd = [] ∨
           (head (o_children_ pd) = Some r ∧ r_locked_ rd ≠ nullptr))
    | _, _ => owners s' = owners s
    end.
Proof.
  unfold set_owner_. intros H.
  apply bind_Returns in H as (? & s1 & (rd & Hr & Hm & ->)%rmutex_lock_Returns & H).
  apply bind_Returns in H as (rd1 & ? & [Hr1 ->]%reader_Returns & H).
  rewrite readers_set_readers, lookup_insert_eq in Hr1. injection Hr1 as <-.
  apply bind_Returns in H as (? & s2 & Hdetach & H).
  apply bind_Returns in H as (? & s3 & (rd2 & Hr2 & ->)%upd_reader_Returns
                                & (rd3 & Hr3 & ->)%upd_reader_Returns).
  rewrite readers_set_readers, lookup_insert_eq in Hr3. injection Hr3 as <-.
  exists rd. split; [done|]. split; [done|].
  assert (Hfin : ∀ s2, readers s2 = <[r:=with_rmutex true rd]> (readers s) →
     readers s2 !! r = Some rd2 →
     readers (set_readers (insert r (with_rmutex false (with_parent own rd2)))
        (set_readers (insert r (with_parent own rd2)) s2))
     = <[r:=with_parent own rd]> (readers s)).
  { intros s2' E Hl. rewrite E, lookup_insert_eq in Hl. injection Hl as <-.
    norm_state. rewrite E, !insert_insert_eq.
    by rewrite with_rmutex_parent. }
  simpl in Hdetach.
  destruct own as [o|]; [destruct (r_parent_ rd) as [p|] eqn:Hp|].
  - simpl in Hdetach.
    apply remove__effect in Hdetach as (pd & Hpd & Hpm & Ho & Hrs & Hf & Hside).
    rewrite owners_set_readers in Hpd. rewrite owners_set_readers in Ho.
    rewrite readers_set_readers in Hrs.
    split; [by apply Hfin|]. split; [by simpl; rewrite Hf|].
    exists pd. repeat split; try done.
    destruct Hside as [?|(rd' & Hh & Hr' & Hl)]; [by left|right].
    rewrite readers_set_readers, lookup_insert_eq in Hr'. injection Hr' as <-.
    split; [done|]. by destruct rd.
  - simpl in Hdetach. apply ret_Returns in Hdetach as [_ <-].
    split; [by apply Hfin|]. done.
  - assert (s2 = set_readers (insert r (with_rmutex true rd)) s) as ->.
    { destruct (r_parent_ rd); simpl in Hdetach;
        by apply ret_Returns in Hdetach as [_ <-]. }
    split; [by apply Hfin|]. split; [done|]. by destruct (r_parent_ rd).
Qed.

Lemma get_effect fuel o r s u s' :
  get fuel o r s = Returns u s' →
  ∃ od rd, owners s !! o = Some od ∧ o_mutex_ od = false ∧
    readers s !! r = Some rd ∧ r_mutex_ rd = false ∧
    readers s' = <[r := attached_to o od rd]> (readers s) ∧ freed s' = freed s ∧
    match r_parent_ rd with
    | Some p =>
        p ≠ o ∧ ∃ pd, owners s !! p = Some pd ∧ o_mutex_ pd = false ∧
          owners s' = <[o := with_children (o_children_ od ++ [r]) od]>
                        (<[p := with_children (tail (o_children_ pd)) pd]> (owners s)) ∧
          (o_children_ pd = [] ∨
           (head (o_children_ pd) = Some r ∧ r_locked_ rd ≠ nullptr))
    | None =>
        owners s' = <[o := with_children (o_children_ od ++ [r]) od]> (owners s)
    end.
Proof.
  unfold get. intros H.
  apply bind_Returns in H as (? & s1 & (od & Ho & Hm & ->)%omutex_lock_Returns & H).
  apply bind_Returns in H as (od1 & ? & [Ho1 ->]%owner_Returns & H).
  rewrite owners_set_owners, lookup_insert_eq in Ho1. injection Ho1 as <-.
  apply bind_Returns in H as (? & s2 & (rd & Hr & ->)%upd_reader_Returns & H).
  rewrite readers_set_owners in Hr.
  apply bind_Returns in H as (? & s3 & Hso & H).
  apply bind_Returns in H as (od3 & ? & [Ho3 ->]%owner_Returns & H).
  apply bind_Returns in H as (? & s4 & (od4 & Ho4 & ->)%upd_owner_Returns
                                & (od5 & Ho5 & ->)%upd_owner_Returns).
  simplify_eq.
  rewrite owners_set_owners, lookup_insert_eq in Ho5. injection Ho5 as <-.
  apply set_owner__effect in Hso as (rd' & Hr' & Hrm & Hrs & Hf & Hcase).
  rewrite readers_set_readers, lookup_insert_eq in Hr'. injection Hr' as <-.
  exists od, rd. split; [done|]. split; [done|]. split; [done|].
  split; [by destruct rd|].
  split.
  { simpl. rewrite Hrs. simpl. rewrite insert_insert_eq. f_equal.
    destruct rd; simpl in *. by subst. }
  split; [by simpl; rewrite Hf|].
  simpl in Hcase. destruct (r_parent_ rd) as [p|] eqn:Hp.
  - destruct Hcase as (pd & Hpd & Hpm & Hos & Hside). simpl in Hpd.
    assert (p ≠ o) as Hne.
    { intros ->. rewrite lookup_insert_eq in Hpd. injection Hpd as <-.
      by destruct od. }
    rewrite lookup_insert_ne in Hpd by done.
    split; [done|]. exists pd. split; [done|]. split; [done|].
    split; [|by destruct rd].
    rewrite Hos in Ho3. simpl in Ho3.
    rewrite lookup_insert_ne, lookup_insert_eq in Ho3 by done.
    injection Ho3 as <-. simpl. rewrite !insert_insert_eq, Hos. simpl.
    rewrite (insert_insert_ne _ p o) by done. rewrite insert_insert_eq.
    f_equal. destruct od; simpl in *; by subst.
  - simpl in Hcase. rewrite Hcase in Ho3. simpl in Ho3.
    rewrite lookup_insert_eq in Ho3. injection Ho3 as <-.
    simpl. rewrite !insert_insert_eq, Hcase. simpl. rewrite insert_insert_eq.
    f_equal. destruct od; simpl in *; by subst.
Qed.

(** *** Counting the readers that point to an owner *)

Lemma pointing_to_insert o r rd (m : gmap rid reader_ptr) :
  pointing_to o (<[r:=rd]> m) =
  (if decide (r_parent_ rd = Some o) then 1 else 0) + pointing_to o (delete r m).
Proof.
  unfold pointing_to. rewrite map_filter_insert. simpl.
  destruct (decide (r_parent_ rd = Some o)) as [E|E]; [|done].
  rewrite <- insert_delete_eq, <- map_filter_delete.
  rewrite map_size_insert_None; [done|].
  rewrite map_filter_delete. apply lookup_delete_eq.
Qed.

Lemma pointing_to_lookup o r rd (m : gmap rid reader_ptr) :
  m !! r = Some rd →
  pointing_to o m =
  (if decide (r_parent_ rd = Some o) then 1 else 0) + pointing_to o (delete r m).
Proof. intros H. rewrite <- (insert_id m r rd H) at 1. apply pointing_to_insert. Qed.

Lemma pointing_to_fresh o r (m : gmap rid reader_ptr) :
  m !! r = None → pointing_to o (delete r m) = pointing_to o m.
Proof. intros H. by rewrite delete_id. Qed.

Lemma pointing_to_same_parent o r rd rd' (m : gmap rid reader_ptr) :
  m !! r = Some rd → r_parent_ rd' = r_parent_ rd →
  pointing_to o (<[r:=rd']> m) = pointing_to o m.
Proof.
  intros H E. rewrite pointing_to_insert, (pointing_to_lookup o r rd m H).
  by rewrite E.
Qed.

Lemma preserves_bind {A B} P (m : Op A) (f : A → Op B) :
  preserves P m → (∀ a, preserves P (f a)) → preserves P (m ≫= f).
Proof.
  intros Hm Hf s b s' HP (a & s1 & H1 & H2)%bind_Returns.
  eapply Hf; [|done]. by eapply Hm.
Qed.

Lemma preserves_ret {A} P (a : A) : preserves P (mret a : Op A).
Proof. by intros s b s' HP [_ <-]%ret_Returns. Qed.

Lemma preserves_hang {A} P : preserves P (hang : Op A).
Proof. by intros s b s' HP H. Qed.

Lemma preserves_crash {A} P : preserves P (crash : Op A).
Proof. by intros s b s' HP H. Qed.

Lemma preserves_reader P r : preserves P (reader r).
Proof. by intros s b s' HP [_ ->]%reader_Returns. Qed.

Lemma preserves_owner P o : preserves P (owner o).
Proof. by intros s b s' HP [_ ->]%owner_Returns. Qed.

Lemma count_inv_upd_reader r f :
  (∀ rd, r_parent_ (f rd) = r_parent_ rd) →
  preserves count_inv (upd_reader r f).
Proof.
  intros Hf s u s' [HN HL] (rd & Hr & ->)%upd_reader_Returns. split.
  - intros o od Ho. simpl in *. rewrite (HN o od Ho).
    symmetry. by eapply pointing_to_same_parent.
  - intros r' rd' o Hr' Hp. simpl in *.
    destruct (decide (r' = r)) as [->|Hne].
    + rewrite lookup_insert_eq in Hr'. injection Hr' as <-.
      rewrite Hf in Hp. eauto.
    + rewrite lookup_insert_ne in Hr' by done. eauto.
Qed.

Lemma count_inv_upd_owner o f :
  (∀ od, o_children_ (f od) = o_children_ od) →
  preserves count_inv (upd_owner o f).
Proof.
  intros Hf s u s' [HN HL] (od & Ho & ->)%upd_owner_Returns. split.
  - intros o' od' Ho'. simpl in *.
    destruct (decide (o' = o)) as [->|Hne].
    + rewrite lookup_insert_eq in Ho'. injection Ho' as <-.
      rewrite Hf. eauto.
    + rewrite lookup_insert_ne in Ho' by done. eauto.
  - intros r rd o' Hr Hp. simpl in *.
    destruct (decide (o' = o)) as [->|Hne].
    + rewrite lookup_insert_eq. eauto.
    + rewrite lookup_insert_ne by done. eauto.
Qed.

Lemma count_inv_omutex_lock o : preserves count_inv (omutex_lock o).
Proof.
  unfold omutex_lock. apply preserves_bind; [apply preserves_owner|].
  intros od. destruct (o_mutex_ od); [apply preserves_hang|].
  by apply count_inv_upd_owner.
Qed.

Lemma count_inv_rmutex_lock r : preserves count_inv (rmutex_lock r).
Proof.
  unfold rmutex_lock. apply preserves_bind; [apply preserves_reader|].
  intros rd. destruct (r_mutex_ rd); [apply preserves_hang|].
  by apply count_inv_upd_reader.
Qed.

Lemma count_inv_freed s f : count_inv s → count_inv (set_freed f s).
Proof. by intros [??]. Qed.

Lemma count_inv_new_owner o value : preserves count_inv (new_owner o value).
Proof.
  intros s u s' [HN HL] H. unfold new_owner in H.
  destruct (owners s !! o) eqn:Ho; [done|]. injection H as H; subst s'. split.
  - intros o' od' Ho'. simpl in *.
    destruct (decide (o' = o)) as [->|Hne].
    + rewrite lookup_insert_eq in Ho'. injection Ho' as <-. simpl.
      unfold pointing_to. symmetry. apply map_size_empty_iff.
      apply map_empty_filter. intros r rd Hr Hp. simpl in Hp.
      destruct (HL r rd o Hr Hp) as [? ?]. congruence.
    + rewrite lookup_insert_ne in Ho' by done. eauto.
  - intros r rd o' Hr Hp. simpl in *.
    destruct (decide (o' = o)) as [->|Hne].
    + rewrite lookup_insert_eq. eauto.
    + rewrite lookup_insert_ne by done. eauto.
Qed.

Lemma count_inv_new_reader r : preserves count_inv (new_reader r).
Proof.
  intros s u s' [HN HL] H. unfold new_reader in H.
  destruct (readers s !! r) eqn:Hr; [done|]. injection H as H; subst s'. split.
  - intros o od Ho. simpl in *. rewrite (HN o od Ho).
    rewrite pointing_to_insert, pointing_to_fresh by done. simpl.
    by rewrite ?decide_False.
  - intros r' rd' o Hr' Hp. simpl in *.
    destruct (decide (r' = r)) as [->|Hne].
    + rewrite lookup_insert_eq in Hr'. by injection Hr' as <-.
    + rewrite lookup_insert_ne in Hr' by done. eauto.
Qed.

Lemma length_tail {A} (l : list A) : length (tail l) = pred (length l).
Proof. by destruct l. Qed.

Lemma count_inv_get fuel o r : preserves count_inv (get fuel o r).
Proof.
  intros s u s' [HN HL] H.
  apply get_effect in H as (od & rd & Ho & Hm & Hr & Hrm & Hrs & Hf & Hcase).
  assert (Hbase : ∀ o', pointing_to o' (readers s') =
            (if decide (o = o') then 1 else 0) + pointing_to o' (delete r (readers s))).
  { intros o'. rewrite Hrs, pointing_to_insert. simpl.
    destruct (decide (o = o')) as [->|Hne].
    - by rewrite decide_True.
    - rewrite decide_False; [done|]. by intros [= ->]. }
  assert (Hold : ∀ o', pointing_to o' (readers s) =
            (if decide (r_parent_ rd = Some o') then 1 else 0)
            + pointing_to o' (delete r (readers s))).
  { intros o'. by apply pointing_to_lookup. }
  assert (Hlive : ∀ o', is_Some (owners s !! o') → is_Some (owners s' !! o')).
  { intros o' Hs. destruct (r_parent_ rd) as [p|].
    - destruct Hcase as (_ & pd & _ & _ & -> & _).
      rewrite !lookup_insert_is_Some. destruct (decide (o = o')); [by left|right].
      split; [done|]. destruct (decide (p = o')); [by left|by right]. 
    - rewrite Hcase. rewrite lookup_insert_is_Some.
      destruct (decide (o = o')); [by left|by right]. }
  split.
  - intros o' od' Ho'. rewrite Hbase.
    destruct (r_parent_ rd) as [p|] eqn:Hp.
    + destruct Hcase as (Hne & pd & Hpd & Hpm & Hos & Hside).
      rewrite Hos in Ho'.
      destruct (decide (o = o')) as [<-|Hne1].
      * rewrite lookup_insert_eq in Ho'. injection Ho' as <-. simpl.
        rewrite length_app. simpl. rewrite (HN o od Ho), Hold.
        rewrite decide_False; [lia|]. by intros [= ->].
      * rewrite lookup_insert_ne in Ho' by done.
        destruct (decide (p = o')) as [<-|Hne2].
        -- rewrite lookup_insert_eq in Ho'. injection Ho' as <-. simpl.
           rewrite length_tail, (HN p pd Hpd), Hold.
           rewrite decide_True by done. simpl. lia.
        -- rewrite lookup_insert_ne in Ho' by done.
           rewrite (HN o' od' Ho'), Hold.
           rewrite decide_False; [done|]. by intros [= ->].
    + rewrite Hcase in Ho'.
      destruct (decide (o = o')) as [<-|Hne1].
      * rewrite lookup_insert_eq in Ho'. injection Ho' as <-. simpl.
        rewrite length_app. simpl. rewrite (HN o od Ho), Hold.
        rewrite decide_False by done. lia.
      * rewrite lookup_insert_ne in Ho' by done.
        rewrite (HN o' od' Ho'), Hold. by rewrite decide_False.
  - intros r' rd' o' Hr' Hp'. rewrite Hrs in Hr'.
    destruct (decide (r' = r)) as [->|Hne].
    + rewrite lookup_insert_eq in Hr'. injection Hr' as <-. simpl in Hp'.
      injection Hp' as <-. apply Hlive. eauto.
    + rewrite lookup_insert_ne in Hr' by done. apply Hlive. eauto.
Qed.

Lemma delete_reader_effect fuel r s u s' :
  delete_reader fuel r s = Returns u s' →
  ∃ rd, readers s !! r = Some rd ∧ r_mutex_ rd = false ∧
    readers s' = delete r (readers s) ∧ freed s' = freed s ∧
    match r_parent_ rd with
    | Some p =>
        ∃ pd, owners s !! p = Some pd ∧ o_mutex_ pd = false ∧
          owners s' = <[p := with_children (tail (o_children_ pd)) pd]> (owners s) ∧
          (o_children_ pd = [] ∨
           (head (o_children_ pd) = Some r ∧ r_locked_ rd ≠ nullptr))
    | None => owners s' = owners s
    end.
Proof.
  unfold delete_reader. intros H.
  apply bind_Returns in H as (? & s1 & (rd & Hr & Hm & ->)%rmutex_lock_Returns & H).
  apply bind_Returns in H as (rd1 & ? & [Hr1 ->]%reader_Returns & H).
  rewrite readers_set_readers, lookup_insert_eq in Hr1. injection Hr1 as <-.
  apply bind_Returns in H as (? & s2 & Hdetach & H).
  apply bind_Returns in H as (? & s3 & (rd2 & Hr2 & ->)%upd_reader_Returns & H).
  apply bind_Returns in H as (? & ? & [-> ->]%get_state_Returns & ->%put_state_Returns).
  exists rd. split; [done|]. split; [done|]. simpl in *.
  destruct (r_parent_ rd) as [p|] eqn:Hp.
  - apply remove__effect in Hdetach as (pd & Hpd & Hpm & Ho & Hrs & Hf & Hside).
    simpl in *. rewrite Hrs. rewrite delete_insert_eq, delete_insert_eq.
    split; [done|]. split; [done|].
    exists pd. repeat split; try done.
    destruct Hside as [?|(rd' & Hh & Hr' & Hl)]; [by left|right].
    rewrite lookup_insert_eq in Hr'. injection Hr' as <-.
    split; [done|]. by destruct rd.
  - apply ret_Returns in Hdetach as [_ <-]. simpl.
    by rewrite delete_insert_eq, delete_insert_eq.
Qed.

Lemma count_inv_delete_reader fuel r : preserves count_inv (delete_reader fuel r).
Proof.
  intros s u s' [HN HL] H.
  apply delete_reader_effect in H as (rd & Hr & Hrm & Hrs & Hf & Hcase).
  assert (Hold : ∀ o', pointing_to o' (readers s) =
            (if decide (r_parent_ rd = Some o') then 1 else 0)
            + pointing_to o' (readers s')).
  { intros o'. rewrite Hrs. by apply pointing_to_lookup. }
  assert (Hlive : ∀ o', is_Some (owners s !! o') → is_Some (owners s' !! o')).
  { intros o' Hs. destruct (r_parent_ rd) as [p|].
    - destruct Hcase as (pd & _ & _ & -> & _).
      rewrite lookup_insert_is_Some.
      destruct (decide (p = o')); [by left|by right].
    - by rewrite Hcase. }
  split.
  - intros o' od' Ho'. destruct (r_parent_ rd) as [p|] eqn:Hp.
    + destruct Hcase as (pd & Hpd & Hpm & Hos & Hside). rewrite Hos in Ho'.
      destruct (decide (p = o')) as [<-|Hne].
      * rewrite lookup_insert_eq in Ho'. injection Ho' as <-. simpl.
        pose proof (Hold p) as Hp1. rewrite decide_True in Hp1 by done.
        rewrite length_tail, (HN p pd Hpd), Hp1. done.
      * rewrite lookup_insert_ne in Ho' by done.
        pose proof (Hold o') as Hp1. rewrite decide_False in Hp1; [|by intros [= ->]].
        by rewrite (HN o' od' Ho'), Hp1.
    + rewrite Hcase in Ho'. pose proof (Hold o') as Hp1.
      rewrite decide_False in Hp1 by done. by rewrite (HN o' od' Ho'), Hp1.
  - intros r' rd' o' Hr' Hp'. rewrite Hrs in Hr'.
    apply lookup_delete_Some in Hr' as [Hne Hr']. apply Hlive. eauto.
Qed.

Lemma count_inv_replace_ fuel o rdr w : preserves count_inv (replace_ fuel o rdr w).
Proof.
  intros s u s' [HN HL] H.
  apply replace__effect in H as (od & Ho & Hm & Hrs & Hf & Hcase).
  destruct Hcase as [[Hc Hos]|(rest & Hc & Hos)].
  - split.
    + intros o' od'. rewrite Hos, Hrs. apply HN.
    + intros r rd o'. rewrite Hos, Hrs. apply HL.
  - split.
    + intros o' od' Ho'. rewrite Hos in Ho'. rewrite Hrs.
      destruct (decide (o = o')) as [<-|Hne].
      * rewrite lookup_insert_eq in Ho'. injection Ho' as <-. simpl.
        rewrite <- (HN o od Ho), Hc. done.
      * rewrite lookup_insert_ne in Ho' by done. eauto.
    + intros r rd o' Hr Hp. rewrite Hrs in Hr. rewrite Hos.
      rewrite lookup_insert_is_Some. destruct (decide (o = o')); [by left|right].
      split; [done|]. eauto.
Qed.

(** *** A small program logic for the calls *)

Lemma hoare_bind {A B} P (m : Op A) (f : A → Op B) R Q :
  hoare P m R → (∀ a, hoare (R a) (f a) Q) → hoare P (m ≫= f) Q.
Proof.
  intros Hm Hf s b s' HP (a & s1 & H1 & H2)%bind_Returns.
  eapply Hf; [|done]. by eapply Hm.
Qed.

Lemma hoare_ret {A} (P : state → Prop) (a : A) (Q : A → state → Prop) :
  (∀ s, P s → Q a s) → hoare P (mret a) Q.
Proof. intros H s b s' HP [<- <-]%ret_Returns. auto. Qed.

Lemma hoare_hang {A} P (Q : A → state → Prop) : hoare P hang Q.
Proof. by intros s b s' HP H. Qed.

Lemma hoare_crash {A} P (Q : A → state → Prop) : hoare P crash Q.
Proof. by intros s b s' HP H. Qed.

Lemma hoare_conseq {A} (P P' : state → Prop) (m : Op A) (Q Q' : A → state → Prop) :
  (∀ s, P' s → P s) → (∀ a s, Q a s → Q' a s) → hoare P m Q → hoare P' m Q'.
Proof. intros HP HQ H s a s' ? ?. eapply HQ, H; eauto. Qed.

Lemma hoare_reader P r :
  hoare P (reader r) (λ rd s, P s ∧ readers s !! r = Some rd).
Proof. by intros s rd s' HP [? ->]%reader_Returns. Qed.

Lemma hoare_owner P o :
  hoare P (owner o) (λ od s, P s ∧ owners s !! o = Some od).
Proof. by intros s od s' HP [? ->]%owner_Returns. Qed.

Lemma hoare_upd_reader (P : state → Prop) r f (Q : unit → state → Prop) :
  (∀ s rd, P s → readers s !! r = Some rd →
     Q () (set_readers (insert r (f rd)) s)) →
  hoare P (upd_reader r f) Q.
Proof. intros H s [] s' HP (rd & Hr & ->)%upd_reader_Returns. eauto. Qed.

Lemma hoare_upd_owner (P : state → Prop) o f (Q : unit → state → Prop) :
  (∀ s od, P s → owners s !! o = Some od →
     Q () (set_owners (insert o (f od)) s)) →
  hoare P (upd_owner o f) Q.
Proof. intros H s [] s' HP (od & Ho & ->)%upd_owner_Returns. eauto. Qed.

Lemma hoare_omutex_lock (P : state → Prop) o (Q : unit → state → Prop) :
  (∀ s od, P s → owners s !! o = Some od → o_mutex_ od = false →
     Q () (set_owners (insert o (with_omutex true od)) s)) →
  hoare P (omutex_lock o) Q.
Proof. intros H s [] s' HP (od & Ho & Hm & ->)%omutex_lock_Returns. eauto. Qed.

Lemma hoare_rmutex_lock (P : state → Prop) r (Q : unit → state → Prop) :
  (∀ s rd, P s → readers s !! r = Some rd → r_mutex_ rd = false →
     Q () (set_readers (insert r (with_rmutex true rd)) s)) →
  hoare P (rmutex_lock r) Q.
Proof. intros H s [] s' HP (rd & Hr & Hm & ->)%rmutex_lock_Returns. eauto. Qed.

Lemma hoare_delete_value (P : state → Prop) p (Q : unit → state → Prop) :
  (∀ s, P s → Q () (set_freed (delete_ptr p) s)) → hoare P (delete_value p) Q.
Proof. intros H s [] s' HP E. injection E as E. subst s'. auto. Qed.

Lemma hoare_get_state P :
  hoare P get_state (λ s0 s, P s ∧ s0 = s).
Proof. by intros s s0 s' HP [-> ->]%get_state_Returns. Qed.

Lemma hoare_put_state (P : state → Prop) s0 (Q : unit → state → Prop) :
  Q () s0 → hoare P (put_state s0) Q.
Proof. by intros H s [] s' HP ->%put_state_Returns. Qed.

Lemma hoare_child_at P o i :
  hoare P (child_at o i)
    (λ c s, P s ∧ ∃ od, owners s !! o = Some od ∧ o_children_ od !! i = Some c).
Proof.
  unfold child_at. intros s c s' HP H.
  apply bind_Returns in H as (od & ? & [Ho ->]%owner_Returns & H).
  destruct (o_children_ od !! i) as [c'|] eqn:E; [|done].
  apply ret_Returns in H as [-> ->]. eauto.
Qed.

Lemma hoare_update_at P o j :
  hoare P (update_at o j)
    (λ c s, P s ∧ ∃ od, owners s !! o = Some od ∧ o_update_ od !! j = Some c).
Proof.
  unfold update_at. intros s c s' HP H.
  apply bind_Returns in H as (od & ? & [Ho ->]%owner_Returns & H).
  destruct (o_update_ od !! j) as [c'|] eqn:E; [|done].
  apply ret_Returns in H as [-> ->]. eauto.
Qed.

(** Running a machine alone keeps what every step keeps. *)
Lemma run_inv {PC} (step : PC → Op PC) (done : PC → bool) (J : PC → state → Prop) :
  (∀ pc, done pc = false → hoare (J pc) (step pc) J) →
  ∀ fuel pc, hoare (J pc) (run step done fuel pc)
               (λ _ s', ∃ pc', done pc' = true ∧ J pc' s').
Proof.
  intros Hstep fuel. induction fuel as [|fuel IH]; intros pc s u s' HJ H; [done|].
  simpl in H. destruct (done pc) eqn:Hd.
  - apply ret_Returns in H as [_ <-]. eauto.
  - apply bind_Returns in H as (pc1 & s1 & H1 & H2).
    eapply IH; [|done]. by eapply Hstep.
Qed.

Lemma run_preserves {PC} (step : PC → Op PC) (done : PC → bool) P fuel pc :
  (∀ pc, preserves P (step pc)) → preserves P (run step done fuel pc).
Proof.
  intros Hstep s u s' HP H.
  destruct (run_inv step done (λ _, P) (λ pc _, Hstep pc) fuel pc s u s' HP H)
    as (? & _ & ?). done.
Qed.

Lemma preserves_child_at P o i : preserves P (child_at o i).
Proof.
  unfold child_at. apply preserves_bind; [apply preserves_owner|].
  intros od. destruct (_ !! _); [apply preserves_ret|apply preserves_crash].
Qed.

Lemma preserves_update_at P o j : preserves P (update_at o j).
Proof.
  unfold update_at. apply preserves_bind; [apply preserves_owner|].
  intros od. destruct (_ !! _); [apply preserves_ret|apply preserves_crash].
Qed.

Lemma count_inv_lock r : preserves count_inv (lock r).
Proof.
  unfold lock. apply preserves_bind; [apply preserves_reader|]. intros rd.
  apply preserves_bind; [by apply count_inv_upd_reader|].
  intros _. apply preserves_ret.
Qed.

Lemma count_inv_unlock r : preserves count_inv (unlock r).
Proof. by apply count_inv_upd_reader. Qed.

Lemma count_inv_count o : preserves count_inv (count o).
Proof.
  unfold count. apply preserves_bind; [apply count_inv_omutex_lock|]. intros _.
  apply preserves_bind; [apply preserves_owner|]. intros od.
  apply preserves_bind; [by apply count_inv_upd_owner|].
  intros _. apply preserves_ret.
Qed.

Lemma count_inv_delete_value (p : ptr) : preserves count_inv (delete_value p).
Proof.
  intros s u s' HP H. unfold delete_value in H. injection H as H. subst s'.
  exact (count_inv_freed s (delete_ptr p) HP).
Qed.

Lemma count_inv_reset_step o value pc : preserves count_inv (reset_step o value pc).
Proof.
  destruct pc; simpl;
    repeat first
      [ apply preserves_ret
      | apply preserves_crash
      | apply count_inv_omutex_lock
      | apply preserves_owner
      | apply preserves_reader
      | apply preserves_child_at
      | apply preserves_update_at
      | apply count_inv_delete_value
      | by apply count_inv_upd_reader
      | by apply count_inv_upd_owner
      | apply preserves_bind; [|intros ?]
      | case_decide
      | case_match ].
Qed.

Lemma count_inv_reset fuel o value : preserves count_inv (reset fuel o value).
Proof. apply run_preserves, count_inv_reset_step. Qed.

Lemma count_inv_new_reader_on fuel r o : preserves count_inv (new_reader_on fuel r o).
Proof.
  unfold new_reader_on. apply preserves_bind; [apply count_inv_new_reader|].
  intros _. apply count_inv_get.
Qed.

Lemma count_inv_copy_reader fuel r other : preserves count_inv (copy_reader fuel r other).
Proof.
  unfold copy_reader. apply preserves_bind; [apply count_inv_new_reader|]. intros _.
  apply preserves_bind; [apply count_inv_rmutex_lock|]. intros _.
  apply preserves_bind; [apply preserves_reader|]. intros rd.
  apply preserves_bind; [|intros _; by apply count_inv_upd_reader].
  destruct (r_parent_ rd); [apply count_inv_get|apply preserves_ret].
Qed.

Lemma count_inv_move_reader fuel r other : preserves count_inv (move_reader fuel r other).
Proof.
  unfold move_reader. apply preserves_bind; [apply count_inv_new_reader|]. intros _.
  apply preserves_bind; [apply count_inv_rmutex_lock|]. intros _.
  apply preserves_bind; [apply preserves_reader|]. intros rd.
  apply preserves_bind; [|intros _; by apply count_inv_upd_reader].
  destruct (r_parent_ rd); [apply count_inv_replace_|apply preserves_ret].
Qed.

Lemma count_inv_exec fuel c :
  keeps_owner c = true → preserves count_inv (exec fuel c).
Proof.
  destruct c; simpl; intros Hk; try done.
  - apply count_inv_new_owner.
  - apply count_inv_new_reader.
  - apply count_inv_new_reader_on.
  - apply count_inv_get.
  - apply count_inv_copy_reader.
  - apply count_inv_move_reader.
  - apply count_inv_delete_reader.
  - apply preserves_bind; [apply count_inv_lock|intros ?; apply preserves_ret].
  - apply count_inv_unlock.
  - apply count_inv_reset.
  - apply preserves_bind; [apply count_inv_count|intros ?; apply preserves_ret].
Qed.

Lemma count_inv_exec_all fuel cs :
  forallb keeps_owner cs = true → preserves count_inv (exec_all fuel cs).
Proof.
  induction cs as [|c cs IH]; simpl; intros Hk; [apply preserves_ret|].
  apply andb_prop in Hk as [Hc Hcs].
  apply preserves_bind; [by apply count_inv_exec|]. intros _. by apply IH.
Qed.

Lemma count_inv_empty : count_inv empty_state.
Proof. split; [intros o od H|intros r rd o H]; simpl in H; by rewrite lookup_empty in H. Qed.

(** *** Owner mutexes are released when a call returns *)

Lemma omutex_only_free o s : omutex_only o false s ↔ omutex_free s.
Proof.
  split; intros H o' od Ho'.
  - specialize (H o' od Ho'). by destruct (decide _).
  - rewrite (H o' od Ho'). by destruct (decide _).
Qed.

Lemma owners_unchanged_bind {A B} (m : Op A) (f : A → Op B) :
  owners_unchanged m → (∀ a, owners_unchanged (f a)) → owners_unchanged (m ≫= f).
Proof.
  intros Hm Hf s b s' (a & s1 & H1 & H2)%bind_Returns.
  by rewrite (Hf _ _ _ _ H2), (Hm _ _ _ H1).
Qed.
Lemma owners_unchanged_ret {A} (a : A) : owners_unchanged (mret a : Op A).
Proof. by intros s b s' [_ <-]%ret_Returns. Qed.
Lemma owners_unchanged_hang {A} : owners_unchanged (hang : Op A).
Proof. by intros s b s' H. Qed.
Lemma owners_unchanged_crash {A} : owners_unchanged (crash : Op A).
Proof. by intros s b s' H. Qed.
Lemma owners_unchanged_reader r : owners_unchanged (reader r).
Proof. by intros s b s' [_ ->]%reader_Returns. Qed.
Lemma owners_unchanged_owner o : owners_unchanged (owner o).
Proof. by intros s b s' [_ ->]%owner_Returns. Qed.
Lemma owners_unchanged_upd_reader r f : owners_unchanged (upd_reader r f).
Proof. by intros s b s' (rd & _ & ->)%upd_reader_Returns. Qed.
Lemma owners_unchanged_rmutex_lock r : owners_unchanged (rmutex_lock r).
Proof. by intros s b s' (rd & _ & _ & ->)%rmutex_lock_Returns. Qed.
Lemma owners_unchanged_child_at o i : owners_unchanged (child_at o i).
Proof.
  unfold child_at. apply owners_unchanged_bind; [apply owners_unchanged_owner|].
  intros od. destruct (_ !! _); [apply owners_unchanged_ret|apply owners_unchanged_crash].
Qed.
Lemma owners_unchanged_update_at o i : owners_unchanged (update_at o i).
Proof.
  unfold update_at. apply owners_unchanged_bind; [apply owners_unchanged_owner|].
  intros od. destruct (_ !! _); [apply owners_unchanged_ret|apply owners_unchanged_crash].
Qed.
Lemma owners_unchanged_delete_value p : owners_unchanged (delete_value p).
Proof. intros s b s' H. unfold delete_value in H. injection H as H. by subst s'. Qed.
Lemma owners_unchanged_lock r : owners_unchanged (lock r).
Proof.
  unfold lock. apply owners_unchanged_bind; [apply owners_unchanged_reader|].
  intros rd. apply owners_unchanged_bind; [apply owners_unchanged_upd_reader|].
  intros _. apply owners_unchanged_ret.
Qed.

Lemma omutex_only_unchanged {A} (m : Op A) o b :
  owners_unchanged m → preserves (omutex_only o b) m.
Proof. intros Hm s a s' HP H o' od. rewrite (Hm _ _ _ H). apply HP. Qed.

Lemma omutex_free_unchanged {A} (m : Op A) :
  owners_unchanged m → preserves omutex_free m.
Proof. intros Hm s a s' HP H o' od. rewrite (Hm _ _ _ H). apply HP. Qed.

Lemma omutex_only_upd_owner o b b' f :
  (∀ od, o_mutex_ od = b → o_mutex_ (f od) = b') →
  hoare (omutex_only o b) (upd_owner o f) (λ _, omutex_only o b').
Proof.
  intros Hf. apply hoare_upd_owner. intros s od HP Ho o' od' Ho'. simpl in Ho'.
  destruct (decide (o' = o)) as [->|Hne].
  - rewrite lookup_insert_eq in Ho'. injection Ho' as <-. apply Hf.
    specialize (HP o od Ho). by rewrite decide_True in HP.
  - rewrite lookup_insert_ne in Ho' by done.
    specialize (HP o' od' Ho'). by rewrite decide_False in HP.
Qed.

Lemma omutex_only_lock o :
  hoare (omutex_only o false) (omutex_lock o) (λ _, omutex_only o true).
Proof.
  unfold omutex_lock. eapply hoare_bind; [apply hoare_owner|]. intros od.
  destruct (o_mutex_ od); [apply hoare_hang|].
  eapply hoare_conseq; [| |by apply (omutex_only_upd_owner o false true)];
    [by intros ? [??]|done].
Qed.

Lemma omutex_only_unlock o b :
  hoare (omutex_only o b) (omutex_unlock o) (λ _, omutex_only o false).
Proof. by apply omutex_only_upd_owner. Qed.

Ltac owners_unchanged_tac :=
  repeat first
    [ apply owners_unchanged_ret
    | apply owners_unchanged_hang
    | apply owners_unchanged_crash
    | apply owners_unchanged_reader
    | apply owners_unchanged_owner
    | apply owners_unchanged_upd_reader
    | apply owners_unchanged_rmutex_lock
    | apply owners_unchanged_child_at
    | apply owners_unchanged_update_at
    | apply owners_unchanged_delete_value
    | apply owners_unchanged_lock
    | apply owners_unchanged_bind; [|intros ?]
    | case_decide
    | case_match ].

(** A statement that keeps the owner mutexes as they are. *)
Ltac mutex_keep :=
  first
    [ apply omutex_only_unchanged; solve [owners_unchanged_tac]
    | by apply omutex_only_upd_owner ].

Ltac mutex_walk :=
  repeat first
    [ apply hoare_ret; intros; assumption
    | apply hoare_crash
    | apply hoare_hang
    | eapply hoare_bind; [mutex_keep|intros ?]
    | case_decide
    | case_match ].

Lemma reset_step_mutex o value pc :
  hoare (omutex_only o (reset_holds pc)) (reset_step o value pc)
        (λ pc' s, omutex_only o (reset_holds pc') s).
Proof.
  destruct pc; simpl.
  1: eapply hoare_bind; [apply omutex_only_lock|intros ?; by apply hoare_ret].
  10: eapply hoare_bind; [apply omutex_only_unlock|intros ?; by apply hoare_ret].
  all: mutex_walk.
Qed.

Lemma reset_omutex_free fuel o value : preserves omutex_free (reset fuel o value).
Proof.
  intros s u s' HP H. unfold reset in H.
  destruct (run_inv _ reset_done (λ pc s, omutex_only o (reset_holds pc) s)
              (λ pc _, reset_step_mutex o value pc) fuel R_lock s u s')
    as (pc' & Hd & HJ); [by apply omutex_only_free|done|].
  destruct pc'; try done. by apply (omutex_only_free o).
Qed.

Lemma owners_unchanged_set_owner_null r : owners_unchanged (set_owner_ 0 r None).
Proof.
  unfold set_owner_. owners_unchanged_tac.
Qed.

Lemma dtor_step_mutex o pc :
  hoare (omutex_only o (dtor_holds pc)) (dtor_step o pc)
        (λ pc' s, omutex_only o (dtor_holds pc') s).
Proof.
  destruct pc; simpl.
  1: eapply hoare_bind; [apply omutex_only_lock|intros ?; by apply hoare_ret].
  6: eapply hoare_bind; [apply omutex_only_unlock|intros ?; by apply hoare_ret].
  all: try (eapply hoare_bind; [mutex_keep|intros ?];
            eapply hoare_bind;
              [apply omutex_only_unchanged, owners_unchanged_set_owner_null|intros ?]).
  all: mutex_walk.
Qed.

Lemma omutex_free_delete o s : omutex_free s → omutex_free (set_owners (delete o) s).
Proof.
  intros HP o' od Ho'. simpl in Ho'. apply lookup_delete_Some in Ho' as [_ Ho'].
  exact (HP o' od Ho').
Qed.

Lemma delete_owner_omutex_free fuel o : preserves omutex_free (delete_owner fuel o).
Proof.
  intros s u s' HP H. unfold delete_owner in H.
  apply bind_Returns in H as (u1 & s1 & Hrun & H).
  apply bind_Returns in H as (? & ? & [-> ->]%get_state_Returns & ->%put_state_Returns).
  apply omutex_free_delete.
  destruct (run_inv _ dtor_done (λ pc s, omutex_only o (dtor_holds pc) s)
              (λ pc _, dtor_step_mutex o pc) fuel D_lock s u1 s1)
    as (pc' & Hd & HJ); [by apply omutex_only_free|done|].
  destruct pc'; try done. by apply (omutex_only_free o).
Qed.

Lemma omutex_free_insert o od s :
  o_mutex_ od = false → omutex_free s → omutex_free (set_owners (insert o od) s).
Proof.
  intros Hm HP o' od' Ho'. simpl in Ho'.
  destruct (decide (o' = o)) as [->|Hne].
  - rewrite lookup_insert_eq in Ho'. by injection Ho' as <-.
  - rewrite lookup_insert_ne in Ho' by done. exact (HP o' od' Ho').
Qed.

Lemma omutex_free_owners s s' :
  owners s' = owners s → omutex_free s → omutex_free s'.
Proof. intros E HP o od. rewrite E. apply HP. Qed.

Lemma omutex_free_owners_insert o od s s' :
  owners s' = <[o := od]> (owners s) → o_mutex_ od = false →
  omutex_free s → omutex_free s'.
Proof.
  intros E Hm HP o' od' Ho'. rewrite E in Ho'.
  exact (omutex_free_insert o od s Hm HP o' od' Ho').
Qed.

Lemma omutex_free_remove_ fuel o child : preserves omutex_free (remove_ fuel o child).
Proof.
  intros s u s' HP (od & Ho & Hm & Hos & _)%remove__effect.
  eapply omutex_free_owners_insert; [done| |done]. by destruct od.
Qed.

Lemma omutex_free_replace_ fuel o rdr w : preserves omutex_free (replace_ fuel o rdr w).
Proof.
  intros s u s' HP (od & Ho & Hm & _ & _ & Hcase)%replace__effect.
  destruct Hcase as [[_ Hos]|(rest & _ & Hos)].
  - by eapply omutex_free_owners.
  - eapply omutex_free_owners_insert; [done| |done]. by destruct od.
Qed.

Lemma omutex_free_get fuel o r : preserves omutex_free (get fuel o r).
Proof.
  intros s u s' HP (od & rd & Ho & Hm & _ & _ & _ & _ & Hcase)%get_effect.
  destruct (r_parent_ rd) as [p|].
  - destruct Hcase as (Hne & pd & Hpd & Hpm & Hos & _).
    intros o' od' Ho'. rewrite Hos in Ho'.
    destruct (decide (o' = o)) as [->|Hne1].
    { rewrite lookup_insert_eq in Ho'. injection Ho' as <-. by destruct od. }
    rewrite lookup_insert_ne in Ho' by done.
    destruct (decide (o' = p)) as [->|Hne2].
    { rewrite lookup_insert_eq in Ho'. injection Ho' as <-. by destruct pd. }
    rewrite lookup_insert_ne in Ho' by done. exact (HP o' od' Ho').
  - eapply omutex_free_owners_insert; [done| |done]. by destruct od.
Qed.

Lemma count_effect o s n s' :
  count o s = Returns n s' →
  ∃ od, owners s !! o = Some od ∧ o_mutex_ od = false ∧
        n = length (o_children_ od) ∧ s' = s.
Proof.
  unfold count. intros H.
  apply bind_Returns in H as (? & s1 & (od & Ho & Hm & ->)%omutex_lock_Returns & H).
  apply bind_Returns in H as (od1 & ? & [Ho1 ->]%owner_Returns & H).
  rewrite owners_set_owners, lookup_insert_eq in Ho1. injection Ho1 as <-.
  apply bind_Returns in H as (? & s2 & (od2 & Ho2 & ->)%upd_owner_Returns & H).
  apply ret_Returns in H as [<- <-].
  rewrite owners_set_owners, lookup_insert_eq in Ho2. injection Ho2 as <-.
  exists od. repeat split; try done.
  rewrite set_owners_twice. unfold set_owners. simpl.
  by rewrite insert_insert_eq, with_omutex_restore, insert_id, state_eta.
Qed.

Lemma count_ok o s od :
  owners s !! o = Some od → o_mutex_ od = false →
  count o s = Returns (length (o_children_ od)) s.
Proof.
  intros Ho Hm. unfold count.
  rewrite (bind_step _ _ _ _ _ (omutex_lock_ok _ _ _ Ho Hm)).
  erewrite (bind_step (owner o)); last first.
  { apply owner_ok. rewrite owners_set_owners. apply lookup_insert_eq. }
  erewrite (bind_step (omutex_unlock o) _ _ ()); last first.
  { apply upd_owner_ok. rewrite owners_set_owners. apply lookup_insert_eq. }
  unfold mret, M_ret. f_equal.
  rewrite set_owners_twice. unfold set_owners. simpl.
  by rewrite insert_insert_eq, with_omutex_restore, insert_id, state_eta.
Qed.

Lemma omutex_free_exec fuel c : preserves omutex_free (exec fuel c).
Proof.
  assert (Hcopy : ∀ r, preserves omutex_free (new_reader r)).
  { intros r s u s' HP H. unfold new_reader in H.
    destruct (readers s !! r); [done|]. injection H as H. by subst s'. }
  destruct c; simpl.
  - intros s u s' HP H. unfold new_owner in H.
    destruct (owners s !! o); [done|]. injection H as H. subst s'.
    by apply omutex_free_insert.
  - apply Hcopy.
  - apply preserves_bind; [apply Hcopy|intros _; apply omutex_free_get].
  - apply omutex_free_get.
  - unfold copy_reader. apply preserves_bind; [apply Hcopy|intros _].
    apply preserves_bind;
      [apply omutex_free_unchanged, owners_unchanged_rmutex_lock|intros _].
    apply preserves_bind; [apply preserves_reader|intros rd].
    apply preserves_bind;
      [|intros _; apply omutex_free_unchanged, owners_unchanged_upd_reader].
    destruct (r_parent_ rd); [apply omutex_free_get|apply preserves_ret].
  - unfold move_reader. apply preserves_bind; [apply Hcopy|intros _].
    apply preserves_bind;
      [apply omutex_free_unchanged, owners_unchanged_rmutex_lock|intros _].
    apply preserves_bind; [apply preserves_reader|intros rd].
    apply preserves_bind;
      [|intros _; apply omutex_free_unchanged, owners_unchanged_upd_reader].
    destruct (r_parent_ rd); [apply omutex_free_replace_|apply preserves_ret].
  - unfold delete_reader.
    apply preserves_bind;
      [apply omutex_free_unchanged, owners_unchanged_rmutex_lock|intros _].
    apply preserves_bind; [apply preserves_reader|intros rd].
    apply preserves_bind;
      [destruct (r_parent_ rd); [apply omutex_free_remove_|apply preserves_ret]|intros _].
    apply preserves_bind;
      [apply omutex_free_unchanged, owners_unchanged_upd_reader|intros _].
    intros s u s' HP H.
    apply bind_Returns in H as (? & ? & [-> ->]%get_state_Returns & ->%put_state_Returns).
    done.
  - apply omutex_free_unchanged. apply owners_unchanged_bind;
      [apply owners_unchanged_lock|intros ?; apply owners_unchanged_ret].
  - apply omutex_free_unchanged, owners_unchanged_upd_reader.
  - apply reset_omutex_free.
  - intros s u s' HP H.
    apply bind_Returns in H as (n & s1 & (od & _ & _ & _ & ->)%count_effect & H).
    by apply ret_Returns in H as [_ <-].
  - apply delete_owner_omutex_free.
Qed.

Lemma omutex_free_exec_all fuel cs : preserves omutex_free (exec_all fuel cs).
Proof.
  induction cs as [|c cs IH]; simpl; [apply preserves_ret|].
  apply preserves_bind; [apply omutex_free_exec|]. intros _. by apply IH.
Qed.

Lemma omutex_free_empty : omutex_free empty_state.
Proof. intros o od H. simpl in H. by rewrite lookup_empty in H. Qed.

(** *** Removal of a reader that is mid-access *)

(** C3 (the code does the opposite): [remove_] waits while the reader's
    [locked_] is null.  So whenever it erases an entry, the reader whose
    entry it erases is mid-access, and still is when the call returns;
    and for a reader that is not mid-access the call, left alone, never
    returns. *)
Theorem C3_remove_erases_entry_of_reader_mid_access
    (fuel : nat) (o : oid) (child : rid) (s s' : state) (od : owned_ptr) :
  owners s !! o = Some od →
  o_children_ od ≠ [] →
  remove_ fuel o child s = Returns () s' →
  (∃ rd, readers s' !! child = Some rd ∧ r_locked_ rd ≠ nullptr) ∧
  (∃ od', owners s' !! o = Some od' ∧ o_children_ od' = tail (o_children_ od)) ∧
  (∀ s0 od0 rd0 rest, owners s0 !! o = Some od0 → o_mutex_ od0 = false →
     o_children_ od0 = child :: rest →
     readers s0 !! child = Some rd0 → r_locked_ rd0 = nullptr →
     never_returns (λ fuel, remove_ fuel o child) s0).
Proof.
  intros Ho Hne H.
  apply remove__effect in H as (od1 & Ho1 & Hm & Hos & Hrs & _ & Hside).
  simplify_eq. destruct Hside as [?|(rd & Hh & Hr & Hl)]; [done|].
  split; [|split].
  - exists rd. by rewrite Hrs.
  - eexists. rewrite Hos, lookup_insert_eq. done.
  - intros s0 od0 rd0 rest ? ? ? ? ? fuel'. by eapply remove__unlocked.
Qed.

Lemma C3_witness :
  (owners locked_reader_state !! 1 = Some (mk_owner false (Some 7) [10] []) ∧
   o_children_ (mk_owner false (Some 7) [10] []) ≠ [] ∧
   remove_ 2 1 10 locked_reader_state =
     Returns () (set_owners (insert 1 (mk_owner false (Some 7) [] [])) locked_reader_state)) ∧
  (∃ rd, readers (set_owners (insert 1 (mk_owner false (Some 7) [] [])) locked_reader_state)
           !! 10 = Some rd ∧ r_locked_ rd ≠ nullptr).
Proof.
  split.
  - split; [vm_compute; reflexivity|]. split; [done|vm_compute; reflexivity].
  - eapply (C3_remove_erases_entry_of_reader_mid_access 2 1 10 locked_reader_state).
    + vm_compute. reflexivity.
    + done.
    + vm_compute. reflexivity.
Defined.

(** *** Interleaved executions *)

Lemma conc_inv {PC} (step : PC → Op PC) (J : PC → state → Prop) :
  (∀ pc, hoare (J pc) (step pc) J) →
  (∀ pc ls s ls' s', J pc s → env_step (ls, s) (ls', s') → J pc s') →
  ∀ c c', rtc (conc_step step) c c' → J c.1 c.2.2 → J c'.1 c'.2.2.
Proof.
  intros Hstep Henv c c' Hrtc. induction Hrtc as [c|c1 c2 c3 H12 _ IH]; [done|].
  intros HJ. apply IH. destruct H12 as [pc ls s pc' s' H|pc [ls s] [ls' s'] H]; simpl in *.
  - by eapply Hstep.
  - by eapply Henv.
Qed.

(** A run of a machine alone is one of its interleaved executions. *)
Lemma run_conc {PC} (step : PC → Op PC) (done : PC → bool) fuel pc ls s u s' :
  run step done fuel pc s = Returns u s' →
  ∃ pc', done pc' = true ∧ rtc (conc_step step) (pc, (ls, s)) (pc', (ls, s')).
Proof.
  revert pc s. induction fuel as [|fuel IH]; intros pc s H; [done|].
  simpl in H. destruct (done pc) eqn:Hd.
  - apply ret_Returns in H as [_ <-]. by exists pc.
  - apply bind_Returns in H as (pc1 & s1 & H1 & H2).
    destruct (IH _ _ H2) as (pc' & Hd' & Hrtc). exists pc'. split; [done|].
    eapply rtc_l; [|done]. by constructor.
Qed.

(** What the environment does to the state: it writes the [locked_] of
    one reader, or nothing. *)
Lemma env_step_readers ls s ls' s' :
  env_step (ls, s) (ls', s') →
  owners s' = owners s ∧ freed s' = freed s ∧
  (readers s' = readers s ∨
   ∃ r rd l, readers s !! r = Some rd ∧ readers s' = <[r := with_locked l rd]> (readers s)).
Proof.
  inversion 1 as [r rd ls0 s0 Hr|r v ls1 ls2 s0 s0' H0|r ls0 s0 s0' H0]; subst.
  - split; [done|]. split; [done|]. by left.
  - apply upd_reader_Returns in H0 as (rd & Hr & ->).
    split; [done|]. split; [done|]. right. by exists r, rd, v.
  - apply upd_reader_Returns in H0 as (rd & Hr & ->).
    split; [done|]. split; [done|]. right. by exists r, rd, nullptr.
Qed.

(** A whole [lock()] call of another thread: its load and its store. *)
Lemma env_lock r v ls s s' :
  lock r s = Returns v s' → rtc env_step (ls, s) (ls, s').
Proof.
  unfold lock. intros H.
  apply bind_Returns in H as (rd & ? & [Hr ->]%reader_Returns & H).
  apply bind_Returns in H as ([] & s1 & Hst & H).
  apply ret_Returns in H as [_ <-].
  eapply rtc_l; [by apply (env_load r rd)|].
  apply rtc_once. by apply (env_store r (r_value_ rd) []).
Qed.

Lemma rtc_conc_env {PC} (step : PC → Op PC) pc c c' :
  rtc env_step c c' → rtc (conc_step step) (pc, c) (pc, c').
Proof.
  induction 1 as [|c1 c2 c3 H12 _ IH]; [done|].
  eapply rtc_l; [|done]. by apply conc_env.
Qed.

Lemma play_conc {PC} (step : PC → Op PC) sched pc ls s pc' s' :
  play step sched pc s = Some (pc', s') →
  rtc (conc_step step) (pc, (ls, s)) (pc', (ls, s')).
Proof.
  revert pc s. induction sched as [|m sched IH]; intros pc s H; simpl in H.
  - injection H as <- <-. done.
  - destruct m as [|r|r].
    + destruct (step pc s) as [pc1 s1| |] eqn:E; try done.
      eapply rtc_l; [|by apply IH]. by constructor.
    + destruct (lock r s) as [v s1| |] eqn:E; try done.
      etrans; [|by apply IH]. apply rtc_conc_env. by eapply env_lock.
    + destruct (unlock r s) as [[] s1| |] eqn:E; try done.
      eapply rtc_l; [|by apply IH]. apply conc_env. by eapply env_unlock.
Qed.

(** *** The entries that [reset] and [~owned_ptr] look at *)

Lemma child_at_Returns o i s c s' :
  child_at o i s = Returns c s' →
  s' = s ∧ ∃ od, owners s !! o = Some od ∧ o_children_ od !! i = Some c.
Proof.
  unfold child_at. intros H.
  apply bind_Returns in H as (od & ? & [Ho ->]%owner_Returns & H).
  destruct (o_children_ od !! i) as [c'|] eqn:E; [|done].
  apply ret_Returns in H as [-> ->]. eauto.
Qed.

Lemma update_at_Returns o j s c s' :
  update_at o j s = Returns c s' →
  s' = s ∧ ∃ od, owners s !! o = Some od ∧ o_update_ od !! j = Some c.
Proof.
  unfold update_at. intros H.
  apply bind_Returns in H as (od & ? & [Ho ->]%owner_Returns & H).
  destruct (o_update_ od !! j) as [c'|] eqn:E; [|done].
  apply ret_Returns in H as [-> ->]. eauto.
Qed.

(** Two lookups of the same object give the same record. *)
Ltac same_owner :=
  repeat match goal with
  | H1 : ?m !! ?o = Some ?od, H2 : ?m !! ?o = Some ?od' |- _ =>
      assert (od' = od) by congruence; subst od'; clear H2
  end.

(** *** [reset] never writes a reader's [locked_] *)

Lemma keeps_locked_bind {A B} (m : Op A) (f : A → Op B) :
  keeps_locked m → (∀ a, keeps_locked (f a)) → keeps_locked (m ≫= f).
Proof.
  intros Hm Hf s b s' r (a & s1 & H1 & H2)%bind_Returns.
  by rewrite (Hf _ _ _ _ _ H2), (Hm _ _ _ _ H1).
Qed.
Lemma keeps_locked_ret {A} (a : A) : keeps_locked (mret a : Op A).
Proof. by intros s b s' r [_ <-]%ret_Returns. Qed.
Lemma keeps_locked_hang {A} : keeps_locked (hang : Op A).
Proof. by intros s b s' r H. Qed.
Lemma keeps_locked_crash {A} : keeps_locked (crash : Op A).
Proof. by intros s b s' r H. Qed.
Lemma keeps_locked_reader r : keeps_locked (reader r).
Proof. by intros s b s' r' [_ ->]%reader_Returns. Qed.
Lemma keeps_locked_owner o : keeps_locked (owner o).
Proof. by intros s b s' r' [_ ->]%owner_Returns. Qed.
Lemma keeps_locked_upd_owner o f : keeps_locked (upd_owner o f).
Proof. by intros s b s' r' (od & _ & ->)%upd_owner_Returns. Qed.
Lemma keeps_locked_upd_reader r f :
  (∀ rd, r_locked_ (f rd) = r_locked_ rd) → keeps_locked (upd_reader r f).
Proof.
  intros Hf s b s' r' (rd & Hr & ->)%upd_reader_Returns. unfold locked_of. simpl.
  destruct (decide (r' = r)) as [->|Hne].
  - rewrite lookup_insert_eq, Hr. simpl. by rewrite Hf.
  - by rewrite lookup_insert_ne.
Qed.
Lemma keeps_locked_omutex_lock o : keeps_locked (omutex_lock o).
Proof.
  unfold omutex_lock. apply keeps_locked_bind; [apply keeps_locked_owner|].
  intros od. destruct (o_mutex_ od); [apply keeps_locked_hang|apply keeps_locked_upd_owner].
Qed.
Lemma keeps_locked_child_at o i : keeps_locked (child_at o i).
Proof. by intros s b s' r' [-> _]%child_at_Returns. Qed.
Lemma keeps_locked_update_at o i : keeps_locked (update_at o i).
Proof. by intros s b s' r' [-> _]%update_at_Returns. Qed.
Lemma keeps_locked_delete_value p : keeps_locked (delete_value p).
Proof. intros s b s' r' H. unfold delete_value in H. injection H as H. by subst s'. Qed.

Lemma reset_step_keeps_locked o value pc : keeps_locked (reset_step o value pc).
Proof.
  destruct pc; simpl;
    repeat first
      [ apply keeps_locked_ret
      | apply keeps_locked_crash
      | apply keeps_locked_omutex_lock
      | apply keeps_locked_owner
      | apply keeps_locked_reader
      | apply keeps_locked_child_at
      | apply keeps_locked_update_at
      | apply keeps_locked_delete_value
      | apply keeps_locked_upd_owner
      | by apply keeps_locked_upd_reader
      | apply keeps_locked_bind; [|intros ?]
      | case_decide
      | case_match ].
Qed.

Lemma lock_ok r s rd :
  readers s !! r = Some rd →
  lock r s = Returns (r_value_ rd) (set_readers (insert r (with_locked (r_value_ rd) rd)) s).
Proof.
  intros Hr. unfold lock. rewrite (bind_step _ _ _ _ _ (reader_ok _ _ _ Hr)).
  by rewrite (bind_step _ _ _ _ _ (upd_reader_ok _ _ _ _ Hr)).
Qed.

(** *** The registry, the readers' [parent_] and the cached [value_] agree *)

Lemma coherent_empty : coherent empty_state.
Proof.
  split_and!.
  - intros o od H. simpl in H. by rewrite lookup_empty in H.
  - intros o od r H. simpl in H. by rewrite lookup_empty in H.
  - intros r rd H. simpl in H. by rewrite lookup_empty in H.
Qed.

Lemma coherent_upd_reader r f :
  (∀ rd, r_parent_ (f rd) = r_parent_ rd) →
  (∀ rd, r_value_ (f rd) = r_value_ rd) →
  preserves coherent (upd_reader r f).
Proof.
  intros Hp Hv s u s' (H1 & H2 & H3) (rd & Hr & ->)%upd_reader_Returns.
  split_and!; simpl.
  - done.
  - intros o od r' Ho. rewrite (H2 o od r' Ho).
    destruct (decide (r' = r)) as [->|Hne].
    + rewrite lookup_insert_eq. split.
      * intros (rd' & Hr' & Hp'). same_owner. exists (f rd). by rewrite Hp.
      * intros (rd' & [= <-] & Hp'). exists rd. by rewrite <- Hp.
    + by rewrite lookup_insert_ne.
  - intros r' rd' Hr'. destruct (decide (r' = r)) as [->|Hne].
    + rewrite lookup_insert_eq in Hr'. injection Hr' as <-.
      rewrite Hp, Hv. exact (H3 r rd Hr).
    + rewrite lookup_insert_ne in Hr' by done. exact (H3 r' rd' Hr').
Qed.

Lemma coherent_rmutex_lock r : preserves coherent (rmutex_lock r).
Proof.
  unfold rmutex_lock. apply preserves_bind; [apply preserves_reader|].
  intros rd. destruct (r_mutex_ rd); [apply preserves_hang|].
  by apply coherent_upd_reader.
Qed.

Lemma coherent_lock r : preserves coherent (lock r).
Proof.
  unfold lock. apply preserves_bind; [apply preserves_reader|]. intros rd.
  apply preserves_bind; [by apply coherent_upd_reader|].
  intros _. apply preserves_ret.
Qed.

Lemma coherent_unlock r : preserves coherent (unlock r).
Proof. by apply coherent_upd_reader. Qed.

Lemma coherent_count o : preserves coherent (count o).
Proof. by intros s n s' HP (od & _ & _ & _ & ->)%count_effect. Qed.

Lemma coherent_new_reader r : preserves coherent (new_reader r).
Proof.
  intros s u s' (H1 & H2 & H3) H. unfold new_reader in H.
  destruct (readers s !! r) eqn:Hr; [done|]. injection H as H; subst s'.
  split_and!; simpl.
  - done.
  - intros o od r' Ho. rewrite (H2 o od r' Ho).
    destruct (decide (r' = r)) as [->|Hne].
    + rewrite lookup_insert_eq, Hr. split; intros (rd' & ? & ?); simplify_eq.
    + by rewrite lookup_insert_ne.
  - intros r' rd' Hr'. destruct (decide (r' = r)) as [->|Hne].
    + rewrite lookup_insert_eq in Hr'. by injection Hr' as <-.
    + rewrite lookup_insert_ne in Hr' by done. exact (H3 r' rd' Hr').
Qed.

Lemma coherent_new_owner o value : preserves coherent (new_owner o value).
Proof.
  intros s u s' (H1 & H2 & H3) H. unfold new_owner in H.
  destruct (owners s !! o) eqn:Ho; [done|]. injection H as H; subst s'.
  split_and!; simpl.
  - intros o' od' Ho'. destruct (decide (o' = o)) as [->|Hne].
    + rewrite lookup_insert_eq in Ho'. injection Ho' as <-. simpl. constructor.
    + rewrite lookup_insert_ne in Ho' by done. eauto.
  - intros o' od' r Ho'. destruct (decide (o' = o)) as [->|Hne].
    + rewrite lookup_insert_eq in Ho'. injection Ho' as <-. simpl. split.
      * intros Hin. by apply elem_of_nil in Hin.
      * intros (rd & Hr & Hp). specialize (H3 r rd Hr). rewrite Hp in H3.
        destruct H3 as (od & Hod & _). congruence.
    + rewrite lookup_insert_ne in Ho' by done. eauto.
  - intros r rd Hr. specialize (H3 r rd Hr).
    destruct (r_parent_ rd) as [p|]; [|done].
    destruct H3 as (od & Hod & Hv). destruct (decide (p = o)) as [->|Hne].
    + congruence.
    + exists od. by rewrite lookup_insert_ne.
Qed.

(** An unattached reader is attached to [o]. *)
Lemma coh_attach om rm o od r rd l m :
  coh om rm → om !! o = Some od → rm !! r = Some rd → r_parent_ rd = None →
  coh (<[o := with_children (o_children_ od ++ [r]) od]> om)
      (<[r := mk_reader (o_value_ od) l m (Some o)]> rm).
Proof.
  intros (H1 & H2 & H3) Ho Hr Hp.
  assert (Hnot : ∀ o' od', om !! o' = Some od' → r ∉ o_children_ od').
  { intros o' od' Ho' Hin. apply (H2 o' od' r Ho') in Hin as (rd' & Hr' & Hp').
    congruence. }
  split_and!.
  - intros o' od' Ho'. destruct (decide (o' = o)) as [->|Hne].
    + rewrite lookup_insert_eq in Ho'. injection Ho' as <-. simpl.
      apply NoDup_app. split_and!; [by eapply H1| |apply NoDup_singleton].
      intros x Hx ->%list_elem_of_singleton. by eapply Hnot.
    + rewrite lookup_insert_ne in Ho' by done. eauto.
  - intros o' od' r' Ho'. destruct (decide (o' = o)) as [->|Hne].
    + rewrite lookup_insert_eq in Ho'. injection Ho' as <-. simpl.
      rewrite elem_of_app, list_elem_of_singleton, (H2 o od r' Ho).
      destruct (decide (r' = r)) as [->|Hne'].
      * rewrite lookup_insert_eq. split; [|by right]. intros _. by eexists.
      * rewrite lookup_insert_ne by done. split; [|by left].
        by intros [?|?].
    + rewrite lookup_insert_ne in Ho' by done. rewrite (H2 o' od' r' Ho').
      destruct (decide (r' = r)) as [->|Hne'].
      * rewrite lookup_insert_eq. split; intros (rd' & ? & ?); simplify_eq/=.
      * by rewrite lookup_insert_ne.
  - intros r' rd' Hr'. destruct (decide (r' = r)) as [->|Hne].
    + rewrite lookup_insert_eq in Hr'. injection Hr' as <-. simpl.
      eexists. by rewrite lookup_insert_eq.
    + rewrite lookup_insert_ne in Hr' by done. specialize (H3 r' rd' Hr').
      destruct (r_parent_ rd') as [p|]; [|done].
      destruct H3 as (pd & Hpd & Hv). destruct (decide (p = o)) as [->|Hne'].
      * rewrite lookup_insert_eq. eexists. split; [done|]. simpl. congruence.
      * rewrite lookup_insert_ne by done. eauto.
Qed.

(** A reader attached to [p] is taken off the front of [p]'s registry. *)
Lemma coh_detach om rm p pd r rd l m :
  coh om rm → om !! p = Some pd → rm !! r = Some rd → r_parent_ rd = Some p →
  o_children_ pd = [] ∨ head (o_children_ pd) = Some r →
  coh (<[p := with_children (tail (o_children_ pd)) pd]> om)
      (<[r := mk_reader nullptr l m None]> rm).
Proof.
  intros (H1 & H2 & H3) Hpd Hr Hp Hside.
  assert (r ∈ o_children_ pd) as Hin by (apply (H2 p pd r Hpd); eauto).
  destruct (o_children_ pd) as [|c rest] eqn:Hc; [by apply elem_of_nil in Hin|].
  destruct Hside as [?|[= ->]]; [done|]. simpl.
  pose proof (H1 p pd Hpd) as Hnd. rewrite Hc in Hnd.
  apply NoDup_cons in Hnd as [Hnotin Hnd].
  split_and!.
  - intros o' od' Ho'. destruct (decide (o' = p)) as [->|Hne].
    + rewrite lookup_insert_eq in Ho'. by injection Ho' as <-.
    + rewrite lookup_insert_ne in Ho' by done. eauto.
  - intros o' od' r' Ho'. destruct (decide (o' = p)) as [->|Hne].
    + rewrite lookup_insert_eq in Ho'. injection Ho' as <-. simpl.
      pose proof (H2 p pd r' Hpd) as H2p. rewrite Hc in H2p.
      destruct (decide (r' = r)) as [->|Hne'].
      * rewrite lookup_insert_eq. split; [done|]. intros (rd' & ? & ?); simplify_eq/=.
      * rewrite lookup_insert_ne by done. rewrite <- H2p.
        rewrite elem_of_cons. split; [by right|]. by intros [?|?].
    + rewrite lookup_insert_ne in Ho' by done. rewrite (H2 o' od' r' Ho').
      destruct (decide (r' = r)) as [->|Hne'].
      * rewrite lookup_insert_eq. split; intros (rd' & ? & ?); simplify_eq/=.
      * by rewrite lookup_insert_ne.
  - intros r' rd' Hr'. destruct (decide (r' = r)) as [->|Hne].
    + rewrite lookup_insert_eq in Hr'. by injection Hr' as <-.
    + rewrite lookup_insert_ne in Hr' by done. specialize (H3 r' rd' Hr').
      destruct (r_parent_ rd') as [p'|]; [|done].
      destruct H3 as (pd' & Hpd' & Hv). destruct (decide (p' = p)) as [->|Hne'].
      * rewrite lookup_insert_eq. eexists. split; [done|]. simpl. congruence.
      * rewrite lookup_insert_ne by done. eauto.
Qed.

(** An unattached reader goes away. *)
Lemma coh_forget om rm r rd :
  coh om rm → rm !! r = Some rd → r_parent_ rd = None → coh om (delete r rm).
Proof.
  intros (H1 & H2 & H3) Hr Hp. split_and!.
  - done.
  - intros o od r' Ho. rewrite (H2 o od r' Ho).
    destruct (decide (r' = r)) as [->|Hne].
    + rewrite lookup_delete_eq. split; intros (rd' & ? & ?); simplify_eq/=.
    + by rewrite lookup_delete_ne.
  - intros r' rd' [Hne Hr']%lookup_delete_Some. exact (H3 r' rd' Hr').
Qed.

Lemma coherent_get fuel o r : preserves coherent (get fuel o r).
Proof.
  intros s u s' Hcoh H.
  apply get_effect in H as (od & rd & Ho & Hm & Hr & Hrm & Hrs & Hf & Hcase).
  unfold coherent. rewrite Hrs. unfold attached_to.
  destruct (r_parent_ rd) as [p|] eqn:Hp.
  - destruct Hcase as (Hne & pd & Hpd & Hpm & -> & Hside).
    assert (Hside' : o_children_ pd = [] ∨ head (o_children_ pd) = Some r)
      by (destruct Hside as [?|[? _]]; auto).
    pose proof (coh_detach _ _ p pd r rd (r_locked_ rd) false Hcoh Hpd Hr Hp Hside')
      as Hmid.
    pose proof (coh_attach _ _ o od r (mk_reader nullptr (r_locked_ rd) false None)
                  (r_locked_ rd) false Hmid) as Hfin.
    rewrite insert_insert_eq in Hfin. apply Hfin.
    + by rewrite lookup_insert_ne.
    + apply lookup_insert_eq.
    + done.
  - rewrite Hcase. by apply coh_attach with (rd := rd).
Qed.

Lemma coherent_delete_reader fuel r : preserves coherent (delete_reader fuel r).
Proof.
  intros s u s' Hcoh H.
  apply delete_reader_effect in H as (rd & Hr & Hrm & Hrs & Hf & Hcase).
  unfold coherent. rewrite Hrs.
  destruct (r_parent_ rd) as [p|] eqn:Hp.
  - destruct Hcase as (pd & Hpd & Hpm & -> & Hside).
    assert (Hside' : o_children_ pd = [] ∨ head (o_children_ pd) = Some r)
      by (destruct Hside as [?|[? _]]; auto).
    pose proof (coh_detach _ _ p pd r rd (r_locked_ rd) false Hcoh Hpd Hr Hp Hside')
      as Hmid.
    eapply coh_forget in Hmid; [|apply lookup_insert_eq|done].
    by rewrite delete_insert_eq in Hmid.
  - rewrite Hcase. by eapply coh_forget.
Qed.

Lemma coherent_shape s : coherent s → shape s.
Proof. by intros (H1 & H2 & _). Qed.

Lemma shape_upd_reader r f :
  (∀ rd, r_parent_ (f rd) = r_parent_ rd) → preserves shape (upd_reader r f).
Proof.
  intros Hp s u s' (H1 & H2) (rd & Hr & ->)%upd_reader_Returns.
  split; simpl; [done|].
  intros o od r' Ho. rewrite (H2 o od r' Ho).
  destruct (decide (r' = r)) as [->|Hne].
  - rewrite lookup_insert_eq. split.
    + intros (rd' & Hr' & Hp'). same_owner. exists (f rd). by rewrite Hp.
    + intros (rd' & [= <-] & Hp'). exists rd. by rewrite <- Hp.
  - by rewrite lookup_insert_ne.
Qed.

Lemma shape_upd_owner o f :
  (∀ od, o_children_ (f od) = o_children_ od) → preserves shape (upd_owner o f).
Proof.
  intros Hc s u s' (H1 & H2) (od & Ho & ->)%upd_owner_Returns.
  split; simpl.
  - intros o' od' Ho'. destruct (decide (o' = o)) as [->|Hne].
    + rewrite lookup_insert_eq in Ho'. injection Ho' as <-. rewrite Hc. eauto.
    + rewrite lookup_insert_ne in Ho' by done. eauto.
  - intros o' od' r Ho'. destruct (decide (o' = o)) as [->|Hne].
    + rewrite lookup_insert_eq in Ho'. injection Ho' as <-. rewrite Hc. eauto.
    + rewrite lookup_insert_ne in Ho' by done. eauto.
Qed.

Lemma shape_omutex_lock o : preserves shape (omutex_lock o).
Proof.
  unfold omutex_lock. apply preserves_bind; [apply preserves_owner|].
  intros od. destruct (o_mutex_ od); [apply preserves_hang|].
  by apply shape_upd_owner.
Qed.

Lemma shape_delete_value p : preserves shape (delete_value p).
Proof. intros s u s' HP H. unfold delete_value in H. injection H as H. by subst s'. Qed.

Lemma shape_reset_step o value pc : preserves shape (reset_step o value pc).
Proof.
  destruct pc; simpl;
    repeat first
      [ apply preserves_ret
      | apply preserves_crash
      | apply shape_omutex_lock
      | apply preserves_owner
      | apply preserves_reader
      | apply preserves_child_at
      | apply preserves_update_at
      | apply shape_delete_value
      | by apply shape_upd_reader
      | by apply shape_upd_owner
      | apply preserves_bind; [|intros ?]
      | case_decide
      | case_match ].
Qed.

Lemma reset_values_pc o value pc pc' s :
  reset_values o value pc s →
  reset_stored pc' = reset_stored pc →
  (∀ pd i k r, owners s !! o = Some pd → reset_valued pc = Some i → i ≤ k →
     o_children_ pd !! k = Some r → ∃ i', reset_valued pc' = Some i' ∧ i' ≤ k) →
  reset_values o value pc' s.
Proof.
  intros HV Hst Hw r rd Hr. specialize (HV r rd Hr).
  destruct (r_parent_ rd) as [p|]; [|done].
  destruct HV as (pd & Hpd & Hne & Heq). exists pd. split; [done|]. split; [done|].
  intros ->. destruct (Heq eq_refl) as [Hs Hv]. rewrite Hst. split; [done|].
  destruct Hv as [?|(Hold & i & k & Hi & Hik & Hk)]; [by left|right].
  split; [done|]. destruct (Hw pd i k r Hpd Hi Hik Hk) as (i' & Hi' & Hik').
  by exists i', k.
Qed.

Lemma reset_values_owner o value pc pc' s od od' :
  reset_values o value pc s → owners s !! o = Some od →
  o_children_ od' = o_children_ od → o_value_ od' = o_value_ od →
  reset_stored pc' = reset_stored pc → reset_valued pc' = reset_valued pc →
  reset_values o value pc' (set_owners (insert o od') s).
Proof.
  intros HV Ho Hc Hv Hst Hvl r rd Hr. simpl in Hr. specialize (HV r rd Hr).
  destruct (r_parent_ rd) as [p|]; [|done].
  destruct HV as (pd & Hpd & Hne & Heq). simpl.
  destruct (decide (p = o)) as [->|Hpo].
  - same_owner. exists od'. rewrite lookup_insert_eq. split; [done|]. split; [done|].
    intros _. destruct (Heq eq_refl) as [Hs Hv']. rewrite Hst, Hv, Hvl, Hc. done.
  - exists pd. rewrite lookup_insert_ne by done. done.
Qed.

Lemma reset_coh_step o value pc :
  hoare (reset_coh o value pc) (reset_step o value pc) (reset_coh o value).
Proof.
  intros s pc' s' [Hsh HV] H.
  split; [by eapply shape_reset_step|].
  destruct pc; simpl in H.
  - (* R_lock *)
    apply bind_Returns in H as (? & s1 & (od & Ho & Hm & ->)%omutex_lock_Returns & H).
    apply ret_Returns in H as [<- <-]. by eapply reset_values_owner.
  - (* R_for *)
    apply bind_Returns in H as (od & ? & [Ho ->]%owner_Returns & H).
    destruct (decide (i < length (o_children_ od))) as [Hi|Hi];
      apply ret_Returns in H as [<- <-].
    + eapply reset_values_pc; [done|done|]. intros pd i' k r' _ Hv Hk _. eauto.
    + eapply reset_values_pc; [done|done|]. intros pd i' k r' Hpd [= <-] Hk Hkr.
      same_owner. apply lookup_lt_Some in Hkr. lia.
  - (* R_value *)
    apply bind_Returns in H as (c & s1 & (-> & od & Ho & Hci)%child_at_Returns & H).
    apply bind_Returns in H as (? & s2 & (rd0 & Hr0 & ->)%upd_reader_Returns & H).
    apply ret_Returns in H as [<- <-].
    assert (r_parent_ rd0 = Some o) as Hp0.
    { destruct Hsh as [_ H2]. apply list_elem_of_lookup_2 in Hci.
      apply (H2 o od c Ho) in Hci as (rd' & Hr' & Hp'). by same_owner. }
    intros r rd Hr. simpl in Hr. destruct (decide (r = c)) as [->|Hne].
    + rewrite lookup_insert_eq in Hr. injection Hr as <-. simpl. rewrite Hp0.
      specialize (HV c rd0 Hr0). rewrite Hp0 in HV.
      destruct HV as (pd & Hpd & _ & Heq). exists pd. split; [done|]. split; [done|].
      intros _. split; [done|]. by left.
    + rewrite lookup_insert_ne in Hr by done. specialize (HV r rd Hr).
      destruct (r_parent_ rd) as [p|]; [|done].
      destruct HV as (pd & Hpd & Hpne & Heq). exists pd. simpl.
      split; [done|]. split; [done|]. intros ->. same_owner.
      destruct (Heq eq_refl) as [Hs Hv]. split; [done|].
      destruct Hv as [?|(Hold & i' & k & [= <-] & Hik & Hk)]; [by left|right].
      split; [done|]. exists (S i), k. split; [done|]. split; [|done].
      destruct (decide (k = i)) as [->|]; [congruence|lia].
  - (* R_test *)
    apply bind_Returns in H as (c & s1 & (-> & od & Ho & Hci)%child_at_Returns & H).
    apply bind_Returns in H as (rd0 & ? & [Hr0 ->]%reader_Returns & H).
    destruct (decide (r_locked_ rd0 ≠ nullptr)) as [Hl|Hl];
      apply ret_Returns in H as [<- <-];
      (eapply reset_values_pc; [done|done|]); intros pd i' k r' _ Hv Hk _; eauto.
  - (* R_push *)
    apply bind_Returns in H as (c & s1 & (-> & od & Ho & Hci)%child_at_Returns & H).
    apply bind_Returns in H as (od2 & ? & [Ho2 ->]%owner_Returns & H).
    apply bind_Returns in H as (? & s2 & (od3 & Ho3 & ->)%upd_owner_Returns & H).
    apply ret_Returns in H as [<- <-]. same_owner. by eapply reset_values_owner.
  - (* R_while *)
    apply bind_Returns in H as (od & ? & [Ho ->]%owner_Returns & H).
    destruct (o_update_ od); apply ret_Returns in H as [<- <-];
      (eapply reset_values_pc; [done|done|]); intros pd i' k r' _ Hv; done.
  - (* R_sweep *)
    apply bind_Returns in H as (od & ? & [Ho ->]%owner_Returns & H).
    destruct (decide (j < length (o_update_ od))) as [Hj|Hj].
    + apply bind_Returns in H as (c & s1 & (-> & od1 & Ho1 & Hcj)%update_at_Returns & H).
      apply bind_Returns in H as (rd0 & ? & [Hr0 ->]%reader_Returns & H).
      destruct (decide (r_locked_ rd0 = nullptr ∨ r_locked_ rd0 = value));
        apply ret_Returns in H as [<- <-];
        (eapply reset_values_pc; [done|done|]); intros pd i' k r' _ Hv; done.
    + apply ret_Returns in H as [<- <-].
      eapply reset_values_pc; [done|done|]. intros pd i' k r' _ Hv; done.
  - (* R_erase *)
    apply bind_Returns in H as (od & ? & _ & H).
    apply bind_Returns in H as (? & s2 & _ & H). done.
  - (* R_delete *)
    apply bind_Returns in H as (od & ? & [Ho ->]%owner_Returns & H).
    apply bind_Returns in H as ([] & s2 & Hd & H).
    unfold delete_value in Hd. injection Hd as Hd. subst s2.
    apply ret_Returns in H as [<- <-].
    assert (HV' : reset_values o value R_store s).
    { eapply reset_values_pc; [done|done|]. intros pd i' k r' _ Hv; done. }
    intros r rd Hr. exact (HV' r rd Hr).
  - (* R_store *)
    apply bind_Returns in H as (? & s2 & (od & Ho & ->)%upd_owner_Returns & H).
    apply ret_Returns in H as [<- <-].
    intros r rd Hr. simpl in Hr. specialize (HV r rd Hr).
    destruct (r_parent_ rd) as [p|]; [|done].
    destruct HV as (pd & Hpd & Hne & Heq). simpl.
    destruct (decide (p = o)) as [->|Hpo].
    + same_owner. eexists. rewrite lookup_insert_eq. split; [done|]. split; [done|].
      intros _. split; [done|]. left.
      destruct (Heq eq_refl) as [_ [?|(_ & i & k & Hi & _)]]; done.
    + exists pd. rewrite lookup_insert_ne by done. done.
  - (* R_unlock *)
    apply bind_Returns in H as (? & s2 & (od & Ho & ->)%upd_owner_Returns & H).
    apply ret_Returns in H as [<- <-]. by eapply reset_values_owner.
  - (* R_done *)
    by apply ret_Returns in H as [<- <-].
Qed.

Lemma reset_coh_start o value s : coherent s → reset_coh o value R_lock s.
Proof.
  intros Hcoh. split; [by apply coherent_shape|].
  destruct Hcoh as (H1 & H2 & H3). intros r rd Hr. specialize (H3 r rd Hr).
  destruct (r_parent_ rd) as [p|] eqn:Hp; [|done].
  destruct H3 as (pd & Hpd & Hv). exists pd. split; [done|]. split; [done|].
  intros ->. split; [done|]. right. split; [done|].
  assert (r ∈ o_children_ pd) as Hin by (apply (H2 o pd r Hpd); eauto).
  apply list_elem_of_lookup in Hin as [k Hk]. exists 0, k. split; [done|].
  split; [lia|done].
Qed.

Lemma reset_coh_done o value s : reset_coh o value R_done s → coherent s.
Proof.
  intros [[H1 H2] HV]. split_and!; [done|done|].
  intros r rd Hr. specialize (HV r rd Hr).
  destruct (r_parent_ rd) as [p|]; [|done].
  destruct HV as (pd & Hpd & Hne & Heq). exists pd. split; [done|].
  destruct (decide (p = o)) as [->|Hpo]; [|by apply Hne].
  destruct (Heq eq_refl) as [Hs [?|[? _]]]; [|done]. rewrite Hs; done.
Qed.

Lemma coherent_reset fuel o value : preserves coherent (reset fuel o value).
Proof.
  intros s u s' Hcoh H. unfold reset in H.
  destruct (run_inv _ reset_done (reset_coh o value) (λ pc _, reset_coh_step o value pc)
              fuel R_lock s u s') as (pc' & Hd & HJ); [by apply reset_coh_start|done|].
  destruct pc'; try done. by eapply reset_coh_done.
Qed.

(** *** Teardown *)

Lemma dcoh_start o od om rm :
  coh om rm → om !! o = Some od → dcoh o (o_children_ od) (Some 0) (Some 0) om rm.
Proof.
  intros (H1 & H2 & H3) Ho. split_and!.
  - eauto.
  - done.
  - intros o' od' r _ Ho'. exact (H2 o' od' r Ho').
  - intros r rd Hr Hp. apply (H2 o od r Ho). eauto.
  - intros k r rd Hk Hr. apply list_elem_of_lookup_2 in Hk.
    apply (H2 o od r Ho) in Hk as (rd' & Hr' & Hp'). same_owner.
    split; [by left|]. split; simpl; lia.
  - intros r rd Hr. specialize (H3 r rd Hr).
    destruct (r_parent_ rd) as [p|]; [|done]. by intros _.
Qed.

Lemma dcoh_weaken o cs nd nn nd' nn' om rm :
  dcoh o cs nd nn om rm →
  (∀ k, k < length cs → covered nd' k → covered nd k) →
  (∀ k, k < length cs → covered nn' k → covered nn k) →
  dcoh o cs nd' nn' om rm.
Proof.
  intros (HC & HN & HO & HP & HK & HV) Hd Hn. split_and!; try done.
  intros k r rd Hk Hr. apply lookup_lt_Some in Hk as Hlt.
  destruct (HK k r rd Hk Hr) as (Hor & Hdet & Hnul). split_and!; auto.
Qed.

Lemma dcoh_owner o cs nd nn om rm od od' :
  dcoh o cs nd nn om rm → om !! o = Some od →
  o_children_ od' = o_children_ od →
  dcoh o cs nd nn (<[o := od']> om) rm.
Proof.
  intros (HC & HN & HO & HP & HK & HV) Ho Hc. split_and!; try done.
  - destruct HC as (od0 & Ho0 & Hcs). same_owner. exists od'.
    rewrite lookup_insert_eq. split; [done|congruence].
  - intros o' od0 Ho'. destruct (decide (o' = o)) as [->|Hne].
    + rewrite lookup_insert_eq in Ho'. injection Ho' as <-. rewrite Hc. eauto.
    + rewrite lookup_insert_ne in Ho' by done. eauto.
  - intros o' od0 r Hne Ho'. rewrite lookup_insert_ne in Ho' by done. eauto.
  - intros r rd Hr. specialize (HV r rd Hr).
    destruct (r_parent_ rd) as [p|]; [|done].
    intros Hne. destruct (HV Hne) as (pd & Hpd & Hv). exists pd.
    by rewrite lookup_insert_ne.
Qed.


(** [child->value_ = nullptr] on entry [i]. *)
Lemma dcoh_value o cs i om rm c rd :
  dcoh o cs (Some i) (Some i) om rm → cs !! i = Some c → rm !! c = Some rd →
  dcoh o cs (Some i) (Some (S i)) om (<[c := with_value nullptr rd]> rm).
Proof.
  intros (HC & HN & HO & HP & HK & HV) Hc Hr. split_and!; try done.
  - intros o' od r' Hne Ho'. rewrite (HO o' od r' Hne Ho').
    destruct (decide (r' = c)) as [->|Hne'].
    + rewrite lookup_insert_eq. split.
      * intros (rd0 & Hr0 & Hp0). same_owner. by exists (with_value nullptr rd).
      * intros (rd0 & [= <-] & Hp0). by exists rd.
    + by rewrite lookup_insert_ne.
  - intros r' rd0 Hr0 Hp0. destruct (decide (r' = c)) as [->|Hne'].
    + rewrite lookup_insert_eq in Hr0. injection Hr0 as <-. eauto.
    + rewrite lookup_insert_ne in Hr0 by done. eauto.
  - intros k r' rd0 Hk Hr0. destruct (decide (r' = c)) as [->|Hne'].
    + rewrite lookup_insert_eq in Hr0. injection Hr0 as <-. simpl.
      destruct (HK k c rd Hk Hr) as (Hor & Hdet & Hnul). done.
    + rewrite lookup_insert_ne in Hr0 by done.
      destruct (HK k r' rd0 Hk Hr0) as (Hor & Hdet & Hnul). split_and!; try done.
      simpl. intros Hlt. apply Hnul. simpl.
      destruct (decide (k = i)) as [->|]; [congruence|lia].
  - intros r' rd0 Hr0. destruct (decide (r' = c)) as [->|Hne'].
    + rewrite lookup_insert_eq in Hr0. injection Hr0 as <-. simpl.
      destruct (HK i c rd Hc Hr) as ([-> | ->] & _); [by intros ?|done].
    + rewrite lookup_insert_ne in Hr0 by done. exact (HV r' rd0 Hr0).
Qed.

(** [child->set_owner_(nullptr)] on entry [i]. *)
Lemma dcoh_parent o cs i om rm c rd :
  dcoh o cs (Some i) (Some (S i)) om rm → cs !! i = Some c → rm !! c = Some rd →
  dcoh o cs (Some (S i)) (Some (S i)) om (<[c := with_parent None rd]> rm).
Proof.
  intros (HC & HN & HO & HP & HK & HV) Hc Hr.
  destruct (HK i c rd Hc Hr) as (Hor & _ & Hnul).
  split_and!; try done.
  - intros o' od r' Hne Ho'. rewrite (HO o' od r' Hne Ho').
    destruct (decide (r' = c)) as [->|Hne'].
    + rewrite lookup_insert_eq. split.
      * intros (rd0 & Hr0 & Hp0). same_owner. destruct Hor; congruence.
      * intros (rd0 & [= <-] & Hp0). done.
    + by rewrite lookup_insert_ne.
  - intros r' rd0 Hr0 Hp0. destruct (decide (r' = c)) as [->|Hne'].
    + rewrite lookup_insert_eq in Hr0. by injection Hr0 as <-.
    + rewrite lookup_insert_ne in Hr0 by done. eauto.
  - intros k r' rd0 Hk Hr0. destruct (decide (r' = c)) as [->|Hne'].
    + rewrite lookup_insert_eq in Hr0. injection Hr0 as <-. simpl.
      destruct (HK k c rd Hk Hr) as (_ & _ & Hnul'). split_and!; auto.
    + rewrite lookup_insert_ne in Hr0 by done.
      destruct (HK k r' rd0 Hk Hr0) as (Hor' & Hdet & Hnul'). split_and!; try done.
      simpl. intros Hlt. apply Hdet. simpl.
      destruct (decide (k = i)) as [->|]; [congruence|lia].
  - intros r' rd0 Hr0. destruct (decide (r' = c)) as [->|Hne'].
    + rewrite lookup_insert_eq in Hr0. injection Hr0 as <-. simpl.
      apply Hnul. simpl. lia.
    + rewrite lookup_insert_ne in Hr0 by done. exact (HV r' rd0 Hr0).
Qed.

Lemma set_owner_null_effect c s u s' :
  set_owner_ 0 c None s = Returns u s' →
  ∃ rd, readers s !! c = Some rd ∧ owners s' = owners s ∧ freed s' = freed s ∧
        readers s' = <[c := with_parent None rd]> (readers s).
Proof.
  intros (rd & Hr & _ & Hrs & Hf & Ho)%set_owner__effect. exists rd.
  split; [done|]. split; [|done]. by destruct (r_parent_ rd).
Qed.

Lemma dtor_coh_step o cs pc :
  hoare (dtor_coh o cs pc) (dtor_step o pc) (dtor_coh o cs).
Proof.
  intros s pc' s' HJ H. unfold dtor_coh in *.
  pose proof HJ as ((od0 & Ho0 & Hcs) & _).
  destruct pc; simpl in H.
  - (* D_lock *)
    apply bind_Returns in H as (? & s1 & (od & Ho & Hm & ->)%omutex_lock_Returns & H).
    apply ret_Returns in H as [<- <-]. rewrite Ho0 in Ho. injection Ho as <-.
    simpl. by eapply dcoh_owner.
  - (* D_for *)
    apply bind_Returns in H as (od & ? & [Ho ->]%owner_Returns & H).
    rewrite Ho0 in Ho. injection Ho as <-.
    destruct (decide (i < length (o_children_ od0))) as [Hi|Hi];
      apply ret_Returns in H as [<- <-]; [done|].
    rewrite Hcs in Hi. eapply dcoh_weaken; [done|simpl; intros; lia..].
  - (* D_value *)
    apply bind_Returns in H as (c & s1 & (-> & od & Ho & Hci)%child_at_Returns & H).
    apply bind_Returns in H as (? & s2 & (rd & Hr & ->)%upd_reader_Returns & H).
    apply ret_Returns in H as [<- <-]. rewrite Ho0 in Ho. injection Ho as <-. simpl.
    eapply dcoh_value; [done| |done]. congruence.
  - (* D_set_owner *)
    apply bind_Returns in H as (c & s1 & (-> & od & Ho & Hci)%child_at_Returns & H).
    apply bind_Returns in H as (? & s2 & (rd & Hr & Hos & _ & Hrs)%set_owner_null_effect & H).
    apply ret_Returns in H as [<- <-]. rewrite Ho0 in Ho. injection Ho as <-.
    simpl. rewrite Hos, Hrs.
    eapply dcoh_parent; [done| |done]. congruence.
  - (* D_wait *)
    apply bind_Returns in H as (c & s1 & (-> & od & Ho & Hci)%child_at_Returns & H).
    apply bind_Returns in H as (rd & ? & [Hr ->]%reader_Returns & H).
    destruct (decide (r_locked_ rd ≠ nullptr)); by apply ret_Returns in H as [<- <-].
  - (* D_delete *)
    apply bind_Returns in H as (od & ? & [Ho ->]%owner_Returns & H).
    apply bind_Returns in H as ([] & s2 & Hd & H).
    unfold delete_value in Hd. injection Hd as Hd. subst s2.
    by apply ret_Returns in H as [<- <-].
  - (* D_unlock *)
    apply bind_Returns in H as (? & s2 & (od & Ho & ->)%upd_owner_Returns & H).
    apply ret_Returns in H as [<- <-]. rewrite Ho0 in Ho. injection Ho as <-.
    simpl. by eapply dcoh_owner.
  - (* D_done *)
    by apply ret_Returns in H as [<- <-].
Qed.


(** When the destructor is done the owner has no reader left, and the
    readers of its registry are unattached with a null [value_]. *)
Lemma dcoh_done o cs om rm :
  dcoh o cs None None om rm → coh (delete o om) rm.
Proof.
  intros (HC & HN & HO & HP & HK & HV).
  assert (Hnone : ∀ r rd, rm !! r = Some rd → r_parent_ rd ≠ Some o).
  { intros r rd Hr Hp. apply (HP r rd Hr) in Hp as Hin.
    apply list_elem_of_lookup in Hin as [k Hk].
    destruct (HK k r rd Hk Hr) as (_ & Hdet & _). rewrite Hdet in Hp; done. }
  split_and!.
  - intros o' od [Hne Ho']%lookup_delete_Some. eauto.
  - intros o' od r [Hne Ho']%lookup_delete_Some. exact (HO o' od r (not_eq_sym Hne) Ho').
  - intros r rd Hr. specialize (HV r rd Hr).
    destruct (r_parent_ rd) as [p|] eqn:Hp; [|done].
    assert (p ≠ o) as Hne by (intros ->; by eapply Hnone).
    destruct (HV Hne) as (pd & Hpd & Hv). exists pd. by rewrite lookup_delete_ne.
Qed.

Lemma coherent_delete_owner fuel o : preserves coherent (delete_owner fuel o).
Proof.
  intros s u s' Hcoh H. unfold delete_owner in H.
  apply bind_Returns in H as (u1 & s1 & Hrun & H).
  apply bind_Returns in H as (? & ? & [-> ->]%get_state_Returns & ->%put_state_Returns).
  destruct (owners s !! o) as [od|] eqn:Ho; last first.
  { destruct fuel as [|fuel]; [done|]. simpl in Hrun.
    apply bind_Returns in Hrun as (? & ? & Hl & _).
    apply bind_Returns in Hl as (? & ? & (? & ? & _)%omutex_lock_Returns & _).
    congruence. }
  destruct (run_inv _ dtor_done (dtor_coh o (o_children_ od))
              (λ pc _, dtor_coh_step o (o_children_ od) pc) fuel D_lock s u1 s1)
    as (pc' & Hd & HJ); [by apply dcoh_start|done|].
  destruct pc'; try done. unfold coherent. simpl. by eapply dcoh_done.
Qed.

(** *** Coherence of every state reached without a move construction *)

Lemma coherent_copy_reader fuel r other : preserves coherent (copy_reader fuel r other).
Proof.
  unfold copy_reader. apply preserves_bind; [apply coherent_new_reader|]. intros _.
  apply preserves_bind; [apply coherent_rmutex_lock|]. intros _.
  apply preserves_bind; [apply preserves_reader|]. intros rd.
  apply preserves_bind; [|intros _; by apply coherent_upd_reader].
  destruct (r_parent_ rd); [apply coherent_get|apply preserves_ret].
Qed.

Lemma coherent_exec fuel c : no_move c = true → preserves coherent (exec fuel c).
Proof.
  destruct c; simpl; intros Hk; try done.
  - apply coherent_new_owner.
  - apply coherent_new_reader.
  - apply preserves_bind; [apply coherent_new_reader|intros _; apply coherent_get].
  - apply coherent_get.
  - apply coherent_copy_reader.
  - apply coherent_delete_reader.
  - apply preserves_bind; [apply coherent_lock|intros ?; apply preserves_ret].
  - apply coherent_unlock.
  - apply coherent_reset.
  - apply preserves_bind; [apply coherent_count|intros ?; apply preserves_ret].
  - apply coherent_delete_owner.
Qed.

Lemma coherent_exec_all fuel cs :
  forallb no_move cs = true → preserves coherent (exec_all fuel cs).
Proof.
  induction cs as [|c cs IH]; simpl; intros Hk; [apply preserves_ret|].
  apply andb_prop in Hk as [Hc Hcs].
  apply preserves_bind; [by apply coherent_exec|]. intros _. by apply IH.
Qed.

(** *** [count()] *)

Lemma coherent_count_pointing s o od :
  coherent s → owners s !! o = Some od →
  length (o_children_ od) = pointing_to o (readers s).
Proof.
  intros (H1 & H2 & _) Ho. unfold pointing_to.
  rewrite <- (size_list_to_set (C := gset rid)) by eauto.
  rewrite <- (size_dom (D := gset rid)). f_equal. apply set_eq. intros r.
  rewrite elem_of_list_to_set, elem_of_dom, (H2 o od r Ho). split.
  - intros (rd & Hr & Hp). exists rd. by apply map_lookup_filter_Some.
  - intros [rd (Hr & Hp)%map_lookup_filter_Some]. eauto.
Qed.

(** C5: after any sequence of calls that attach and detach readers
    ([get], the constructors from an owner, copy construction, move
    construction, reader destruction, together with [lock], [unlock],
    [reset] and [count]), [count()] on a live owner returns the number of
    live readers whose [parent_] points to that owner, and returns it
    without changing anything.  The same holds when owners are destroyed
    as well, as long as no reader is move-constructed. *)
Theorem C5_count_is_number_of_pointing_readers
    (fuel : nat) (cs : list call) (s : state) (o : oid) :
  forallb keeps_owner cs = true ∨ forallb no_move cs = true →
  exec_all fuel cs empty_state = Returns () s →
  is_Some (owners s !! o) →
  count o s = Returns (pointing_to o (readers s)) s.
Proof.
  intros Hk Hrun [od Ho].
  pose proof (omutex_free_exec_all fuel cs _ _ _ omutex_free_empty Hrun) as HM.
  assert (length (o_children_ od) = pointing_to o (readers s)) as <-.
  { destruct Hk as [Hk|Hk].
    - pose proof (count_inv_exec_all fuel cs Hk _ _ _ count_inv_empty Hrun) as [HN _].
      exact (HN o od Ho).
    - pose proof (coherent_exec_all fuel cs Hk _ _ _ coherent_empty Hrun) as Hcoh.
      by apply coherent_count_pointing. }
  apply count_ok; [done|]. exact (HM o od Ho).
Qed.

Lemma C5_witness :
  ((forallb keeps_owner attach_detach_run = true ∨
    forallb no_move attach_detach_run = true) ∧
   exec_all 5 attach_detach_run empty_state = Returns () attach_detach_state ∧
   is_Some (owners attach_detach_state !! 1)) ∧
  count 1 attach_detach_state =
    Returns (pointing_to 1 (readers attach_detach_state)) attach_detach_state.
Proof.
  split.
  - split; [by left|]. split; [vm_compute; reflexivity|].
    vm_compute. eexists. reflexivity.
  - apply (C5_count_is_number_of_pointing_readers 5 attach_detach_run).
    + by left.
    + vm_compute. reflexivity.
    + vm_compute. eexists. reflexivity.
Defined.









End SharedFacts.

(** ** Facts about the exclusive-lock policy *)

Module ExclusiveFacts.
Import Exclusive ExclusiveSpec.

Lemma excl_child_ok c s cd : children s !! c = Some cd → child c s = Returns cd s.
Proof. unfold child. by intros ->. Qed.
Lemma excl_owner_ok o s od : owners s !! o = Some od → owner o s = Returns od s.
Proof. unfold owner. by intros ->. Qed.
Lemma excl_upd_child_ok c f s cd :
  children s !! c = Some cd →
  upd_child c f s = Returns () (set_children (insert c (f cd)) s).
Proof. unfold upd_child. by intros ->. Qed.
Lemma excl_upd_owner_ok o f s od :
  owners s !! o = Some od →
  upd_owner o f s = Returns () (set_owners (insert o (f od)) s).
Proof. unfold upd_owner. by intros ->. Qed.

Lemma excl_owner_Returns o s od s' :
  owner o s = Returns od s' ↔ owners s !! o = Some od ∧ s' = s.
Proof.
  unfold owner. destruct (owners s !! o); split; intros H;
    try (inversion H; subst; done); destruct H as [H ->]; by inversion H.
Qed.
Lemma excl_upd_owner_Returns o f s u s' :
  upd_owner o f s = Returns u s' ↔
  ∃ od, owners s !! o = Some od ∧ s' = set_owners (insert o (f od)) s.
Proof.
  unfold upd_owner. destruct (owners s !! o) as [od|]; split; intros H.
  - inversion H; subst. eauto.
  - destruct H as (od' & [= <-] & ->). by destruct u.
  - done.
  - by destruct H as (? & ? & _).
Qed.
Lemma excl_omutex_lock_ok o s od :
  owners s !! o = Some od → o_mutex_ od = false →
  omutex_lock o s = Returns () (set_owners (insert o (with_omutex true od)) s).
Proof.
  intros Ho Hm. unfold omutex_lock. rewrite (bind_step _ _ _ _ _ (excl_owner_ok _ _ _ Ho)).
  rewrite Hm. by apply excl_upd_owner_ok.
Qed.
Lemma excl_omutex_lock_Returns o s u s' :
  omutex_lock o s = Returns u s' →
  ∃ od, owners s !! o = Some od ∧ o_mutex_ od = false ∧
        s' = set_owners (insert o (with_omutex true od)) s.
Proof.
  unfold omutex_lock. intros H.
  apply bind_Returns in H as (od & ? & [Ho ->]%excl_owner_Returns & H).
  destruct (o_mutex_ od) eqn:E; [done|].
  apply excl_upd_owner_Returns in H as (od' & Ho' & ->). exists od. by simplify_eq.
Qed.

(** *** [lock] and the owner's mutex *)

Lemma excl_cmutex_lock_ok c s cd :
  children s !! c = Some cd → c_mutex_ cd = false →
  cmutex_lock c s = Returns () (set_children (insert c (with_cmutex true cd)) s).
Proof.
  intros Hc Hm. unfold cmutex_lock. rewrite (bind_step _ _ _ _ _ (excl_child_ok _ _ _ Hc)).
  rewrite Hm. by apply excl_upd_child_ok.
Qed.

Lemma excl_lock_effect c s cd o od :
  children s !! c = Some cd → c_mutex_ cd = false →
  c_parent_ cd = Some o → owners s !! o = Some od →
  lock c s = Returns (o_value_ od)
               (set_children (insert c (mk_child true (Some o) true)) s).
Proof.
  intros Hc Hm Hp Ho. unfold lock.
  rewrite (bind_step _ _ _ _ _ (excl_cmutex_lock_ok _ _ _ Hc Hm)).
  unfold lock_.
  erewrite (bind_step (child c)); last first.
  { apply excl_child_ok. simpl. apply lookup_insert_eq. }
  simpl. rewrite Hp.
  erewrite (bind_step (upd_child _ _)); last first.
  { apply excl_upd_child_ok. simpl. apply lookup_insert_eq. }
  erewrite (bind_step (owner o)) by (by apply excl_owner_ok).
  unfold mret, M_ret, set_children, with_locked, with_cmutex. simpl.
  by rewrite insert_insert_eq, Hp.
Qed.

(** C9 (the code does not do this): [lock()] takes the child's own
    mutex only.  Two children of one owner can both have [lock()] return
    the owner's value with no [unlock()] in between, and the owner's
    mutex is not held after either call. *)
Theorem C9_lock_leaves_owner_mutex_free
    (c1 c2 : rid) (o : oid) (s : state) (cd1 cd2 : child_ptr) (od : owned_ptr) :
  c1 ≠ c2 →
  children s !! c1 = Some cd1 → c_mutex_ cd1 = false → c_parent_ cd1 = Some o →
  children s !! c2 = Some cd2 → c_mutex_ cd2 = false → c_parent_ cd2 = Some o →
  owners s !! o = Some od →
  ∃ s1 s2,
    lock c1 s = Returns (o_value_ od) s1 ∧
    lock c2 s1 = Returns (o_value_ od) s2 ∧
    owners s1 = owners s ∧ owners s2 = owners s ∧
    children s2 !! c1 = Some (mk_child true (Some o) true) ∧
    children s2 !! c2 = Some (mk_child true (Some o) true).
Proof.
  intros Hne Hc1 Hm1 Hp1 Hc2 Hm2 Hp2 Ho.
  eexists _, _. split; [by eapply excl_lock_effect|].
  split.
  { eapply excl_lock_effect; try done. simpl. by rewrite lookup_insert_ne. }
  simpl. split; [done|]. split; [done|].
  split; [by rewrite lookup_insert_ne, lookup_insert_eq|by rewrite lookup_insert_eq].
Qed.

Lemma C9_witness :
  (10 ≠ 11 ∧
   children two_children_state !! 10 = Some (mk_child false (Some 1) false) ∧
   children two_children_state !! 11 = Some (mk_child false (Some 1) false) ∧
   owners two_children_state !! 1 = Some (mk_owner false (Some 3) [10; 11])) ∧
  ∃ s1 s2,
    lock 10 two_children_state = Returns (Some 3) s1 ∧
    lock 11 s1 = Returns (Some 3) s2 ∧
    owners s1 = owners two_children_state ∧
    owners s2 = owners two_children_state ∧
    children s2 !! 10 = Some (mk_child true (Some 1) true) ∧
    children s2 !! 11 = Some (mk_child true (Some 1) true).
Proof.
  split.
  - split; [done|]. repeat split; vm_compute; reflexivity.
  - apply (C9_lock_leaves_owner_mutex_free 10 11 1 two_children_state
             (mk_child false (Some 1) false) (mk_child false (Some 1) false)
             (mk_owner false (Some 3) [10; 11])); try done; vm_compute; reflexivity.
Defined.

(** *** [try_lock] and its deadline *)

Lemma cmutex_try_lock_held c s cd :
  children s !! c = Some cd → c_mutex_ cd = true →
  cmutex_try_lock c s = Returns false s.
Proof.
  intros Hc Hm. unfold cmutex_try_lock.
  rewrite (bind_step _ _ _ _ _ (excl_child_ok _ _ _ Hc)). by rewrite Hm.
Qed.

Lemma try_lock_loop_past_deadline clock fuel k now timeout c s cd :
  children s !! c = Some cd → c_mutex_ cd = true →
  (∀ j, k ≤ j → (time_t_add now timeout < clock j)%Z) →
  try_lock_loop clock fuel k now timeout c s = Hangs.
Proof.
  intros Hc Hm. revert k. induction fuel as [|fuel IH]; intros k Hk; [done|].
  simpl. rewrite (bind_step _ _ _ _ _ (cmutex_try_lock_held _ _ _ Hc Hm)).
  rewrite decide_True by (apply Hk; lia). apply IH. intros j Hj. apply Hk. lia.
Qed.

Lemma try_lock_loop_before_deadline clock fuel k now timeout c s cd :
  children s !! c = Some cd → c_mutex_ cd = true →
  (clock k ≤ time_t_add now timeout)%Z →
  try_lock_loop clock (S fuel) k now timeout c s = Returns nullptr s.
Proof.
  intros Hc Hm Hk. simpl.
  rewrite (bind_step _ _ _ _ _ (cmutex_try_lock_held _ _ _ Hc Hm)).
  rewrite decide_False by lia. done.
Qed.

(** A sum that stays in the range of [time_t] is the sum of the integers. *)
Lemma time_t_add_in_range a b : in_time_t (a + b) → time_t_add a b = (a + b)%Z.
Proof.
  unfold in_time_t, time_t_add. intros H.
  rewrite Z.mod_small by lia. lia.
Qed.

Lemma time_t_add_is_time_t a b : in_time_t (time_t_add a b).
Proof.
  unfold in_time_t, time_t_add.
  pose proof (Z.mod_pos_bound (a + b + 2 ^ 63) (2 ^ 64)) as H. lia.
Qed.

(** With the largest timeout the deadline wraps around to a time before
    any reading of a clock that has passed 1970: the call on a held mutex
    spins. *)
Lemma try_lock_largest_timeout_spins clock c s cd :
  children s !! c = Some cd → c_mutex_ cd = true →
  (∀ k, 0 < clock k < 2 ^ 63)%Z →
  never_returns (λ fuel, try_lock clock fuel (2 ^ 63 - 1) c) s.
Proof.
  intros Hc Hm Hclock fuel. unfold try_lock.
  eapply try_lock_loop_past_deadline; [done..|].
  intros j _. pose proof (Hclock 0) as H0. pose proof (Hclock j) as Hj.
  unfold time_t_add.
  replace (clock 0%nat + (2 ^ 63 - 1) + 2 ^ 63)%Z
    with (clock 0%nat - 1 + 1 * 2 ^ 64)%Z by lia.
  rewrite Z.mod_add by lia. rewrite Z.mod_small by lia. lia.
Qed.

(** C7 (the code has the comparison the wrong way round): the loop
    of [try_lock] goes on while [now + timeout < time(nullptr)], that is,
    while the deadline HAS passed.  For clock readings and a timeout in
    the range of [time_t], with the child's mutex held: if the clock is
    past the deadline, as [time_t] computes it, at every later reading,
    the call never returns; if the second reading is still within the
    budget, the call gives up after its first attempt. *)
Theorem C7_try_lock_deadline_inverted
    (clock : nat → Z) (timeout : Z) (c : rid) (s : state) (cd : child_ptr) :
  children s !! c = Some cd →
  c_mutex_ cd = true →
  (∀ k, in_time_t (clock k)) →
  in_time_t timeout →
  ((∀ j, 1 ≤ j → (time_t_add (clock 0%nat) timeout < clock j)%Z) →
     never_returns (λ fuel, try_lock clock fuel timeout c) s) ∧
  ((clock 1%nat ≤ time_t_add (clock 0%nat) timeout)%Z →
     ∀ fuel, try_lock clock (S fuel) timeout c s = Returns nullptr s).
Proof.
  intros Hc Hm _ _. split.
  - intros Hk fuel. unfold try_lock. by eapply try_lock_loop_past_deadline.
  - intros Hk fuel. unfold try_lock. by eapply try_lock_loop_before_deadline.
Qed.

Lemma C7_witness :
  (children child_locked_state !! 10 = Some (mk_child true (Some 1) true) ∧
   c_mutex_ (mk_child true (Some 1) true) = true ∧
   (∀ k, in_time_t (clock_tick k)) ∧ in_time_t 0 ∧
   (∀ j, 1 ≤ j → (time_t_add (clock_tick 0%nat) 0 < clock_tick j)%Z)) ∧
  never_returns (λ fuel, try_lock clock_tick fuel 0 10) child_locked_state.
Proof.
  assert (Hrange : ∀ k, in_time_t (clock_tick k)).
  { intros [|k]; unfold in_time_t; simpl; lia. }
  assert (H0 : in_time_t 0) by (unfold in_time_t; lia).
  assert (Hclock : ∀ j, 1 ≤ j → (time_t_add (clock_tick 0%nat) 0 < clock_tick j)%Z).
  { intros [|j] Hj; [lia|]. vm_compute. reflexivity. }
  split.
  - split; [vm_compute; reflexivity|]. split; [reflexivity|]. by split_and!.
  - apply (C7_try_lock_deadline_inverted clock_tick 0 10 child_locked_state
             (mk_child true (Some 1) true)); [vm_compute; reflexivity|reflexivity|done..].
Defined.

(** *** The registry search of [remove_] *)

Lemma excl_remove_loop_other fuel o c s od c' rest :
  owners s !! o = Some od → o_children_ od = c' :: rest → c' ≠ c →
  remove_loop fuel o c s = Hangs.
Proof.
  intros Ho Hc Hne. induction fuel as [|fuel IH]; [done|]. simpl.
  rewrite (bind_step _ _ _ _ _ (excl_owner_ok _ _ _ Ho)).
  rewrite Hc. by rewrite decide_False.
Qed.

Lemma excl_remove__other fuel o c s od c' rest :
  owners s !! o = Some od → o_mutex_ od = false →
  o_children_ od = c' :: rest → c' ≠ c →
  remove_ fuel o c s = Hangs.
Proof.
  intros Ho Hm Hc Hne. unfold remove_.
  rewrite (bind_step _ _ _ _ _ (excl_omutex_lock_ok _ _ _ Ho Hm)).
  apply bind_Hangs_l.
  eapply excl_remove_loop_other with (od := with_omutex true od); [|done..].
  simpl. apply lookup_insert_eq.
Qed.

Lemma excl_remove__front_or_empty o c s od :
  owners s !! o = Some od → o_mutex_ od = false →
  o_children_ od = [] ∨ head (o_children_ od) = Some c →
  ∃ s', remove_ 1 o c s = Returns () s'.
Proof.
  intros Ho Hm Hc. unfold remove_.
  rewrite (bind_step _ _ _ _ _ (excl_omutex_lock_ok _ _ _ Ho Hm)).
  assert (∃ s2 od2, remove_loop 1 o c (set_owners (insert o (with_omutex true od)) s)
                    = Returns () s2 ∧ owners s2 !! o = Some od2) as (s2 & od2 & Hl & Ho2).
  { simpl. erewrite (bind_step (owner o)); last first.
    { apply excl_owner_ok. simpl. apply lookup_insert_eq. }
    simpl. destruct (o_children_ od) as [|c' rest].
    - eexists _, _. split; [done|]. simpl. apply lookup_insert_eq.
    - destruct Hc as [?|[= ->]]; [done|]. rewrite decide_True by done.
      eexists _, _. split.
      + apply excl_upd_owner_ok. simpl. apply lookup_insert_eq.
      + simpl. apply lookup_insert_eq. }
  rewrite (bind_step _ _ _ _ _ Hl). eexists. by apply excl_upd_owner_ok.
Qed.

Lemma excl_remove__Returns fuel o c s u s' :
  remove_ fuel o c s = Returns u s' →
  ∃ od, owners s !! o = Some od ∧
        (o_children_ od = [] ∨ head (o_children_ od) = Some c).
Proof.
  unfold remove_. intros H.
  apply bind_Returns in H as (? & s1 & (od & Ho & Hm & ->)%excl_omutex_lock_Returns & H).
  apply bind_Returns in H as (? & s2 & Hloop & _).
  exists od. split; [done|].
  destruct (o_children_ od) as [|c' rest] eqn:Hc; [by left|right].
  destruct (decide (c' = c)) as [->|Hne]; [done|].
  assert (remove_loop fuel o c (set_owners (insert o (with_omutex true od)) s) = Hangs)
    as Hh; [|congruence].
  eapply excl_remove_loop_other with (od := with_omutex true od); [|exact Hc|done].
  simpl. apply lookup_insert_eq.
Qed.

End ExclusiveFacts.

(** ** The registry search, in both policies *)

Module RegistrySearch.

(** C10, as the code has it: the search loops of [remove_] and
    [replace_] never advance past the front entry.  Called with the
    owner's mutex free, [replace_] and the exclusive [remove_] return
    exactly when the registry is empty or its front entry is the reader
    sought; the shared [remove_] returns on an empty registry and
    otherwise can only return when the front entry is the reader sought
    (it then still has its wait on that reader to get through); and in all
    three, a registry whose front entry is another reader makes the call
    go round for ever. *)
Theorem C10_search_stays_at_front
    (s : Shared.state) (o : oid) (od : Shared.owned_ptr) (sought w : rid)
    (s2 : Exclusive.state) (o2 : oid) (od2 : Exclusive.owned_ptr) (sought2 : rid) :
  Shared.owners s !! o = Some od → Shared.o_mutex_ od = false →
  Exclusive.owners s2 !! o2 = Some od2 → Exclusive.o_mutex_ od2 = false →
  (terminates (λ fuel, Shared.replace_ fuel o sought w) s ↔
     Shared.o_children_ od = [] ∨ head (Shared.o_children_ od) = Some sought) ∧
  (terminates (λ fuel, Exclusive.remove_ fuel o2 sought2) s2 ↔
     Exclusive.o_children_ od2 = [] ∨ head (Exclusive.o_children_ od2) = Some sought2) ∧
  (terminates (λ fuel, Shared.remove_ fuel o sought) s →
     Shared.o_children_ od = [] ∨ head (Shared.o_children_ od) = Some sought) ∧
  (Shared.o_children_ od = [] → terminates (λ fuel, Shared.remove_ fuel o sought) s) ∧
  (∀ c rest, Shared.o_children_ od = c :: rest → c ≠ sought →
     never_returns (λ fuel, Shared.remove_ fuel o sought) s ∧
     never_returns (λ fuel, Shared.replace_ fuel o sought w) s) ∧
  (∀ c rest, Exclusive.o_children_ od2 = c :: rest → c ≠ sought2 →
     never_returns (λ fuel, Exclusive.remove_ fuel o2 sought2) s2).
Proof.
  intros Ho Hm Ho2 Hm2.
  split; [split|split; [split|split; [|split; [|split]]]].
  - intros (fuel & [] & s' & H).
    apply SharedFacts.replace__Returns in H as (od' & Ho' & _ & Hcase).
    simplify_eq. destruct Hcase as [[Hc _]|(rest & Hc & _)]; [by left|right].
    by rewrite Hc.
  - intros [Hc|Hc].
    + exists 1, (), s. by eapply SharedFacts.replace__empty.
    + destruct (Shared.o_children_ od) as [|c rest] eqn:E; [done|].
      injection Hc as ->. eexists 1, (), _. by eapply SharedFacts.replace__front.
  - intros (fuel & [] & s' & H).
    apply ExclusiveFacts.excl_remove__Returns in H as (od' & Ho' & Hcase). by simplify_eq.
  - intros Hc. destruct (ExclusiveFacts.excl_remove__front_or_empty o2 sought2 s2 od2)
      as (s' & H); try done. by exists 1, (), s'.
  - intros (fuel & [] & s' & H).
    apply SharedFacts.remove__effect in H as (od' & Ho' & _ & _ & _ & _ & Hcase).
    simplify_eq. destruct Hcase as [Hc|(rd & Hh & _)]; [by left|by right].
  - intros Hc. exists 1, (), s. by eapply SharedFacts.remove__empty.
  - intros c rest Hc Hne. split; intros fuel.
    + by eapply SharedFacts.remove__other.
    + by eapply SharedFacts.replace__other.
  - intros c rest Hc Hne fuel. by eapply ExclusiveFacts.excl_remove__other.
Qed.

Lemma C10_witness :
  (Shared.owners SharedSpec.two_readers_state !! 1 = Some (Shared.mk_owner false (Some 7) [10; 11] []) ∧
   Exclusive.owners ExclusiveSpec.two_children_state !! 1 =
     Some (Exclusive.mk_owner false (Some 3) [10; 11])) ∧
  never_returns (λ fuel, Shared.remove_ fuel 1 11) SharedSpec.two_readers_state ∧
  never_returns (λ fuel, Shared.replace_ fuel 1 11 12) SharedSpec.two_readers_state ∧
  never_returns (λ fuel, Exclusive.remove_ fuel 1 11) ExclusiveSpec.two_children_state ∧
  terminates (λ fuel, Exclusive.remove_ fuel 1 10) ExclusiveSpec.two_children_state.
Proof.
  assert (H1 : Shared.owners SharedSpec.two_readers_state !! 1
               = Some (Shared.mk_owner false (Some 7) [10; 11] []))
    by (vm_compute; reflexivity).
  assert (H2 : Exclusive.owners ExclusiveSpec.two_children_state !! 1
               = Some (Exclusive.mk_owner false (Some 3) [10; 11]))
    by (vm_compute; reflexivity).
  split; [by split|].
  pose proof (C10_search_stays_at_front SharedSpec.two_readers_state 1 _ 11 12
                ExclusiveSpec.two_children_state 1 _ 11 H1 eq_refl H2 eq_refl)
    as (_ & _ & _ & _ & Hs & He).
  pose proof (C10_search_stays_at_front SharedSpec.two_readers_state 1 _ 11 12
                ExclusiveSpec.two_children_state 1 _ 10 H1 eq_refl H2 eq_refl)
    as (_ & Ht & _).
  destruct (Hs 10 [11] eq_refl) as [Hs1 Hs2]; [done|].
  split; [exact Hs1|]. split; [exact Hs2|].
  split; [by apply (He 10 [11])|].
  apply Ht. by right.
Defined.

(** For the shared [remove_] the equivalence of C10 fails: reader 10 is
    the front (and only) entry of owner 1's registry, and is not locked;
    the call never returns. *)
Lemma C10_counterexample :
  Shared.owners SharedSpec.attached_reader_state !! 1
    = Some (Shared.mk_owner false (Some 7) [10] []) ∧
  ¬ (terminates (λ fuel, Shared.remove_ fuel 1 10) SharedSpec.attached_reader_state ↔
     ([10] = @nil rid ∨ head [10] = Some 10)).
Proof.
  split; [vm_compute; reflexivity|].
  intros [_ H]. revert H. intros H.
  assert (Hn : ¬ terminates (λ fuel, Shared.remove_ fuel 1 10)
                   SharedSpec.attached_reader_state).
  { apply terminates_not_never. intros fuel.
    eapply SharedFacts.remove__unlocked with (rest := []);
      try (vm_compute; reflexivity). }
  apply Hn, H. by right.
Qed.

End RegistrySearch.

(** ** The calls of the shared-read policy, one by one and in sequence *)

Module SharedCalls.
Import Shared SharedSpec SharedFacts.

(** *** Forward execution *)

Lemma rmutex_lock_free r s rd :
  readers s !! r = Some rd → r_mutex_ rd = false →
  rmutex_lock r s = Returns () (set_readers (insert r (with_rmutex true rd)) s).
Proof. intros. apply rmutex_lock_Returns. eauto. Qed.

Lemma omutex_lock_blocked o s od :
  owners s !! o = Some od → o_mutex_ od = true → omutex_lock o s = Hangs.
Proof.
  intros H E. unfold omutex_lock. rewrite (bind_step _ _ _ _ _ (owner_ok _ _ _ H)).
  by rewrite E.
Qed.

Lemma rmutex_lock_blocked r s rd :
  readers s !! r = Some rd → r_mutex_ rd = true → rmutex_lock r s = Hangs.
Proof.
  intros H E. unfold rmutex_lock. rewrite (bind_step _ _ _ _ _ (reader_ok _ _ _ H)).
  by rewrite E.
Qed.

Ltac look :=
  simpl;
  repeat first [rewrite lookup_insert_eq | rewrite lookup_insert_ne by done];
  try done.

(** One call of the program in the goal. *)
Ltac sstep :=
  lazymatch goal with
  | |- (reader _ ≫= _) _ = _ => eapply bind_ok; [apply reader_ok; look|]
  | |- (owner _ ≫= _) _ = _ => eapply bind_ok; [apply owner_ok; look|]
  | |- (upd_reader _ _ ≫= _) _ = _ => eapply bind_ok; [apply upd_reader_ok; look|]
  | |- (upd_owner _ _ ≫= _) _ = _ => eapply bind_ok; [apply upd_owner_ok; look|]
  | |- (rmutex_lock _ ≫= _) _ = _ => eapply bind_ok; [eapply rmutex_lock_free; look|]
  | |- (rmutex_unlock _ ≫= _) _ = _ => eapply bind_ok; [eapply upd_reader_ok; look|]
  | |- (omutex_lock _ ≫= _) _ = _ => eapply bind_ok; [eapply omutex_lock_ok; look|]
  | |- (omutex_unlock _ ≫= _) _ = _ => eapply bind_ok; [eapply upd_owner_ok; look|]
  | |- (delete_value _ ≫= _) _ = _ => eapply bind_ok; [reflexivity|]
  | |- (get_state ≫= _) _ = _ => eapply bind_ok; [reflexivity|]
  | |- (new_reader _ ≫= _) _ = _ => eapply bind_ok; [unfold new_reader; look|]
  | |- upd_reader _ _ _ = _ => etrans; [apply upd_reader_ok; look|]
  | |- upd_owner _ _ _ = _ => etrans; [apply upd_owner_ok; look|]
  | |- rmutex_unlock _ _ = _ => etrans; [eapply upd_reader_ok; look|]
  | |- omutex_unlock _ _ = _ => etrans; [eapply upd_owner_ok; look|]
  end.

(** *** [get] *)

Lemma set_owner__fresh fuel r o s rd :
  readers s !! r = Some rd → r_mutex_ rd = false → r_parent_ rd = None →
  set_owner_ fuel r (Some o) s = Returns () (set_readers (insert r (with_parent (Some o) rd)) s).
Proof.
  intros Hr Hm Hp. unfold set_owner_. sstep. sstep. simpl. rewrite Hp.
  eapply (bind_ok _ _ _ ()); [reflexivity|]. sstep. sstep. f_equal.
  unfold set_readers. simpl. rewrite !insert_insert_eq. f_equal. f_equal.
  by apply with_rmutex_parent.
Qed.

Lemma remove__front fuel o r s od rest rd :
  owners s !! o = Some od → o_mutex_ od = false → o_children_ od = r :: rest →
  readers s !! r = Some rd → r_locked_ rd ≠ nullptr →
  remove_ (S (S fuel)) o r s = Returns () (set_owners (insert o (with_children rest od)) s).
Proof.
  intros Ho Hm Hc Hr Hl. unfold remove_. sstep.
  eapply (bind_ok _ _ _ ()).
  { simpl. sstep. simpl. rewrite Hc, decide_True by done.
    eapply (bind_ok _ _ _ ()).
    { sstep. rewrite decide_False by done. reflexivity. }
    sstep. reflexivity. }
  sstep. f_equal. unfold set_owners. simpl. rewrite !insert_insert_eq.
  by rewrite with_omutex_children.
Qed.

Lemma set_owner__front fuel r o p s rd pd rest :
  readers s !! r = Some rd → r_mutex_ rd = false → r_parent_ rd = Some p →
  owners s !! p = Some pd → o_mutex_ pd = false → o_children_ pd = r :: rest →
  r_locked_ rd ≠ nullptr →
  set_owner_ (S (S fuel)) r (Some o) s
  = Returns () (mk_state (<[p := with_children rest pd]> (owners s))
                         (<[r := with_parent (Some o) rd]> (readers s)) (freed s)).
Proof.
  intros Hr Hm Hp Hpd Hpm Hc Hl. unfold set_owner_. sstep. sstep. simpl. rewrite Hp.
  eapply (bind_ok _ _ _ ()).
  { eapply (remove__front fuel p r _ pd rest (with_rmutex true rd)); look. }
  sstep. sstep. f_equal.
  unfold set_readers, set_owners. simpl. rewrite !insert_insert_eq. f_equal. f_equal.
  by apply with_rmutex_parent.
Qed.

Lemma get_tail o r od s1 :
  owners s1 !! o = Some (with_omutex true od) → o_mutex_ od = false →
  (od' ← owner o;
   upd_owner o (with_children (o_children_ od' ++ [r]));;
   omutex_unlock o) s1
  = Returns () (set_owners (insert o (with_children (o_children_ od ++ [r]) od)) s1).
Proof.
  intros Ho Hm. sstep. sstep. sstep. f_equal.
  unfold set_owners. simpl. rewrite !insert_insert_eq. by rewrite with_omutex_children.
Qed.

Lemma get_fresh fuel o r s od rd :
  owners s !! o = Some od → o_mutex_ od = false →
  readers s !! r = Some rd → r_mutex_ rd = false → r_parent_ rd = None →
  get fuel o r s = Returns () (after_get o od r rd s).
Proof.
  intros Ho Hm Hr Hrm Hp. unfold get. sstep. sstep. sstep.
  eapply (bind_ok _ _ _ ()).
  { eapply (set_owner__fresh fuel r o _ (with_value (o_value_ od) rd)); look. }
  etrans; [apply (get_tail o r od); [look|done]|]. f_equal.
  unfold after_get, set_owners, set_readers, attached_to. simpl.
  rewrite !insert_insert_eq. f_equal. f_equal.
  destruct rd; simpl in *; by subst.
Qed.

(** X1: [owner->get(reader)] on a reader without owner, with the mutexes of
    owner and reader free, returns.  The reader is appended to the
    registry and has the owner's value and the owner as [parent_];
    nothing else changes.  [count()] has grown by one and [lock()] on the
    reader returns the owner's value. *)
Theorem X1_get_attaches_reader_without_owner
    (fuel : nat) (o : oid) (r : rid) (s : state) (od : owned_ptr) (rd : reader_ptr) :
  owners s !! o = Some od → o_mutex_ od = false →
  readers s !! r = Some rd → r_mutex_ rd = false → r_parent_ rd = None →
  get fuel o r s = Returns () (after_get o od r rd s) ∧
  count o (after_get o od r rd s) =
    Returns (S (length (o_children_ od))) (after_get o od r rd s) ∧
  lock r (after_get o od r rd s) =
    Returns (o_value_ od)
      (set_readers (insert r (with_locked (o_value_ od) (attached_to o od rd)))
         (after_get o od r rd s)).
Proof.
  intros Ho Hm Hr Hrm Hp. split; [by apply get_fresh|]. split.
  - erewrite count_ok; [|simpl; apply lookup_insert_eq|by destruct od].
    simpl. f_equal. rewrite length_app. simpl. lia.
  - apply (lock_ok r _ (attached_to o od rd)). simpl. apply lookup_insert_eq.
Qed.

Lemma X1_witness :
  (owners lone_reader_state !! 1 = Some (mk_owner false (Some 7) [] []) ∧
   readers lone_reader_state !! 10 = Some (mk_reader nullptr nullptr false None)) ∧
  get 0 1 10 lone_reader_state =
    Returns () (after_get 1 (mk_owner false (Some 7) [] []) 10
                  (mk_reader nullptr nullptr false None) lone_reader_state).
Proof.
  split; [split; vm_compute; reflexivity|].
  apply (X1_get_attaches_reader_without_owner 0 1 10 lone_reader_state);
    vm_compute; reflexivity.
Defined.

(** X2: [owner->get(reader)] on a reader that is already attached to this
    owner never returns: [get] holds the owner's mutex when
    [set_owner_] calls [remove_] on the same owner, which locks the mutex
    again. *)
Theorem X2_get_on_own_owner_never_returns
    (o : oid) (r : rid) (s : state) (od : owned_ptr) (rd : reader_ptr) :
  owners s !! o = Some od → readers s !! r = Some rd → r_parent_ rd = Some o →
  never_returns (λ fuel, get fuel o r) s.
Proof.
  intros Ho Hr Hp fuel. unfold get.
  destruct (o_mutex_ od) eqn:Hm.
  { apply bind_Hangs_l. by eapply omutex_lock_blocked. }
  sstep. sstep. sstep. apply bind_Hangs_l. unfold set_owner_.
  destruct (r_mutex_ rd) eqn:Hrm.
  { apply bind_Hangs_l. eapply (rmutex_lock_blocked r _ (with_value _ rd)); look. }
  eapply bind_ok; [eapply (rmutex_lock_free r _ (with_value _ rd)); look|].
  sstep. simpl. rewrite Hp. apply bind_Hangs_l. unfold remove_. apply bind_Hangs_l.
  eapply (omutex_lock_blocked o _ (with_omutex true od)); look.
Qed.

Lemma X2_witness :
  (owners attached_reader_state !! 1 = Some (mk_owner false (Some 7) [10] []) ∧
   readers attached_reader_state !! 10 = Some (mk_reader (Some 7) nullptr false (Some 1))) ∧
  never_returns (λ fuel, get fuel 1 10) attached_reader_state.
Proof.
  split; [split; vm_compute; reflexivity|].
  apply (X2_get_on_own_owner_never_returns 1 10 attached_reader_state
           (mk_owner false (Some 7) [10] []) (mk_reader (Some 7) nullptr false (Some 1)));
    vm_compute; reflexivity.
Defined.

Lemma get_front fuel o p r s od pd rd rest :
  p ≠ o → owners s !! o = Some od → o_mutex_ od = false →
  owners s !! p = Some pd → o_mutex_ pd = false → o_children_ pd = r :: rest →
  readers s !! r = Some rd → r_mutex_ rd = false → r_parent_ rd = Some p →
  r_locked_ rd ≠ nullptr →
  get (S (S fuel)) o r s
  = Returns () (after_get o od r rd (set_owners (insert p (with_children rest pd)) s)).
Proof.
  intros Hne Ho Hm Hpd Hpm Hc Hr Hrm Hp Hl. unfold get. sstep. sstep. sstep.
  eapply (bind_ok _ _ _ ()).
  { eapply (set_owner__front fuel r o p _ (with_value (o_value_ od) rd) pd rest); look. }
  etrans; [apply (get_tail o r od); [look|done]|]. f_equal.
  unfold after_get, set_owners, set_readers, attached_to. simpl.
  rewrite !insert_insert_eq. f_equal.
  - rewrite (insert_insert_ne _ p o) by done. by rewrite insert_insert_eq.
  - f_equal. destruct rd; simpl in *; by subst.
Qed.

(** X3: [owner->get(reader)] on a reader that is the front entry of
    another owner's registry, with all mutexes involved free.  While the
    reader is locked the call hands it over: the entry moves to the back
    of the new owner's registry, the reader's [value_] and [parent_] are
    the new owner's, and its [locked_] still holds what it had locked, so
    the reader sees the new value only after its next [lock()].  While
    the reader is not locked the call never returns. *)
Theorem X3_get_hands_over_locked_reader
    (o p : oid) (r : rid) (s : state) (od pd : owned_ptr) (rd : reader_ptr)
    (rest : list rid) :
  p ≠ o → owners s !! o = Some od → o_mutex_ od = false →
  owners s !! p = Some pd → o_mutex_ pd = false → o_children_ pd = r :: rest →
  readers s !! r = Some rd → r_mutex_ rd = false → r_parent_ rd = Some p →
  (r_locked_ rd ≠ nullptr →
     ∀ fuel, get (S (S fuel)) o r s =
       Returns () (mk_state (<[o := with_children (o_children_ od ++ [r]) od]>
                               (<[p := with_children rest pd]> (owners s)))
                            (<[r := mk_reader (o_value_ od) (r_locked_ rd) false (Some o)]>
                               (readers s))
                            (freed s))) ∧
  (r_locked_ rd = nullptr → never_returns (λ fuel, get fuel o r) s).
Proof.
  intros Hne Ho Hm Hpd Hpm Hc Hr Hrm Hp. split.
  - intros Hl fuel. by erewrite get_front.
  - intros Hl fuel. unfold get. sstep. sstep. sstep. apply bind_Hangs_l.
    unfold set_owner_.
    eapply bind_ok; [eapply (rmutex_lock_free r _ (with_value _ rd)); look|].
    sstep. simpl. rewrite Hp. apply bind_Hangs_l.
    eapply (remove__unlocked fuel p r _ pd rest
              (with_rmutex true (with_value (o_value_ od) rd))); look.
Qed.

Lemma X3_witness :
  (owners two_owners_state !! 2 = Some (mk_owner false (Some 8) [] []) ∧
   owners two_owners_state !! 1 = Some (mk_owner false (Some 7) [10] []) ∧
   readers two_owners_state !! 10 = Some (mk_reader (Some 7) (Some 7) false (Some 1))) ∧
  get 2 2 10 two_owners_state =
    Returns () (mk_state (<[2 := mk_owner false (Some 8) [10] []]>
                            (<[1 := mk_owner false (Some 7) [] []]> (owners two_owners_state)))
                         (<[10 := mk_reader (Some 8) (Some 7) false (Some 2)]>
                            (readers two_owners_state))
                         (freed two_owners_state)).
Proof.
  split; [split_and!; vm_compute; reflexivity|].
  destruct (X3_get_hands_over_locked_reader 2 1 10 two_owners_state
              (mk_owner false (Some 8) [] []) (mk_owner false (Some 7) [10] [])
              (mk_reader (Some 7) (Some 7) false (Some 1)) []) as [H _];
    [first [done | vm_compute; reflexivity] ..|].
  apply (H ltac:(done) 0).
Defined.

(** *** The copy constructor *)

(** X4: copy construction, at a free address, from a reader whose mutex is
    free.  From a reader attached to an owner whose mutex is free it
    gives a reader attached to the same owner, at the back of its
    registry, with the owner's value and not locked; the source and
    everything else is as before.  From a reader without owner it gives a
    reader without owner. *)
Theorem X4_copy_reader_shares_owner
    (fuel : nat) (r other : rid) (s : state) (rd : reader_ptr) :
  readers s !! r = None → readers s !! other = Some rd → r_mutex_ rd = false →
  (∀ p pd, r_parent_ rd = Some p → owners s !! p = Some pd → o_mutex_ pd = false →
     copy_reader fuel r other s =
       Returns () (mk_state (<[p := with_children (o_children_ pd ++ [r]) pd]> (owners s))
                            (<[r := mk_reader (o_value_ pd) nullptr false (Some p)]>
                               (readers s))
                            (freed s))) ∧
  (r_parent_ rd = None →
     copy_reader fuel r other s =
       Returns () (set_readers (insert r (mk_reader nullptr nullptr false None)) s)).
Proof.
  intros Hfresh Hr Hrm.
  assert (other ≠ r) as Hne by (intros ->; congruence).
  assert (Hback : ∀ (x : reader_ptr) (m : gmap rid reader_ptr),
            m !! other = Some rd →
            <[other := with_rmutex false (with_rmutex true rd)]>
              (<[r := x]> (<[other := with_rmutex true rd]> m)) = <[r := x]> m).
  { intros x m Hm. apply map_eq. intros k.
    destruct (decide (k = other)) as [->|Hk].
    - rewrite lookup_insert_eq, lookup_insert_ne, Hm by done. f_equal.
      destruct rd; simpl in *; by subst.
    - rewrite lookup_insert_ne by done. destruct (decide (k = r)) as [->|Hkr].
      + by rewrite !lookup_insert_eq.
      + by rewrite !lookup_insert_ne. }
  split.
  - intros p pd Hp Hpd Hpm. unfold copy_reader. sstep; [by rewrite Hfresh|].
    sstep. sstep. simpl. rewrite Hp.
    eapply (bind_ok _ _ _ ()).
    { eapply (get_fresh fuel p r _ pd (mk_reader nullptr nullptr false None)); look. }
    sstep. f_equal. unfold after_get, set_readers, attached_to. simpl. f_equal.
    rewrite Hback; [by rewrite insert_insert_eq|]. by rewrite lookup_insert_ne.
  - intros Hp. unfold copy_reader. sstep; [by rewrite Hfresh|].
    sstep. sstep. simpl. rewrite Hp.
    eapply (bind_ok _ _ _ ()); [reflexivity|].
    sstep. f_equal. unfold set_readers. simpl. f_equal.
    assert (<[other := with_rmutex false (with_rmutex true rd)]>
              (<[other := with_rmutex true rd]>
                 (<[r := mk_reader nullptr nullptr false None]> (readers s)))
            = <[r := mk_reader nullptr nullptr false None]> (readers s)) as ->; [|done].
    rewrite insert_insert_eq. apply insert_id. rewrite lookup_insert_ne by done.
    rewrite Hr. f_equal. destruct rd; simpl in *; by subst.
Qed.

Lemma X4_witness :
  (readers attached_reader_state !! 11 = None ∧
   readers attached_reader_state !! 10 = Some (mk_reader (Some 7) nullptr false (Some 1)) ∧
   owners attached_reader_state !! 1 = Some (mk_owner false (Some 7) [10] [])) ∧
  copy_reader 0 11 10 attached_reader_state =
    Returns () (mk_state (<[1 := mk_owner false (Some 7) [10; 11] []]>
                            (owners attached_reader_state))
                         (<[11 := mk_reader (Some 7) nullptr false (Some 1)]>
                            (readers attached_reader_state))
                         (freed attached_reader_state)).
Proof.
  split; [split_and!; vm_compute; reflexivity|].
  destruct (X4_copy_reader_shares_owner 0 11 10 attached_reader_state
              (mk_reader (Some 7) nullptr false (Some 1))) as [H _];
    [vm_compute; reflexivity..|].
  apply (H 1 (mk_owner false (Some 7) [10] [])); vm_compute; reflexivity.
Defined.

(** *** [~reader_ptr] *)

(** X5: [~reader_ptr].  On a reader without owner, whose mutex is free, it
    takes away the reader and nothing else.  On a reader that is locked
    and is the front entry of its owner's registry (mutexes free) it
    takes away the reader and the entry.  On a reader that is attached
    and not locked it never returns, wherever the reader stands in the
    registry. *)
Theorem X5_delete_reader_needs_no_owner_or_a_lock
    (r : rid) (s : state) (rd : reader_ptr) :
  readers s !! r = Some rd →
  (r_mutex_ rd = false → r_parent_ rd = None →
     ∀ fuel, delete_reader fuel r s = Returns () (set_readers (delete r) s)) ∧
  (∀ o od rest, r_mutex_ rd = false → r_parent_ rd = Some o →
     owners s !! o = Some od → o_mutex_ od = false → o_children_ od = r :: rest →
     r_locked_ rd ≠ nullptr →
     ∀ fuel, delete_reader (S (S fuel)) r s =
       Returns () (mk_state (<[o := with_children rest od]> (owners s))
                            (delete r (readers s)) (freed s))) ∧
  (∀ o od, r_parent_ rd = Some o → owners s !! o = Some od → r ∈ o_children_ od →
     r_locked_ rd = nullptr →
     never_returns (λ fuel, delete_reader fuel r) s).
Proof.
  intros Hr. split; [|split].
  - intros Hm Hp fuel. unfold delete_reader. sstep. sstep. simpl. rewrite Hp.
    eapply (bind_ok _ _ _ ()); [reflexivity|]. sstep. sstep.
    unfold put_state. f_equal. unfold set_readers. simpl.
    by rewrite !insert_insert_eq, delete_insert_eq.
  - intros o od rest Hm Hp Ho Hom Hc Hl fuel. unfold delete_reader.
    sstep. sstep. simpl. rewrite Hp.
    eapply (bind_ok _ _ _ ()).
    { eapply (remove__front fuel o r _ od rest (with_rmutex true rd)); look. }
    sstep. sstep. unfold put_state. f_equal. unfold set_readers, set_owners. simpl.
    by rewrite !insert_insert_eq, delete_insert_eq.
  - intros o od Hp Ho Hin Hl fuel. unfold delete_reader.
    destruct (r_mutex_ rd) eqn:Hrm.
    { apply bind_Hangs_l. by eapply rmutex_lock_blocked. }
    sstep. sstep. simpl. rewrite Hp. apply bind_Hangs_l.
    destruct (o_mutex_ od) eqn:Hom.
    { unfold remove_. apply bind_Hangs_l. by eapply omutex_lock_blocked. }
    destruct (o_children_ od) as [|c rest] eqn:Hc; [by apply not_elem_of_nil in Hin|].
    destruct (decide (c = r)) as [->|Hne].
    + eapply (remove__unlocked fuel o r _ od rest (with_rmutex true rd)); look.
    + by eapply (remove__other fuel o r _ od c rest).
Qed.

Lemma X5_witness :
  (readers attached_reader_state !! 10 = Some (mk_reader (Some 7) nullptr false (Some 1)) ∧
   owners attached_reader_state !! 1 = Some (mk_owner false (Some 7) [10] []) ∧
   10 ∈ [10]) ∧
  never_returns (λ fuel, delete_reader fuel 10) attached_reader_state.
Proof.
  split; [split_and!; [vm_compute; reflexivity..|apply elem_of_cons; by left]|].
  destruct (X5_delete_reader_needs_no_owner_or_a_lock 10 attached_reader_state
              (mk_reader (Some 7) nullptr false (Some 1))) as (_ & _ & H);
    [vm_compute; reflexivity|].
  apply (H 1 (mk_owner false (Some 7) [10] [])); try (vm_compute; reflexivity).
  apply elem_of_cons; by left.
Defined.

(** *** [reset] and [~owned_ptr] when no reader is locked *)

Lemma run_step {PC} (step : PC → Op PC) (done : PC → bool) fuel pc s pc' s' r :
  done pc = false → step pc s = Returns pc' s' →
  run step done fuel pc' s' = r → run step done (S fuel) pc s = r.
Proof. intros Hd Hs <-. simpl. rewrite Hd. by apply bind_step. Qed.

Lemma run_done {PC} (step : PC → Op PC) (done : PC → bool) fuel pc s :
  done pc = true → run step done (S fuel) pc s = Returns () s.
Proof. intros Hd. simpl. by rewrite Hd. Qed.

Lemma alter_lookup_chain (f : reader_ptr → reader_ptr) cs (m : gmap rid reader_ptr) k :
  (∀ x, f (f x) = f x) →
  foldl (λ m c, alter f c m) m cs !! k =
    if decide (k ∈ cs) then f <$> m !! k else m !! k.
Proof.
  intros Hf. revert m. induction cs as [|c cs IH]; intros m; cbn [foldl].
  - rewrite decide_False; [done|]. apply not_elem_of_nil.
  - rewrite IH. destruct (decide (k = c)) as [->|Hne].
    + rewrite lookup_alter_eq.
      rewrite (decide_True (P := c ∈ c :: cs)) by (apply elem_of_cons; auto).
      destruct (decide (c ∈ cs)); [|done].
      destruct (m !! c); simpl; [|done]. by rewrite Hf.
    + rewrite lookup_alter_ne by done.
      destruct (decide (k ∈ cs)) as [Hin|Hin].
      * rewrite decide_True; [done|]. apply elem_of_cons. auto.
      * rewrite decide_False; [done|]. rewrite elem_of_cons. tauto.
Qed.

Lemma revalue_lookup value cs m k :
  revalue value cs m !! k =
    if decide (k ∈ cs) then with_value value <$> m !! k else m !! k.
Proof. apply alter_lookup_chain. by intros []. Qed.

Lemma retire_lookup cs m k :
  retire cs m !! k =
    if decide (k ∈ cs) then with_parent None <$> (with_value nullptr <$> m !! k)
    else m !! k.
Proof.
  unfold retire. rewrite alter_lookup_chain by by intros [].
  destruct (decide (k ∈ cs)); [|done]. by destruct (m !! k).
Qed.

Lemma insert_as_alter (f : reader_ptr → reader_ptr) c rd s :
  readers s !! c = Some rd →
  set_readers (insert c (f rd)) s = set_readers (alter f c) s.
Proof.
  intros Hc. unfold set_readers. f_equal. apply map_eq. intros k.
  destruct (decide (k = c)) as [->|Hne].
  - by rewrite lookup_insert_eq, lookup_alter_eq, Hc.
  - by rewrite lookup_insert_ne, lookup_alter_ne.
Qed.

Lemma child_at_ok o i s od c :
  owners s !! o = Some od → o_children_ od !! i = Some c → child_at o i s = Returns c s.
Proof.
  intros Ho Hi. unfold child_at. eapply bind_ok; [by apply owner_ok|]. by rewrite Hi.
Qed.

(** The first loop of [reset], from entry [length cs_done] on. *)
Lemma reset_for_idle o value od fuel res cs_todo : ∀ cs_done s,
  owners s !! o = Some od → o_children_ od = cs_done ++ cs_todo →
  idle_readers cs_todo s →
  run (reset_step o value) reset_done fuel R_while
      (set_readers (revalue value cs_todo) s) = res →
  run (reset_step o value) reset_done (3 * length cs_todo + 1 + fuel)
      (R_for (length cs_done)) s = res.
Proof.
  induction cs_todo as [|c cs IH]; intros cs_done s Ho Hcs Hidle Hres.
  - replace (3 * length (@nil rid) + 1 + fuel) with (S fuel) by (simpl; lia).
    eapply run_step; [done| |].
    + simpl. eapply bind_ok; [by apply owner_ok|].
      rewrite decide_False; [done|]. rewrite Hcs, length_app. simpl. lia.
    + rewrite <- Hres. f_equal. unfold revalue, set_readers. simpl. by destruct s.
  - destruct (Hidle c) as (rd & Hc & Hl); [apply elem_of_cons; auto|].
    assert (o_children_ od !! length cs_done = Some c) as Hat.
    { rewrite Hcs. by apply list_lookup_middle. }
    replace (3 * length (c :: cs) + 1 + fuel) with (S (S (S (3 * length cs + 1 + fuel))))
      by (simpl; lia).
    eapply run_step; [done| |].
    { simpl. eapply bind_ok; [by apply owner_ok|].
      rewrite decide_True; [done|]. rewrite Hcs, length_app. simpl. lia. }
    eapply run_step; [done| |].
    { simpl. eapply bind_ok; [by eapply child_at_ok|].
      eapply bind_ok; [by apply upd_reader_ok|]. done. }
    eapply run_step; [done| |].
    { simpl. eapply bind_ok; [by eapply child_at_ok|].
      eapply bind_ok; [apply reader_ok; simpl; apply lookup_insert_eq|].
      simpl. rewrite decide_False; [done|]. by intros []. }
    replace (S (length cs_done)) with (length (cs_done ++ [c]))
      by (rewrite length_app; simpl; lia).
    apply IH.
    + done.
    + by rewrite <- app_assoc.
    + intros c' Hin. destruct (Hidle c') as (rd' & Hc' & Hl'); [apply elem_of_cons; auto|].
      simpl. destruct (decide (c' = c)) as [->|Hne].
      * rewrite lookup_insert_eq. eexists. split; [done|]. done.
      * rewrite lookup_insert_ne by done. eauto.
    + rewrite <- Hres. f_equal. rewrite (insert_as_alter _ _ _ _ Hc). done.
Qed.

(** [reset] when no reader of the registry is locked. *)
Lemma reset_idle_ok o value s od fuel :
  owners s !! o = Some od → o_mutex_ od = false → o_update_ od = [] →
  idle_readers (o_children_ od) s →
  3 * length (o_children_ od) + 7 ≤ fuel →
  reset fuel o value s =
    Returns () (mk_state (<[o := mk_owner false value (o_children_ od) []]> (owners s))
                         (revalue value (o_children_ od) (readers s))
                         (delete_ptr (o_value_ od) (freed s))).
Proof.
  intros Ho Hm Hu Hidle Hfuel.
  unfold reset.
  replace fuel with (S (3 * length (o_children_ od) + 1 + (5 + (fuel - (3 * length (o_children_ od) + 7)))))
    by lia.
  eapply run_step; [done| |].
  { simpl. eapply bind_ok; [by apply omutex_lock_ok|]. done. }
  apply (reset_for_idle o value (with_omutex true od) _ _ (o_children_ od) []).
  - simpl. apply lookup_insert_eq.
  - done.
  - exact Hidle.
  - replace (5 + (fuel - (3 * length (o_children_ od) + 7)))
      with (S (S (S (S (S (fuel - (3 * length (o_children_ od) + 7))))))) by lia.
    eapply run_step; [done| |].
    { simpl. eapply bind_ok; [apply owner_ok; simpl; apply lookup_insert_eq|].
      simpl. by rewrite Hu. }
    eapply run_step; [done| |].
    { simpl. eapply bind_ok; [apply owner_ok; simpl; apply lookup_insert_eq|].
      eapply bind_ok; [reflexivity|]. done. }
    eapply run_step; [done| |].
    { simpl. eapply bind_ok; [apply upd_owner_ok; simpl; apply lookup_insert_eq|]. done. }
    eapply run_step; [done| |].
    { simpl. eapply bind_ok; [apply upd_owner_ok; simpl; apply lookup_insert_eq|]. done. }
    rewrite run_done by done. f_equal.
    unfold set_owners, set_readers, set_freed. simpl. rewrite !insert_insert_eq.
    f_equal. f_equal. unfold with_omutex, with_ovalue. simpl. by rewrite Hu.
Qed.

(** X6: [reset(value)] on an owner whose mutex is free, whose [update_] is
    empty and none of whose readers is locked returns, given 3 steps for
    each reader and 7 more.  Every reader of the registry then has the
    new value as its [value_], the owner has it as its own, the old value
    is freed, and nothing else has changed. *)
Theorem X6_reset_returns_when_no_reader_is_locked
    (o : oid) (value : ptr) (s : state) (od : owned_ptr) (fuel : nat) :
  owners s !! o = Some od → o_mutex_ od = false → o_update_ od = [] →
  idle_readers (o_children_ od) s →
  3 * length (o_children_ od) + 7 ≤ fuel →
  reset fuel o value s =
    Returns () (mk_state (<[o := mk_owner false value (o_children_ od) []]> (owners s))
                         (revalue value (o_children_ od) (readers s))
                         (delete_ptr (o_value_ od) (freed s))) ∧
  ∀ r, revalue value (o_children_ od) (readers s) !! r =
         if decide (r ∈ o_children_ od) then with_value value <$> readers s !! r
         else readers s !! r.
Proof.
  intros Ho Hm Hu Hidle Hfuel. split; [by apply reset_idle_ok|intros r; apply revalue_lookup].
Qed.

Lemma two_readers_quiet : quiet_readers [10; 11] two_readers_state.
Proof.
  intros c Hc. apply elem_of_cons in Hc as [->|Hc].
  - eexists. split_and!; vm_compute; reflexivity.
  - apply list_elem_of_singleton in Hc as ->. eexists. split_and!; vm_compute; reflexivity.
Qed.

Lemma two_readers_idle : idle_readers [10; 11] two_readers_state.
Proof. intros c Hc. destruct (two_readers_quiet c Hc) as (rd & ? & _ & ?). eauto. Qed.

Lemma X6_witness :
  (owners two_readers_state !! 1 = Some (mk_owner false (Some 7) [10; 11] []) ∧
   idle_readers [10; 11] two_readers_state ∧ 3 * 2 + 7 ≤ 13) ∧
  reset 13 1 (Some 8) two_readers_state =
    Returns () (mk_state (<[1 := mk_owner false (Some 8) [10; 11] []]>
                            (owners two_readers_state))
                         (revalue (Some 8) [10; 11] (readers two_readers_state))
                         ({[7]} ∪ freed two_readers_state)).
Proof.
  split; [split_and!; [vm_compute; reflexivity|apply two_readers_idle|simpl; lia]|].
  apply (X6_reset_returns_when_no_reader_is_locked 1 (Some 8) two_readers_state
           (mk_owner false (Some 7) [10; 11] []) 13);
    [vm_compute; reflexivity|reflexivity|reflexivity|apply two_readers_idle|simpl; lia].
Defined.

Lemma set_owner__null c s rd :
  readers s !! c = Some rd → r_mutex_ rd = false →
  set_owner_ 0 c None s = Returns () (set_readers (insert c (with_parent None rd)) s).
Proof.
  intros Hr Hm. unfold set_owner_. sstep. sstep. simpl.
  eapply (bind_ok _ _ _ ()); [reflexivity|]. sstep. sstep. f_equal.
  unfold set_readers. simpl. rewrite !insert_insert_eq. f_equal. f_equal.
  by apply with_rmutex_parent.
Qed.

(** The loop of [~owned_ptr], from entry [length cs_done] on. *)
Lemma dtor_for_quiet o od fuel res cs_todo : ∀ cs_done s,
  owners s !! o = Some od → o_children_ od = cs_done ++ cs_todo →
  quiet_readers cs_todo s →
  run (dtor_step o) dtor_done fuel D_delete (set_readers (retire cs_todo) s) = res →
  run (dtor_step o) dtor_done (4 * length cs_todo + 1 + fuel) (D_for (length cs_done)) s
  = res.
Proof.
  induction cs_todo as [|c cs IH]; intros cs_done s Ho Hcs Hquiet Hres.
  - replace (4 * length (@nil rid) + 1 + fuel) with (S fuel) by (simpl; lia).
    eapply run_step; [done| |].
    + simpl. eapply bind_ok; [by apply owner_ok|].
      rewrite decide_False; [done|]. rewrite Hcs, length_app. simpl. lia.
    + rewrite <- Hres. f_equal. unfold retire, set_readers. simpl. by destruct s.
  - destruct (Hquiet c) as (rd & Hc & Hm & Hl); [apply elem_of_cons; auto|].
    assert (o_children_ od !! length cs_done = Some c) as Hat.
    { rewrite Hcs. by apply list_lookup_middle. }
    replace (4 * length (c :: cs) + 1 + fuel)
      with (S (S (S (S (4 * length cs + 1 + fuel))))) by (simpl; lia).
    eapply run_step; [done| |].
    { simpl. eapply bind_ok; [by apply owner_ok|].
      rewrite decide_True; [done|]. rewrite Hcs, length_app. simpl. lia. }
    eapply run_step; [done| |].
    { simpl. eapply bind_ok; [by eapply child_at_ok|].
      eapply bind_ok; [by apply upd_reader_ok|]. done. }
    eapply run_step; [done| |].
    { simpl. eapply bind_ok; [by eapply child_at_ok|].
      eapply (bind_ok _ _ _ ()); [|done].
      apply (set_owner__null c _ (with_value nullptr rd)); [|done].
      simpl. apply lookup_insert_eq. }
    eapply run_step; [done| |].
    { simpl. eapply bind_ok; [by eapply child_at_ok|].
      eapply bind_ok; [apply reader_ok; simpl; apply lookup_insert_eq|].
      simpl. rewrite decide_False; [done|]. by intros []. }
    replace (S (length cs_done)) with (length (cs_done ++ [c]))
      by (rewrite length_app; simpl; lia).
    apply IH.
    + done.
    + by rewrite <- app_assoc.
    + intros c' Hin.
      destruct (Hquiet c') as (rd' & Hc' & Hm' & Hl'); [apply elem_of_cons; auto|].
      simpl. destruct (decide (c' = c)) as [->|Hne].
      * rewrite lookup_insert_eq. eexists. split; [done|]. done.
      * rewrite !lookup_insert_ne by done. eauto.
    + rewrite <- Hres. f_equal. unfold set_readers. simpl. f_equal.
      rewrite insert_insert_eq. unfold retire. cbn [foldl]. f_equal.
      apply map_eq. intros k. destruct (decide (k = c)) as [->|Hne].
      * by rewrite lookup_insert_eq, lookup_alter_eq, Hc.
      * by rewrite lookup_insert_ne, lookup_alter_ne.
Qed.

(** X7: [delete owner] on an owner whose mutex is free and none of whose
    readers is locked or has its mutex held returns, given 4 steps for
    each reader and 5 more.  The owner is gone and its value freed; every
    reader of its registry has a null [value_] and a null [parent_], and
    nothing else has changed. *)
Theorem X7_delete_owner_returns_when_no_reader_is_locked
    (o : oid) (s : state) (od : owned_ptr) (fuel : nat) :
  owners s !! o = Some od → o_mutex_ od = false →
  quiet_readers (o_children_ od) s →
  4 * length (o_children_ od) + 5 ≤ fuel →
  delete_owner fuel o s =
    Returns () (mk_state (delete o (owners s))
                         (retire (o_children_ od) (readers s))
                         (delete_ptr (o_value_ od) (freed s))) ∧
  ∀ r, retire (o_children_ od) (readers s) !! r =
         if decide (r ∈ o_children_ od)
         then with_parent None <$> (with_value nullptr <$> readers s !! r)
         else readers s !! r.
Proof.
  intros Ho Hm Hquiet Hfuel. split; [|intros r; apply retire_lookup].
  unfold delete_owner. eapply (bind_ok _ _ _ ()).
  - replace fuel
      with (S (4 * length (o_children_ od) + 1
               + (S (S (S (fuel - (4 * length (o_children_ od) + 5))))))) by lia.
    eapply run_step; [done| |].
    { simpl. eapply bind_ok; [by apply omutex_lock_ok|]. done. }
    apply (dtor_for_quiet o (with_omutex true od) _ _ (o_children_ od) []).
    + simpl. apply lookup_insert_eq.
    + done.
    + exact Hquiet.
    + eapply run_step; [done| |].
      { simpl. eapply bind_ok; [apply owner_ok; simpl; apply lookup_insert_eq|].
        eapply bind_ok; [reflexivity|]. done. }
      eapply run_step; [done| |].
      { simpl. eapply bind_ok; [apply upd_owner_ok; simpl; apply lookup_insert_eq|]. done. }
      by rewrite run_done.
  - sstep. unfold put_state. f_equal.
    unfold set_owners, set_readers, set_freed. simpl.
    by rewrite !insert_insert_eq, delete_insert_eq.
Qed.

Lemma X7_witness :
  (owners two_readers_state !! 1 = Some (mk_owner false (Some 7) [10; 11] []) ∧
   quiet_readers [10; 11] two_readers_state ∧ 4 * 2 + 5 ≤ 13) ∧
  delete_owner 13 1 two_readers_state =
    Returns () (mk_state (delete 1 (owners two_readers_state))
                         (retire [10; 11] (readers two_readers_state))
                         ({[7]} ∪ freed two_readers_state)).
Proof.
  split; [split_and!; [vm_compute; reflexivity|apply two_readers_quiet|simpl; lia]|].
  apply (X7_delete_owner_returns_when_no_reader_is_locked 1 two_readers_state
           (mk_owner false (Some 7) [10; 11] []) 13);
    [vm_compute; reflexivity|reflexivity|apply two_readers_quiet|simpl; lia].
Defined.

(** *** [reset] and [~owned_ptr] while a reader is locked *)

Lemma reset_held_step o value r k pc :
  hoare (reset_held o value r k pc) (reset_step o value pc) (reset_held o value r k).
Proof.
  intros s pc' s' (Hw & (rd & Hr & Hl1 & Hl2) & od & Ho & Hk & Hu & He) H.
  destruct pc; simpl in H; try done.
  - (* R_lock *)
    apply bind_Returns in H as (? & s1 & (od1 & Ho1 & Hm & ->)%omutex_lock_Returns & H).
    apply ret_Returns in H as [<- <-]. same_owner.
    split; [done|]. split; [eauto|].
    exists (with_omutex true od). simpl. rewrite lookup_insert_eq.
    split_and!; try done; simpl; lia.
  - (* R_for *)
    apply bind_Returns in H as (od1 & ? & [Ho1 ->]%owner_Returns & H). same_owner.
    destruct (decide (i < length (o_children_ od))) as [Hi|Hi];
      apply ret_Returns in H as [<- <-].
    + split; [done|]. split; [eauto|]. exists od. split_and!; done.
    + split; [done|]. split; [eauto|]. exists od. split_and!; try done.
      intros _. apply Hu. simpl. apply lookup_lt_Some in Hk. lia.
  - (* R_value *)
    apply bind_Returns in H as (c & s1 & (-> & od1 & Ho1 & Hci)%child_at_Returns & H).
    apply bind_Returns in H as (? & s2 & (rd0 & Hr0 & ->)%upd_reader_Returns & H).
    apply ret_Returns in H as [<- <-]. same_owner.
    split; [done|]. split.
    { simpl. destruct (decide (r = c)) as [->|Hne].
      - rewrite lookup_insert_eq. same_owner. eexists. split; [done|]. done.
      - rewrite lookup_insert_ne by done. eauto. }
    exists od. split_and!; done.
  - (* R_test *)
    apply bind_Returns in H as (c & s1 & (-> & od1 & Ho1 & Hci)%child_at_Returns & H).
    apply bind_Returns in H as (rd0 & ? & [Hr0 ->]%reader_Returns & H). same_owner.
    destruct (decide (r_locked_ rd0 ≠ nullptr)) as [Hl|Hl];
      apply ret_Returns in H as [<- <-].
    + split; [done|]. split; [eauto|]. exists od. split_and!; done.
    + split; [done|]. split; [eauto|]. exists od. split_and!; try done.
      simpl. intros Hlt. destruct (decide (k = i)) as [->|Hne]; [|apply Hu; simpl; lia].
      assert (r = c) as -> by congruence. same_owner. done.
  - (* R_push *)
    apply bind_Returns in H as (c & s1 & (-> & od1 & Ho1 & Hci)%child_at_Returns & H).
    apply bind_Returns in H as (od2 & ? & [Ho2 ->]%owner_Returns & H).
    apply bind_Returns in H as (? & s2 & (od3 & Ho3 & ->)%upd_owner_Returns & H).
    apply ret_Returns in H as [<- <-]. same_owner.
    split; [done|]. split; [eauto|].
    exists (with_update (o_update_ od ++ [c]) od). simpl. rewrite lookup_insert_eq.
    split_and!; try done.
    intros Hlt. apply elem_of_app. destruct (decide (k = i)) as [->|Hne].
    + right. assert (r = c) as -> by congruence. by apply list_elem_of_singleton.
    + left. apply Hu. simpl. lia.
  - (* R_while *)
    apply bind_Returns in H as (od1 & ? & [Ho1 ->]%owner_Returns & H). same_owner.
    destruct (o_update_ od) as [|u us] eqn:Hus; apply ret_Returns in H as [<- <-].
    + specialize (Hu I). by apply not_elem_of_nil in Hu.
    + split; [done|]. split; [eauto|]. exists od. rewrite Hus. split_and!; done.
  - (* R_sweep *)
    apply bind_Returns in H as (od1 & ? & [Ho1 ->]%owner_Returns & H). same_owner.
    destruct (decide (j < length (o_update_ od))) as [Hj|Hj].
    + apply bind_Returns in H as (c & s1 & (-> & od1 & Ho1 & Hcj)%update_at_Returns & H).
      apply bind_Returns in H as (rd0 & ? & [Hr0 ->]%reader_Returns & H). same_owner.
      destruct (decide (r_locked_ rd0 = nullptr ∨ r_locked_ rd0 = value)) as [Hl|Hl];
        apply ret_Returns in H as [<- <-].
      * split; [done|]. split; [eauto|]. exists od. split_and!; try done.
        intros j' [= <-]. exists c. split; [done|]. intros ->. same_owner.
        destruct Hl; done.
      * split; [done|]. split; [eauto|]. exists od. split_and!; done.
    + apply ret_Returns in H as [<- <-].
      split; [done|]. split; [eauto|]. exists od. split_and!; done.
  - (* R_erase *)
    apply bind_Returns in H as (od1 & ? & _ & H).
    apply bind_Returns in H as (? & s2 & _ & H). done.
Qed.

(** X8: [reset(value)], called with [update_] empty, never returns for as
    long as it runs alone when a reader of the registry is locked on
    something other than [value]: the call waits for that reader's
    [unlock()]. *)
Theorem X8_reset_waits_for_locked_reader
    (o : oid) (value : ptr) (r : rid) (s : state) (od : owned_ptr) (rd : reader_ptr) :
  owners s !! o = Some od → o_update_ od = [] → r ∈ o_children_ od →
  readers s !! r = Some rd → r_locked_ rd ≠ nullptr → r_locked_ rd ≠ value →
  ¬ terminates (λ fuel, reset fuel o value) s.
Proof.
  intros Ho Hu Hin Hr Hl1 Hl2 (fuel & u & s' & H).
  apply list_elem_of_lookup in Hin as [k Hk].
  assert (reset_held o value r k R_lock s) as HJ.
  { split; [done|]. split; [eauto|]. exists od. split_and!; try done. simpl. lia. }
  destruct (run_inv (reset_step o value) reset_done (reset_held o value r k)
              (λ pc _, reset_held_step o value r k pc) fuel R_lock s u s' HJ H)
    as (pc' & Hdone & Hw & _).
  by destruct pc'.
Qed.

Lemma X8_witness :
  (owners locked_reader_state !! 1 = Some (mk_owner false (Some 7) [10] []) ∧
   readers locked_reader_state !! 10 = Some (mk_reader (Some 7) (Some 7) false (Some 1)) ∧
   (Some 7 : ptr) ≠ Some 8) ∧
  ¬ terminates (λ fuel, reset fuel 1 (Some 8)) locked_reader_state.
Proof.
  split; [split_and!; [vm_compute; reflexivity..|done]|].
  apply (X8_reset_waits_for_locked_reader 1 (Some 8) 10 locked_reader_state
           (mk_owner false (Some 7) [10] []) (mk_reader (Some 7) (Some 7) false (Some 1)));
    [vm_compute; reflexivity|reflexivity|apply elem_of_cons; by left
    |vm_compute; reflexivity|done|done].
Defined.

Lemma dtor_held_step o r k pc :
  hoare (dtor_held o r k pc) (dtor_step o pc) (dtor_held o r k).
Proof.
  intros s pc' s' ((rd & Hr & Hl) & (od & Ho & Hk) & Hpc) H.
  destruct pc; simpl in H; try done.
  - (* D_lock *)
    apply bind_Returns in H as (? & s1 & (od1 & Ho1 & Hm & ->)%omutex_lock_Returns & H).
    apply ret_Returns in H as [<- <-]. same_owner.
    split; [eauto|]. split; [|simpl; lia].
    exists (with_omutex true od). simpl. by rewrite lookup_insert_eq.
  - (* D_for *)
    apply bind_Returns in H as (od1 & ? & [Ho1 ->]%owner_Returns & H). same_owner.
    destruct (decide (i < length (o_children_ od))) as [Hi|Hi];
      apply ret_Returns in H as [<- <-].
    + split; [eauto|]. split; [eauto|]. done.
    + apply lookup_lt_Some in Hk. lia.
  - (* D_value *)
    apply bind_Returns in H as (c & s1 & (-> & od1 & Ho1 & Hci)%child_at_Returns & H).
    apply bind_Returns in H as (? & s2 & (rd0 & Hr0 & ->)%upd_reader_Returns & H).
    apply ret_Returns in H as [<- <-]. same_owner.
    split; [|split; [eauto|done]].
    simpl. destruct (decide (r = c)) as [->|Hne].
    + rewrite lookup_insert_eq. same_owner. eexists. split; [done|]. done.
    + rewrite lookup_insert_ne by done. eauto.
  - (* D_set_owner *)
    apply bind_Returns in H as (c & s1 & (-> & od1 & Ho1 & Hci)%child_at_Returns & H).
    apply bind_Returns in H as (? & s2 & Hso & H).
    apply ret_Returns in H as [<- <-]. same_owner.
    apply set_owner_null_effect in Hso as (rd0 & Hr0 & Hos & _ & Hrs).
    split; [|split; [rewrite Hos; eauto|done]].
    rewrite Hrs. destruct (decide (r = c)) as [->|Hne].
    + rewrite lookup_insert_eq. same_owner. eexists. split; [done|]. done.
    + rewrite lookup_insert_ne by done. eauto.
  - (* D_wait *)
    apply bind_Returns in H as (c & s1 & (-> & od1 & Ho1 & Hci)%child_at_Returns & H).
    apply bind_Returns in H as (rd0 & ? & [Hr0 ->]%reader_Returns & H). same_owner.
    destruct (decide (r_locked_ rd0 ≠ nullptr)) as [Hl0|Hl0];
      apply ret_Returns in H as [<- <-].
    + split; [eauto|]. split; [eauto|]. done.
    + split; [eauto|]. split; [eauto|]. simpl.
      destruct (decide (i = k)) as [->|Hne]; [|simpl in Hpc; lia].
      assert (r = c) as -> by congruence. same_owner. done.
Qed.

(** X9: [delete owner] never returns, for as long as it runs alone, when
    a reader of the registry is locked: the destructor waits for that
    reader's [unlock()]. *)
Theorem X9_delete_owner_waits_for_locked_reader
    (o : oid) (r : rid) (s : state) (od : owned_ptr) (rd : reader_ptr) :
  owners s !! o = Some od → r ∈ o_children_ od →
  readers s !! r = Some rd → r_locked_ rd ≠ nullptr →
  ¬ terminates (λ fuel, delete_owner fuel o) s.
Proof.
  intros Ho Hin Hr Hl (fuel & u & s' & H).
  apply list_elem_of_lookup in Hin as [k Hk].
  unfold delete_owner in H. apply bind_Returns in H as (? & s1 & H & _).
  assert (dtor_held o r k D_lock s) as HJ by (split_and!; eauto).
  destruct (run_inv (dtor_step o) dtor_done (dtor_held o r k)
              (λ pc _, dtor_held_step o r k pc) fuel D_lock s _ s1 HJ H)
    as (pc' & Hdone & _ & _ & Hpc).
  by destruct pc'.
Qed.

Lemma X9_witness :
  (owners locked_reader_state !! 1 = Some (mk_owner false (Some 7) [10] []) ∧
   readers locked_reader_state !! 10 = Some (mk_reader (Some 7) (Some 7) false (Some 1))) ∧
  ¬ terminates (λ fuel, delete_owner fuel 1) locked_reader_state.
Proof.
  split; [split; vm_compute; reflexivity|].
  apply (X9_delete_owner_waits_for_locked_reader 1 10 locked_reader_state
           (mk_owner false (Some 7) [10] []) (mk_reader (Some 7) (Some 7) false (Some 1)));
    [vm_compute; reflexivity|apply elem_of_cons; by left|vm_compute; reflexivity|done].
Defined.

(** *** The invariants of a thread's calls *)

(** X10: whatever calls a thread makes, as long as it move-constructs no
    reader, the registries and the readers agree afterwards: no registry
    holds an entry twice; the registry of an owner holds exactly the live
    readers whose [parent_] is that owner; the [parent_] of a reader is a
    live owner, whose [value_] is the reader's [value_]; and a reader
    without owner has a null [value_]. *)
Theorem X10_calls_keep_registries_and_readers_in_step
    (fuel : nat) (cs : list call) (s : state) :
  forallb no_move cs = true →
  exec_all fuel cs empty_state = Returns () s →
  (∀ o od, owners s !! o = Some od → NoDup (o_children_ od)) ∧
  (∀ o od r, owners s !! o = Some od →
     r ∈ o_children_ od ↔ ∃ rd, readers s !! r = Some rd ∧ r_parent_ rd = Some o) ∧
  (∀ r rd o, readers s !! r = Some rd → r_parent_ rd = Some o →
     ∃ od, owners s !! o = Some od ∧ r_value_ rd = o_value_ od) ∧
  (∀ r rd, readers s !! r = Some rd → r_parent_ rd = None → r_value_ rd = nullptr).
Proof.
  intros Hk Hrun.
  destruct (coherent_exec_all fuel cs Hk _ _ _ coherent_empty Hrun) as (H1 & H2 & H3).
  split; [exact H1|]. split; [exact H2|]. split.
  - intros r rd o Hr Hp. specialize (H3 r rd Hr). by rewrite Hp in H3.
  - intros r rd Hr Hp. specialize (H3 r rd Hr). by rewrite Hp in H3.
Qed.

Lemma X10_witness :
  (forallb no_move example_run = true ∧
   exec_all 30 example_run empty_state = Returns () example_state) ∧
  (∀ o od r, owners example_state !! o = Some od →
     r ∈ o_children_ od ↔ ∃ rd, readers example_state !! r = Some rd ∧ r_parent_ rd = Some o).
Proof.
  assert (H : exec_all 30 example_run empty_state = Returns () example_state)
    by (vm_compute; reflexivity).
  split; [by split|].
  exact (proj1 (proj2 (X10_calls_keep_registries_and_readers_in_step 30 example_run
                         example_state eq_refl H))).
Defined.

Lemma rmutex_free_but_readers x s s' :
  readers s' = readers s → rmutex_free_but x s → rmutex_free_but x s'.
Proof. intros Hrs H r rd Hx Hr. rewrite Hrs in Hr. by eapply H. Qed.

Lemma rmutex_free_but_insert x r rd s :
  r_mutex_ rd = false →
  rmutex_free_but x s → rmutex_free_but x (set_readers (insert r rd) s).
Proof.
  intros Hm H r' rd' Hx Hr. simpl in Hr. destruct (decide (r' = r)) as [->|Hne].
  - rewrite lookup_insert_eq in Hr. by injection Hr as <-.
  - rewrite lookup_insert_ne in Hr by done. by eapply H.
Qed.

Lemma rmutex_free_but_upd_reader x r f :
  (∀ rd, r_mutex_ (f rd) = r_mutex_ rd) →
  preserves (rmutex_free_but x) (upd_reader r f).
Proof.
  intros Hf s u s' H (rd & Hr & ->)%upd_reader_Returns r' rd' Hx Hr'. simpl in Hr'.
  destruct (decide (r' = r)) as [->|Hne].
  - rewrite lookup_insert_eq in Hr'. injection Hr' as <-. rewrite Hf. by eapply H.
  - rewrite lookup_insert_ne in Hr' by done. by eapply H.
Qed.

Lemma rmutex_free_but_upd_owner x o f : preserves (rmutex_free_but x) (upd_owner o f).
Proof. intros s u s' H (od & Ho & ->)%upd_owner_Returns. done. Qed.

Lemma rmutex_free_but_omutex_lock x o : preserves (rmutex_free_but x) (omutex_lock o).
Proof. intros s u s' H (od & Ho & _ & ->)%omutex_lock_Returns. done. Qed.

Lemma rmutex_free_but_delete_value x p : preserves (rmutex_free_but x) (delete_value p).
Proof. intros s u s' H Hd. injection Hd as Hd; subst s'. done. Qed.

(** Locking the mutex of [r] sets it apart; unlocking brings it back. *)
Lemma rmutex_lock_sets_apart r s u s' :
  rmutex_lock r s = Returns u s' →
  rmutex_free_but None s → rmutex_free_but (Some r) s'.
Proof.
  intros (rd & Hr & _ & ->)%rmutex_lock_Returns H r' rd' Hx Hr'. simpl in Hr'.
  rewrite lookup_insert_ne in Hr' by congruence. by eapply H.
Qed.

Lemma rmutex_unlock_brings_back r s u s' :
  rmutex_unlock r s = Returns u s' →
  rmutex_free_but (Some r) s → rmutex_free_but None s'.
Proof.
  intros (rd & Hr & ->)%upd_reader_Returns H r' rd' _ Hr'. simpl in Hr'.
  destruct (decide (r' = r)) as [->|Hne].
  - rewrite lookup_insert_eq in Hr'. by injection Hr' as <-.
  - rewrite lookup_insert_ne in Hr' by done. eapply H; [|done]. congruence.
Qed.

Lemma rmutex_free_but_get x fuel o r : preserves (rmutex_free_but x) (get fuel o r).
Proof.
  intros s u s' H (od & rd & _ & _ & _ & _ & Hrs & _)%get_effect r' rd' Hx Hr'.
  rewrite Hrs in Hr'. destruct (decide (r' = r)) as [->|Hne].
  - rewrite lookup_insert_eq in Hr'. by injection Hr' as <-.
  - rewrite lookup_insert_ne in Hr' by done. by eapply H.
Qed.

Lemma rmutex_free_but_new_reader x r : preserves (rmutex_free_but x) (new_reader r).
Proof.
  intros s u s' H Hn. unfold new_reader in Hn.
  destruct (readers s !! r); [done|]. injection Hn as Hn; subst s'.
  by apply rmutex_free_but_insert.
Qed.

Lemma rmutex_free_copy_reader fuel r other :
  preserves (rmutex_free_but None) (copy_reader fuel r other).
Proof.
  intros s u s' H Hc. unfold copy_reader in Hc.
  apply bind_Returns in Hc as (? & s1 & H1 & Hc).
  apply bind_Returns in Hc as (? & s2 & H2 & Hc).
  apply bind_Returns in Hc as (rd & ? & [_ ->]%reader_Returns & Hc).
  apply bind_Returns in Hc as (? & s3 & H3 & Hc).
  eapply rmutex_unlock_brings_back; [done|].
  assert (rmutex_free_but (Some other) s2) as H2'.
  { eapply rmutex_lock_sets_apart; [done|]. by eapply rmutex_free_but_new_reader. }
  destruct (r_parent_ rd).
  - by eapply rmutex_free_but_get.
  - by apply ret_Returns in H3 as [_ <-].
Qed.

Lemma rmutex_free_move_reader fuel r other :
  preserves (rmutex_free_but None) (move_reader fuel r other).
Proof.
  intros s u s' H Hc. unfold move_reader in Hc.
  apply bind_Returns in Hc as (? & s1 & H1 & Hc).
  apply bind_Returns in Hc as (? & s2 & H2 & Hc).
  apply bind_Returns in Hc as (rd & ? & [_ ->]%reader_Returns & Hc).
  apply bind_Returns in Hc as (? & s3 & H3 & Hc).
  eapply rmutex_unlock_brings_back; [done|].
  assert (rmutex_free_but (Some other) s2) as H2'.
  { eapply rmutex_lock_sets_apart; [done|]. by eapply rmutex_free_but_new_reader. }
  destruct (r_parent_ rd).
  - apply replace__effect in H3 as (? & _ & _ & Hrs & _).
    by eapply rmutex_free_but_readers.
  - by apply ret_Returns in H3 as [_ <-].
Qed.

Lemma rmutex_free_delete_reader fuel r :
  preserves (rmutex_free_but None) (delete_reader fuel r).
Proof.
  intros s u s' H (rd & _ & _ & Hrs & _)%delete_reader_effect r' rd' Hx Hr'.
  rewrite Hrs in Hr'. apply lookup_delete_Some in Hr' as [_ Hr']. by eapply H.
Qed.

Lemma rmutex_free_reset_step o value pc :
  preserves (rmutex_free_but None) (reset_step o value pc).
Proof.
  destruct pc; simpl;
    repeat first
      [ apply preserves_ret
      | apply preserves_crash
      | apply rmutex_free_but_omutex_lock
      | apply preserves_owner
      | apply preserves_reader
      | apply preserves_child_at
      | apply preserves_update_at
      | apply rmutex_free_but_delete_value
      | apply rmutex_free_but_upd_reader; by intros []
      | apply rmutex_free_but_upd_owner
      | apply preserves_bind; [|intros ?]
      | case_decide
      | case_match ].
Qed.

Lemma rmutex_free_dtor_step o pc :
  preserves (rmutex_free_but None) (dtor_step o pc).
Proof.
  assert (Hso : ∀ c, preserves (rmutex_free_but None) (set_owner_ 0 c None)).
  { intros c s u s' H (rd & Hr & _ & _ & Hrs)%set_owner_null_effect r' rd' Hx Hr'.
    rewrite Hrs in Hr'. destruct (decide (r' = c)) as [->|Hne].
    - rewrite lookup_insert_eq in Hr'. injection Hr' as <-. simpl. by eapply H.
    - rewrite lookup_insert_ne in Hr' by done. by eapply H. }
  destruct pc; simpl;
    repeat first
      [ apply preserves_ret
      | apply preserves_crash
      | apply rmutex_free_but_omutex_lock
      | apply preserves_owner
      | apply preserves_reader
      | apply preserves_child_at
      | apply Hso
      | apply rmutex_free_but_delete_value
      | apply rmutex_free_but_upd_reader; by intros []
      | apply rmutex_free_but_upd_owner
      | apply preserves_bind; [|intros ?]
      | case_decide
      | case_match ].
Qed.

Lemma rmutex_free_exec fuel c : preserves (rmutex_free_but None) (exec fuel c).
Proof.
  destruct c; simpl.
  - intros s u s' H Hn. unfold new_owner in Hn.
    destruct (owners s !! o); [done|]. by injection Hn as Hn; subst s'.
  - apply rmutex_free_but_new_reader.
  - apply preserves_bind; [apply rmutex_free_but_new_reader|].
    intros _. apply rmutex_free_but_get.
  - apply rmutex_free_but_get.
  - apply rmutex_free_copy_reader.
  - apply rmutex_free_move_reader.
  - apply rmutex_free_delete_reader.
  - apply preserves_bind; [|intros ?; apply preserves_ret].
    unfold lock. apply preserves_bind; [apply preserves_reader|]. intros rd.
    apply preserves_bind; [|intros ?; apply preserves_ret].
    apply rmutex_free_but_upd_reader. by intros [].
  - apply rmutex_free_but_upd_reader. by intros [].
  - apply run_preserves, rmutex_free_reset_step.
  - apply preserves_bind; [|intros ?; apply preserves_ret].
    unfold count. apply preserves_bind; [apply rmutex_free_but_omutex_lock|]. intros _.
    apply preserves_bind; [apply preserves_owner|]. intros od.
    apply preserves_bind; [apply rmutex_free_but_upd_owner|].
    intros _. apply preserves_ret.
  - unfold delete_owner. apply preserves_bind; [apply run_preserves, rmutex_free_dtor_step|].
    intros _ s u s' H Hd. apply bind_Returns in Hd as (s1 & ? & H1 & Hd).
    injection H1 as H1 H1'; subst. by injection Hd as Hd; subst s'.
Qed.

(** X11: a call that returns has released every mutex it took: after any
    calls of a thread, nobody holds the mutex of an owner or of a
    reader. *)
Theorem X11_calls_release_every_mutex (fuel : nat) (cs : list call) (s : state) :
  exec_all fuel cs empty_state = Returns () s →
  (∀ o od, owners s !! o = Some od → o_mutex_ od = false) ∧
  (∀ r rd, readers s !! r = Some rd → r_mutex_ rd = false).
Proof.
  assert (∀ s0 s1, rmutex_free_but None s0 → exec_all fuel cs s0 = Returns () s1 →
            rmutex_free_but None s1) as H.
  { induction cs as [|c cs IH]; intros s0 s1 H0 H; simpl in H.
    - by apply ret_Returns in H as [_ <-].
    - apply bind_Returns in H as (? & s2 & H2 & H). eapply IH; [|done].
      by eapply rmutex_free_exec. }
  intros Hrun. split.
  - exact (omutex_free_exec_all fuel cs _ _ _ omutex_free_empty Hrun).
  - intros r rd Hr. eapply (H empty_state s); [|done..].
    intros r' rd' _ Hr'. simpl in Hr'. by rewrite lookup_empty in Hr'.
Qed.

Lemma X11_witness :
  exec_all 5 attach_detach_run empty_state = Returns () attach_detach_state ∧
  (∀ o od, owners attach_detach_state !! o = Some od → o_mutex_ od = false) ∧
  (∀ r rd, readers attach_detach_state !! r = Some rd → r_mutex_ rd = false).
Proof.
  assert (H : exec_all 5 attach_detach_run empty_state = Returns () attach_detach_state)
    by (vm_compute; reflexivity).
  split; [done|]. exact (X11_calls_release_every_mutex 5 attach_detach_run attach_detach_state H).
Defined.

End SharedCalls.

(** ** [reset] and the readers that hold the old value *)

Module SharedReset.
Import Shared SharedSpec SharedFacts SharedCalls.

(** *** A reader handed to another owner while it is locked *)

(** C2 (the code frees a value that a reader has locked): a reader
    [r] that has locked the value [a] of its owner [p] and is handed to
    another owner [o] by [o->get(r)] leaves the registry of [p] at once,
    because the wait of [remove_] lets a locked reader through, and
    keeps [a] as its [locked_].  A [reset(value)] on [p] then waits
    for nobody when the readers left in the registry are not locked: it
    returns with [a] freed while [r] still has [a] locked. *)
Theorem C2_reset_frees_value_locked_by_handed_over_reader
    (o p : oid) (r : rid) (a : addr) (value : ptr) (s : state)
    (od pd : owned_ptr) (rd : reader_ptr) (rest : list rid) (fuel : nat) :
  p ≠ o →
  owners s !! o = Some od → o_mutex_ od = false →
  owners s !! p = Some pd → o_mutex_ pd = false →
  o_children_ pd = r :: rest → o_update_ pd = [] → o_value_ pd = Some a →
  readers s !! r = Some rd → r_mutex_ rd = false → r_parent_ rd = Some p →
  r_locked_ rd = Some a →
  r ∉ rest → idle_readers rest s →
  3 * length rest + 7 ≤ fuel →
  ∃ s', (get (S (S fuel)) o r;; reset fuel p value) s = Returns () s' ∧
        a ∈ freed s' ∧
        readers s' !! r = Some (mk_reader (o_value_ od) (Some a) false (Some o)).
Proof.
  intros Hne Ho Hm Hpd Hpm Hc Hu Hv Hr Hrm Hp Hl Hnin Hidle Hfuel.
  eexists. split; [|split].
  - eapply (bind_ok _ _ _ ()).
    { eapply (get_front fuel o p r s od pd rd rest); try done. by rewrite Hl. }
    eapply (reset_idle_ok p value _ (with_children rest pd)); try done.
    + unfold after_get. simpl. rewrite lookup_insert_ne by done. apply lookup_insert_eq.
    + intros c Hin. destruct (Hidle c Hin) as (rd' & Hc' & Hl').
      exists rd'. split; [|done]. unfold after_get. simpl.
      rewrite lookup_insert_ne; [done|]. by intros ->.
  - simpl. rewrite Hv. simpl. set_solver.
  - simpl. rewrite revalue_lookup, decide_False by done.
    rewrite lookup_insert_eq. unfold attached_to. by rewrite Hl.
Qed.

Lemma C2_witness :
  (2 ≠ 1 ∧
   owners shared_value_state !! 2 = Some (mk_owner false (Some 8) [] []) ∧
   owners shared_value_state !! 1 = Some (mk_owner false (Some 7) [10; 11] []) ∧
   readers shared_value_state !! 10 = Some (mk_reader (Some 7) (Some 7) false (Some 1)) ∧
   (10 ∉ [11]) ∧ idle_readers [11] shared_value_state ∧ 3 * 1 + 7 ≤ 10) ∧
  ∃ s', (get 12 2 10;; reset 10 1 (Some 9)) shared_value_state = Returns () s' ∧
        7 ∈ freed s' ∧
        readers s' !! 10 = Some (mk_reader (Some 8) (Some 7) false (Some 2)).
Proof.
  assert (Hnin : 10 ∉ [11]) by (by intros H%list_elem_of_singleton).
  assert (Hidle : idle_readers [11] shared_value_state).
  { intros c ->%list_elem_of_singleton. eexists. split; vm_compute; reflexivity. }
  split; [split_and!; try done; try (vm_compute; reflexivity); simpl; lia|].
  apply (C2_reset_frees_value_locked_by_handed_over_reader 2 1 10 7 (Some 9)
           shared_value_state (mk_owner false (Some 8) [] [])
           (mk_owner false (Some 7) [10; 11] [])
           (mk_reader (Some 7) (Some 7) false (Some 1)) [11] 10);
    try done; vm_compute; reflexivity.
Defined.

(** *** A reader that unlocks while [reset] waits for it *)

Lemma run_crash {PC} (step : PC → Op PC) (done : PC → bool) fuel pc s :
  done pc = false → step pc s = Crashes → run step done (S fuel) pc s = Crashes.
Proof. intros Hd Hs. simpl. rewrite Hd. by apply bind_Crashes_l. Qed.

Lemma reset_erase_crashes o value j s : reset_step o value (R_erase j) s = Crashes.
Proof.
  simpl. destruct (owners s !! o) as [od|] eqn:Ho.
  - eapply bind_ok; [by apply owner_ok|].
    eapply bind_ok; [by apply upd_owner_ok|]. done.
  - apply bind_Crashes_l. unfold owner. by rewrite Ho.
Qed.

Lemma reset_while_sweep o value s od :
  owners s !! o = Some od → o_update_ od ≠ [] →
  reset_step o value R_while s = Returns (R_sweep 0) s.
Proof.
  intros Ho Hu. simpl. eapply bind_ok; [by apply owner_ok|].
  by destruct (o_update_ od).
Qed.

Lemma reset_sweep_end o value j s od :
  owners s !! o = Some od → length (o_update_ od) ≤ j →
  reset_step o value (R_sweep j) s = Returns R_while s.
Proof.
  intros Ho Hj. simpl. eapply bind_ok; [by apply owner_ok|].
  rewrite decide_False by lia. done.
Qed.

Lemma update_at_ok o j s od c :
  owners s !! o = Some od → o_update_ od !! j = Some c → update_at o j s = Returns c s.
Proof.
  intros Ho Hj. unfold update_at. eapply bind_ok; [by apply owner_ok|]. by rewrite Hj.
Qed.

Lemma reset_sweep_dead o value j s od c :
  owners s !! o = Some od → o_update_ od !! j = Some c → readers s !! c = None →
  reset_step o value (R_sweep j) s = Crashes.
Proof.
  intros Ho Hj Hc. simpl. eapply bind_ok; [by apply owner_ok|].
  rewrite decide_True by (by eapply lookup_lt_Some).
  eapply bind_ok; [by eapply update_at_ok|].
  apply bind_Crashes_l. unfold reader. by rewrite Hc.
Qed.

Lemma reset_sweep_test o value j s od c rd :
  owners s !! o = Some od → o_update_ od !! j = Some c → readers s !! c = Some rd →
  reset_step o value (R_sweep j) s =
    Returns (if decide (r_locked_ rd = nullptr ∨ r_locked_ rd = value)
             then R_erase j else R_sweep (S j)) s.
Proof.
  intros Ho Hj Hc. simpl. eapply bind_ok; [by apply owner_ok|].
  rewrite decide_True by (by eapply lookup_lt_Some).
  eapply bind_ok; [by eapply update_at_ok|].
  eapply bind_ok; [by apply reader_ok|]. by case_decide.
Qed.

(** One look of the sweep at entry [j]: it crashes there, or goes on to
    the next entry with the state unchanged. *)
Lemma reset_sweep_look o value j s od c :
  owners s !! o = Some od → o_update_ od !! j = Some c →
  (∃ fuel, run (reset_step o value) reset_done fuel (R_sweep j) s = Crashes) ∨
  (¬ released value s c ∧
   reset_step o value (R_sweep j) s = Returns (R_sweep (S j)) s).
Proof.
  intros Ho Hj. destruct (readers s !! c) as [rd|] eqn:Hc.
  - pose proof (reset_sweep_test o value j s od c rd Ho Hj Hc) as Hst.
    destruct (decide (r_locked_ rd = nullptr ∨ r_locked_ rd = value)) as [Hrel|Hrel].
    + left. exists 2. eapply run_step; [done|exact Hst|].
      apply run_crash; [done|]. apply reset_erase_crashes.
    + right. split; [|done]. intros (rd' & Hc' & Hrel'). by simplify_eq.
  - left. exists 1. apply run_crash; [done|]. by eapply reset_sweep_dead.
Qed.

(** From entry [j] the sweep comes to an entry that lets it through. *)
Lemma reset_sweep_hits o value s od r :
  owners s !! o = Some od → released value s r →
  ∀ d j, o_update_ od !! (j + d) = Some r →
  ∃ fuel, run (reset_step o value) reset_done fuel (R_sweep j) s = Crashes.
Proof.
  intros Ho Hrel. induction d as [|d IH]; intros j Hk.
  - rewrite Nat.add_0_r in Hk.
    destruct (reset_sweep_look o value j s od r Ho Hk) as [H|[H _]]; done.
  - assert (is_Some (o_update_ od !! j)) as [c Hj].
    { apply lookup_lt_is_Some. apply lookup_lt_Some in Hk. lia. }
    destruct (reset_sweep_look o value j s od c Ho Hj) as [H|[_ Hst]]; [done|].
    destruct (IH (S j)) as [fuel Hrun].
    { by replace (S j + d) with (j + S d) by lia. }
    exists (S fuel). by eapply run_step.
Qed.

Lemma reset_while_crashes o value s od r :
  owners s !! o = Some od → r ∈ o_update_ od → released value s r →
  ∃ fuel, run (reset_step o value) reset_done fuel R_while s = Crashes.
Proof.
  intros Ho Hin Hrel. apply list_elem_of_lookup in Hin as [k Hk].
  destruct (reset_sweep_hits o value s od r Ho Hrel k 0 Hk) as [fuel Hrun].
  exists (S fuel). eapply run_step; [done| |done].
  eapply reset_while_sweep; [done|]. intros Hu. by rewrite Hu in Hk.
Qed.

Lemma reset_sweep_crashes o value s od r :
  owners s !! o = Some od → r ∈ o_update_ od → released value s r →
  ∀ n j, length (o_update_ od) ≤ j + n →
  ∃ fuel, run (reset_step o value) reset_done fuel (R_sweep j) s = Crashes.
Proof.
  intros Ho Hin Hrel. induction n as [|n IH]; intros j Hn.
  - destruct (reset_while_crashes o value s od r Ho Hin Hrel) as [fuel Hrun].
    exists (S fuel). eapply run_step; [done| |done].
    eapply reset_sweep_end; [done|lia].
  - destruct (decide (j < length (o_update_ od))) as [Hj|Hj]; [|apply IH; lia].
    apply lookup_lt_is_Some in Hj as [c Hj].
    destruct (reset_sweep_look o value j s od c Ho Hj) as [H|[_ Hst]]; [done|].
    destruct (IH (S j)) as [fuel Hrun]; [lia|].
    exists (S fuel). by eapply run_step.
Qed.

(** The load and the store of a [lock()] on either side of the look that
    [reset] takes at the reader: reader 10 of [attached_reader_state]
    loads its [value_], 7; [reset(8)] writes the new [value_] and finds
    the reader not locked; the reader stores 7 to its [locked_]; and
    [reset] returns with 7 freed while a reader of its registry has it
    locked. *)
Lemma reset_passes_lock_in_progress :
  ∃ s, rtc (conc_step (reset_step 1 (Some 8)))
           (R_lock, ([], attached_reader_state)) (R_done, ([], s)) ∧
       7 ∈ freed s ∧
       owners s !! 1 = Some (mk_owner false (Some 8) [10] []) ∧
       readers s !! 10 = Some (mk_reader (Some 8) (Some 7) false (Some 1)).
Proof.
  eexists. split.
  - eapply rtc_l.
    { apply conc_env, (env_load 10 (mk_reader (Some 7) nullptr false (Some 1))).
      vm_compute. reflexivity. }
    do 4 (eapply rtc_l; [apply conc_thread; vm_compute; reflexivity|]).
    eapply rtc_l.
    { apply conc_env, (env_store 10 (Some 7) [] []). vm_compute. reflexivity. }
    do 5 (eapply rtc_l; [apply conc_thread; vm_compute; reflexivity|]).
    apply rtc_refl.
  - split_and!; [|vm_compute; reflexivity..]. vm_compute. set_solver.
Qed.

Lemma reset_found_step o value u pc :
  hoare (reset_found o u pc) (reset_step o value pc) (reset_found o u).
Proof.
  intros s pc' s' (od & Ho & Hu & Hw) H.
  destruct pc; simpl in H.
  - (* R_lock *)
    apply bind_Returns in H as (? & s1 & (od1 & Ho1 & Hm & ->)%omutex_lock_Returns & H).
    apply ret_Returns in H as [<- <-]. same_owner.
    exists (with_omutex true od). simpl. rewrite lookup_insert_eq. by split_and!.
  - (* R_for *)
    apply bind_Returns in H as (od1 & ? & [Ho1 ->]%owner_Returns & H). same_owner.
    destruct (decide (i < length (o_children_ od)));
      apply ret_Returns in H as [<- <-]; exists od; by split_and!.
  - (* R_value *)
    apply bind_Returns in H as (c & s1 & (-> & od1 & Ho1 & Hci)%child_at_Returns & H).
    apply bind_Returns in H as (? & s2 & (rd0 & Hr0 & ->)%upd_reader_Returns & H).
    apply ret_Returns in H as [<- <-]. exists od. by split_and!.
  - (* R_test *)
    apply bind_Returns in H as (c & s1 & (-> & od1 & Ho1 & Hci)%child_at_Returns & H).
    apply bind_Returns in H as (rd0 & ? & [Hr0 ->]%reader_Returns & H).
    destruct (decide (r_locked_ rd0 ≠ nullptr));
      apply ret_Returns in H as [<- <-]; exists od; by split_and!.
  - (* R_push *)
    apply bind_Returns in H as (c & s1 & (-> & od1 & Ho1 & Hci)%child_at_Returns & H).
    apply bind_Returns in H as (od2 & ? & [Ho2 ->]%owner_Returns & H).
    apply bind_Returns in H as (? & s2 & (od3 & Ho3 & ->)%upd_owner_Returns & H).
    apply ret_Returns in H as [<- <-]. same_owner.
    exists (with_update (o_update_ od ++ [c]) od). simpl. rewrite lookup_insert_eq.
    split_and!; [done|by apply prefix_app_r|done].
  - (* R_while *)
    apply bind_Returns in H as (od1 & ? & [Ho1 ->]%owner_Returns & H). same_owner.
    destruct (o_update_ od) as [|c cs] eqn:Hus; apply ret_Returns in H as [<- <-];
      exists od; rewrite Hus; by split_and!.
  - (* R_sweep *)
    apply bind_Returns in H as (od1 & ? & [Ho1 ->]%owner_Returns & H). same_owner.
    destruct (decide (j < length (o_update_ od))).
    + apply bind_Returns in H as (c & s1 & (-> & _)%update_at_Returns & H).
      apply bind_Returns in H as (rd0 & ? & [Hr0 ->]%reader_Returns & H).
      destruct (decide (r_locked_ rd0 = nullptr ∨ r_locked_ rd0 = value));
        apply ret_Returns in H as [<- <-]; exists od; by split_and!.
    + apply ret_Returns in H as [<- <-]. exists od. by split_and!.
  - (* R_erase *)
    apply bind_Returns in H as (od1 & ? & _ & H).
    apply bind_Returns in H as (? & s2 & _ & H). done.
  - (* R_delete *)
    apply bind_Returns in H as (od1 & ? & [Ho1 ->]%owner_Returns & H). same_owner.
    apply bind_Returns in H as ([] & s2 & Hd & H).
    unfold delete_value in Hd. injection Hd as <-.
    apply ret_Returns in H as [<- <-]. exists od. split_and!; [done|done|]. intros _. by apply Hw.
  - (* R_store *)
    apply bind_Returns in H as (? & s2 & (od3 & Ho3 & ->)%upd_owner_Returns & H).
    apply ret_Returns in H as [<- <-]. same_owner.
    exists (with_ovalue value od). simpl. rewrite lookup_insert_eq.
    split_and!; [done|done|]. intros _. by apply Hw.
  - (* R_unlock *)
    apply bind_Returns in H as (? & s2 & (od3 & Ho3 & ->)%upd_owner_Returns & H).
    apply ret_Returns in H as [<- <-]. same_owner.
    exists (with_omutex false od). simpl. rewrite lookup_insert_eq.
    split_and!; [done|done|]. intros _. by apply Hw.
  - (* R_done *)
    apply ret_Returns in H as [<- <-]. exists od. by split_and!.
Qed.

Lemma reset_found_env o u pc ls s ls' s' :
  reset_found o u pc s → env_step (ls, s) (ls', s') → reset_found o u pc s'.
Proof.
  intros (od & Ho & Hu & Hw) (Hos & _)%env_step_readers.
  exists od. by rewrite Hos.
Qed.

Lemma reset_found_run o value u c c' :
  rtc (conc_step (reset_step o value)) c c' →
  reset_found o u c.1 c.2.2 → reset_found o u c'.1 c'.2.2.
Proof.
  apply (conc_inv (reset_step o value) (reset_found o u)).
  - intros pc. apply reset_found_step.
  - intros pc ls s ls' s'. apply reset_found_env.
Qed.

(** C6 (the code runs into undefined behaviour): a reader that
    [reset(value)] finds locked is put on [update_] and polled.  While
    [reset] runs with [lock()] and [unlock()] calls of other threads in
    between, the load and the store of a [lock()] taken as separate
    steps, such a reader [r] is never taken off [update_] and [reset]
    never gets to [delete value_], to [value_ = value] or to its return;
    no step of [reset] writes a reader's [locked_]; and once [r] has
    unlocked, or has locked again and so taken the new value, the sweep
    of [reset], run on alone, erases the entry of a reader and then
    increments the erased iterator: the call crashes. *)
Theorem C6_reset_crashes_once_a_locked_reader_unlocks
    (o : oid) (value : ptr) (ls0 : loads) (s0 : state) (od0 : owned_ptr)
    (pc : reset_pc) (ls : loads) (s : state) (od : owned_ptr) (r : rid) :
  owners s0 !! o = Some od0 →
  rtc (conc_step (reset_step o value)) (R_lock, (ls0, s0)) (pc, (ls, s)) →
  owners s !! o = Some od → r ∈ o_update_ od →
  (∀ pc' ls' s',
     rtc (conc_step (reset_step o value)) (pc, (ls, s)) (pc', (ls', s')) →
     reset_waited pc' = false ∧
     ∃ od', owners s' !! o = Some od' ∧ r ∈ o_update_ od') ∧
  (∀ pc' s' x, reset_step o value pc s = Returns pc' s' →
     locked_of s' x = locked_of s x) ∧
  (reset_sweeping pc = true → released value s r →
     ∃ fuel, run (reset_step o value) reset_done fuel pc s = Crashes).
Proof.
  intros Ho0 Hrun Ho Hin. split; [|split].
  - intros pc' ls' s' Hrun'.
    assert (reset_found o [] pc s) as (od1 & Ho1 & _ & Hw1).
    { apply (reset_found_run o value [] _ _ Hrun). exists od0. split_and!; try done.
      apply prefix_nil. }
    same_owner.
    assert (reset_found o (o_update_ od) pc' s') as (od' & Ho' & Hpre & Hw').
    { apply (reset_found_run o value _ _ _ Hrun'). by exists od. }
    assert (r ∈ o_update_ od') as Hin'.
    { destruct Hpre as [k ->]. apply elem_of_app. by left. }
    split; [|by exists od'].
    destruct (reset_waited pc'); [|done].
    rewrite Hw' in Hin' by done. by apply elem_of_nil in Hin'.
  - intros pc' s' x Hst. by eapply reset_step_keeps_locked.
  - intros Hpc Hrel. destruct pc; try done.
    + by eapply reset_while_crashes.
    + eapply (reset_sweep_crashes o value s od r Ho Hin Hrel (length (o_update_ od))). lia.
Qed.

Lemma C6_witness :
  (owners locked_reader_state !! 1 = Some (mk_owner false (Some 7) [10] []) ∧
   readers locked_reader_state !! 10 = Some (mk_reader (Some 7) (Some 7) false (Some 1)) ∧
   rtc (conc_step (reset_step 1 (Some 8)))
       (R_lock, ([], locked_reader_state)) (R_sweep 0, ([], reset_waiting_state)) ∧
   owners reset_waiting_state !! 1 = Some (mk_owner true (Some 7) [10] [10]) ∧
   readers reset_waiting_state !! 10 = Some (mk_reader (Some 8) nullptr false (Some 1))) ∧
  ∃ fuel, run (reset_step 1 (Some 8)) reset_done fuel (R_sweep 0) reset_waiting_state
          = Crashes.
Proof.
  assert (H1 : owners locked_reader_state !! 1 = Some (mk_owner false (Some 7) [10] []))
    by (vm_compute; reflexivity).
  assert (H2 : rtc (conc_step (reset_step 1 (Some 8)))
                 (R_lock, ([], locked_reader_state)) (R_sweep 0, ([], reset_waiting_state))).
  { apply (play_conc _ reset_wait_schedule). vm_compute. reflexivity. }
  assert (H3 : owners reset_waiting_state !! 1 = Some (mk_owner true (Some 7) [10] [10]))
    by (vm_compute; reflexivity).
  assert (H4 : readers reset_waiting_state !! 10
               = Some (mk_reader (Some 8) nullptr false (Some 1)))
    by (vm_compute; reflexivity).
  split; [split_and!; try done; vm_compute; reflexivity|].
  destruct (C6_reset_crashes_once_a_locked_reader_unlocks 1 (Some 8) [] locked_reader_state
              (mk_owner false (Some 7) [10] []) (R_sweep 0) [] reset_waiting_state
              (mk_owner true (Some 7) [10] [10]) 10 H1 H2 H3) as (_ & _ & H).
  { apply elem_of_cons. by left. }
  apply H; [done|]. eexists. split; [exact H4|]. by left.
Defined.

End SharedReset.

(** ** The calls of the exclusive-lock policy, one by one and in sequence *)

Module ExclusiveCalls.
Import Exclusive ExclusiveSpec ExclusiveFacts.

(** *** Forward execution *)

Lemma excl_state_eta s : mk_state (owners s) (children s) (freed s) = s.
Proof. by destruct s. Qed.

Lemma excl_cmutex_unlock_ok c s cd :
  children s !! c = Some cd →
  cmutex_unlock c s = Returns () (set_children (insert c (with_cmutex false cd)) s).
Proof. apply excl_upd_child_ok. Qed.

Lemma excl_omutex_unlock_ok o s od :
  owners s !! o = Some od →
  omutex_unlock o s = Returns () (set_owners (insert o (with_omutex false od)) s).
Proof. apply excl_upd_owner_ok. Qed.

Lemma excl_cmutex_try_lock_free c s cd :
  children s !! c = Some cd → c_mutex_ cd = false →
  cmutex_try_lock c s = Returns true (set_children (insert c (with_cmutex true cd)) s).
Proof.
  intros Hc Hm. unfold cmutex_try_lock.
  eapply bind_ok; [by apply excl_child_ok|]. rewrite Hm.
  eapply bind_ok; [by apply excl_upd_child_ok|]. done.
Qed.

Ltac look :=
  simpl;
  repeat first [rewrite lookup_insert_eq | rewrite lookup_insert_ne by done];
  try done.

(** One call of the program in the goal. *)
Ltac xstep :=
  lazymatch goal with
  | |- (child _ ≫= _) _ = _ => eapply bind_ok; [apply excl_child_ok; look|]
  | |- (owner _ ≫= _) _ = _ => eapply bind_ok; [apply excl_owner_ok; look|]
  | |- (upd_child _ _ ≫= _) _ = _ => eapply bind_ok; [apply excl_upd_child_ok; look|]
  | |- (upd_owner _ _ ≫= _) _ = _ => eapply bind_ok; [apply excl_upd_owner_ok; look|]
  | |- (cmutex_lock _ ≫= _) _ = _ => eapply bind_ok; [eapply excl_cmutex_lock_ok; look|]
  | |- (cmutex_unlock _ ≫= _) _ = _ => eapply bind_ok; [eapply excl_cmutex_unlock_ok; look|]
  | |- (omutex_lock _ ≫= _) _ = _ => eapply bind_ok; [eapply excl_omutex_lock_ok; look|]
  | |- (omutex_unlock _ ≫= _) _ = _ => eapply bind_ok; [eapply excl_omutex_unlock_ok; look|]
  | |- (delete_value _ ≫= _) _ = _ => eapply bind_ok; [reflexivity|]
  | |- (get_state ≫= _) _ = _ => eapply bind_ok; [reflexivity|]
  | |- upd_child _ _ _ = _ => etrans; [apply excl_upd_child_ok; look|]
  | |- upd_owner _ _ _ = _ => etrans; [apply excl_upd_owner_ok; look|]
  | |- cmutex_unlock _ _ = _ => etrans; [eapply excl_cmutex_unlock_ok; look|]
  | |- omutex_unlock _ _ = _ => etrans; [eapply excl_omutex_unlock_ok; look|]
  end.

(** *** [lock] and [try_lock] on a child without owner *)

Lemma excl_lock__no_owner c s cd :
  children s !! c = Some cd → c_mutex_ cd = false → c_parent_ cd = None →
  lock_ c (set_children (insert c (with_cmutex true cd)) s) = Returns nullptr s.
Proof.
  intros Hc Hm Hp. unfold lock_. xstep. simpl. rewrite Hp.
  xstep. simpl. unfold mret, M_ret. f_equal.
  unfold set_children. simpl. rewrite insert_insert_eq.
  unfold with_cmutex. simpl. rewrite <- Hm.
  replace (mk_child (c_mutex_ cd) (c_parent_ cd) (c_locked_ cd)) with cd by by destruct cd.
  rewrite insert_id by done. apply excl_state_eta.
Qed.

Lemma excl_lock_no_owner c s cd :
  children s !! c = Some cd → c_mutex_ cd = false → c_parent_ cd = None →
  lock c s = Returns nullptr s.
Proof.
  intros Hc Hm Hp. unfold lock. eapply bind_ok; [by apply excl_cmutex_lock_ok|].
  by apply excl_lock__no_owner.
Qed.

(** X12: [lock()] and [try_lock()] on a child without owner, whose mutex
    is free, return null and leave everything as it was: the child's
    mutex is released again and the child is not marked as locked. *)
Theorem X12_lock_without_owner_returns_null
    (c : rid) (s : state) (cd : child_ptr) (clock : nat → Z) (timeout : Z) (fuel : nat) :
  children s !! c = Some cd → c_mutex_ cd = false → c_parent_ cd = None →
  lock c s = Returns nullptr s ∧
  try_lock clock (S fuel) timeout c s = Returns nullptr s.
Proof.
  intros Hc Hm Hp. split; [by eapply excl_lock_no_owner|].
  unfold try_lock. simpl.
  eapply bind_ok; [by apply excl_cmutex_try_lock_free|].
  by apply excl_lock__no_owner.
Qed.

Lemma X12_witness :
  (children lone_child_state !! 10 = Some (mk_child false None false) ∧
   c_mutex_ (mk_child false None false) = false ∧
   c_parent_ (mk_child false None false) = None) ∧
  lock 10 lone_child_state = Returns nullptr lone_child_state ∧
  try_lock (λ _, 0%Z) 1 5%Z 10 lone_child_state = Returns nullptr lone_child_state.
Proof.
  split; [split_and!; vm_compute; reflexivity|].
  apply (X12_lock_without_owner_returns_null 10 lone_child_state (mk_child false None false));
    vm_compute; reflexivity.
Defined.

(** *** [lock], then [unlock] *)

(** X13: [lock()] on an attached child that is not locked, its mutex and
    its owner's free, returns the owner's value and marks the child as
    locked; [unlock()] then brings back the state in which [lock()] was
    called. *)
Theorem X13_lock_then_unlock_restores_state
    (c : rid) (o : oid) (s : state) (cd : child_ptr) (od : owned_ptr) :
  children s !! c = Some cd → c_mutex_ cd = false → c_locked_ cd = false →
  c_parent_ cd = Some o →
  owners s !! o = Some od → o_mutex_ od = false →
  ∃ s1, lock c s = Returns (o_value_ od) s1 ∧
        children s1 !! c = Some (mk_child true (Some o) true) ∧
        unlock c s1 = Returns () s.
Proof.
  intros Hc Hm Hl Hp Ho Hom. eexists. split; [by eapply excl_lock_effect|].
  split; [look|].
  unfold unlock. xstep. simpl. xstep. xstep. xstep.
  unfold set_children, set_owners, with_cmutex, with_locked, with_omutex. simpl.
  rewrite !insert_insert_eq.
  replace (mk_child false (Some o) false) with cd
    by (destruct cd; simpl in *; congruence).
  replace (mk_owner false (o_value_ od) (o_children_ od)) with od
    by (destruct od; simpl in *; congruence).
  rewrite !insert_id by done. by rewrite excl_state_eta.
Qed.

Lemma X13_witness :
  (children two_children_state !! 10 = Some (mk_child false (Some 1) false) ∧
   owners two_children_state !! 1 = Some (mk_owner false (Some 3) [10; 11])) ∧
  ∃ s1, lock 10 two_children_state = Returns (Some 3) s1 ∧
        children s1 !! 10 = Some (mk_child true (Some 1) true) ∧
        unlock 10 s1 = Returns () two_children_state.
Proof.
  split; [split; vm_compute; reflexivity|].
  apply (X13_lock_then_unlock_restores_state 10 1 two_children_state
           (mk_child false (Some 1) false) (mk_owner false (Some 3) [10; 11]));
    vm_compute; reflexivity.
Defined.

(** *** [try_lock] on a child whose mutex is free *)

(** X14: [try_lock(timeout)] on a child whose mutex is free does what
    [lock()] does, whatever the timeout and whatever [time] returns. *)
Theorem X14_try_lock_free_mutex_is_lock
    (clock : nat → Z) (timeout : Z) (fuel : nat) (c : rid) (s : state) (cd : child_ptr) :
  children s !! c = Some cd → c_mutex_ cd = false →
  try_lock clock (S fuel) timeout c s = lock c s.
Proof.
  intros Hc Hm. unfold try_lock, lock. simpl.
  rewrite (bind_step _ _ _ _ _ (excl_cmutex_try_lock_free _ _ _ Hc Hm)).
  by rewrite (bind_step _ _ _ _ _ (excl_cmutex_lock_ok _ _ _ Hc Hm)).
Qed.

Lemma X14_witness :
  (children two_children_state !! 11 = Some (mk_child false (Some 1) false) ∧
   c_mutex_ (mk_child false (Some 1) false) = false) ∧
  try_lock clock_tick 1 (-7)%Z 11 two_children_state = lock 11 two_children_state.
Proof.
  split; [split; vm_compute; reflexivity|].
  apply (X14_try_lock_free_mutex_is_lock clock_tick (-7)%Z 0 11 two_children_state
           (mk_child false (Some 1) false)); vm_compute; reflexivity.
Defined.

(** *** [set] *)

Lemma excl_set_ok o v s od :
  owners s !! o = Some od → o_mutex_ od = false →
  set o v s = Returns () (mk_state (<[o := mk_owner false v (o_children_ od)]> (owners s))
                                   (children s)
                                   (delete_ptr (o_value_ od) (freed s))).
Proof.
  intros Ho Hm. unfold set. xstep. xstep. xstep. xstep. xstep.
  unfold set_owners, set_freed, with_omutex, with_ovalue. simpl.
  by rewrite !insert_insert_eq.
Qed.

(** X15: [set(value)] does not wait for the owner's children.  Called
    after a child's [lock()] has returned the owner's value, it returns
    with that value freed while the child is still locked. *)
Theorem X15_set_frees_value_under_locked_child
    (c : rid) (o : oid) (s : state) (cd : child_ptr) (od : owned_ptr) (a : addr) (v : ptr) :
  children s !! c = Some cd → c_mutex_ cd = false → c_parent_ cd = Some o →
  owners s !! o = Some od → o_mutex_ od = false → o_value_ od = Some a →
  ∃ s1 s2,
    lock c s = Returns (Some a) s1 ∧
    set o v s1 = Returns () s2 ∧
    a ∈ freed s2 ∧
    children s2 !! c = Some (mk_child true (Some o) true) ∧
    owners s2 !! o = Some (mk_owner false v (o_children_ od)).
Proof.
  intros Hc Hm Hp Ho Hom Hv. eexists _, _.
  split; [rewrite <- Hv; by eapply excl_lock_effect|].
  split; [by apply excl_set_ok|]. simpl. rewrite Hv. simpl.
  split; [set_solver|]. split; look.
Qed.

Lemma X15_witness :
  (children two_children_state !! 10 = Some (mk_child false (Some 1) false) ∧
   owners two_children_state !! 1 = Some (mk_owner false (Some 3) [10; 11])) ∧
  ∃ s1 s2,
    lock 10 two_children_state = Returns (Some 3) s1 ∧
    set 1 (Some 4) s1 = Returns () s2 ∧
    3 ∈ freed s2 ∧
    children s2 !! 10 = Some (mk_child true (Some 1) true) ∧
    owners s2 !! 1 = Some (mk_owner false (Some 4) [10; 11]).
Proof.
  split; [split; vm_compute; reflexivity|].
  apply (X15_set_frees_value_under_locked_child 10 1 two_children_state
           (mk_child false (Some 1) false) (mk_owner false (Some 3) [10; 11]) 3 (Some 4));
    vm_compute; reflexivity.
Defined.

(** *** [~owned_ptr] *)

Lemma orphan_lookup cs m k :
  orphan cs m !! k =
    if decide (k ∈ cs) then with_parent None <$> m !! k else m !! k.
Proof.
  unfold orphan. revert m. induction cs as [|c cs IH]; intros m; cbn [foldl].
  - rewrite decide_False; [done|]. apply not_elem_of_nil.
  - rewrite IH. destruct (decide (k = c)) as [->|Hne].
    + rewrite lookup_alter_eq.
      rewrite (decide_True (P := c ∈ c :: cs)) by (apply elem_of_cons; auto).
      destruct (decide (c ∈ cs)); [|done].
      by destruct (m !! c).
    + rewrite lookup_alter_ne by done.
      destruct (decide (k ∈ cs)) as [Hin|Hin].
      * rewrite decide_True; [done|]. apply elem_of_cons. auto.
      * rewrite decide_False; [done|]. rewrite elem_of_cons. tauto.
Qed.

Lemma excl_child_Returns c s cd s' :
  child c s = Returns cd s' ↔ children s !! c = Some cd ∧ s' = s.
Proof.
  unfold child. destruct (children s !! c); split; intros H;
    try (inversion H; subst; done); destruct H as [H ->]; by inversion H.
Qed.

Lemma excl_upd_child_Returns c f s u s' :
  upd_child c f s = Returns u s' ↔
  ∃ cd, children s !! c = Some cd ∧ s' = set_children (insert c (f cd)) s.
Proof.
  unfold upd_child. destruct (children s !! c) as [cd|]; split; intros H.
  - inversion H; subst. eauto.
  - destruct H as (cd' & [= <-] & ->). by destruct u.
  - done.
  - by destruct H as (? & ? & _).
Qed.

Lemma excl_cmutex_lock_Returns c s u s' :
  cmutex_lock c s = Returns u s' ↔
  ∃ cd, children s !! c = Some cd ∧ c_mutex_ cd = false ∧
        s' = set_children (insert c (with_cmutex true cd)) s.
Proof.
  unfold cmutex_lock. rewrite bind_Returns. split.
  - intros (cd & s1 & [H ->]%excl_child_Returns & H2).
    destruct (c_mutex_ cd) eqn:E; [done|].
    apply excl_upd_child_Returns in H2 as (cd' & H3 & ->).
    exists cd. by simplify_eq.
  - intros (cd & H & E & ->). exists cd, s. rewrite excl_child_Returns. split; [done|].
    rewrite E. apply excl_upd_child_Returns. eauto.
Qed.

(** One round of the loop of [~owned_ptr]. *)
Lemma excl_dtor_round c s u s' :
  (cmutex_lock c;; upd_child c (with_parent None);; cmutex_unlock c) s = Returns u s' ↔
  ∃ cd, children s !! c = Some cd ∧ c_mutex_ cd = false ∧
        s' = set_children (alter (with_parent None) c) s.
Proof.
  assert (Heq : ∀ cd, children s !! c = Some cd → c_mutex_ cd = false →
            set_children (insert c (with_cmutex false (with_parent None (with_cmutex true cd))))
              (set_children (insert c (with_parent None (with_cmutex true cd)))
                 (set_children (insert c (with_cmutex true cd)) s))
            = set_children (alter (with_parent None) c) s).
  { intros cd Hc Hm. unfold set_children. simpl. rewrite !insert_insert_eq. f_equal.
    apply map_eq. intros k. destruct (decide (k = c)) as [->|Hne].
    - rewrite lookup_insert_eq, lookup_alter_eq, Hc. simpl.
      unfold with_cmutex, with_parent. simpl. by rewrite Hm.
    - by rewrite lookup_insert_ne, lookup_alter_ne. }
  split.
  - intros H.
    apply bind_Returns in H as (? & s1 & (cd & Hc & Hm & ->)%excl_cmutex_lock_Returns & H).
    apply bind_Returns in H as (? & s2 & (cd1 & Hc1 & ->)%excl_upd_child_Returns & H).
    apply excl_upd_child_Returns in H as (cd2 & Hc2 & ->).
    simpl in Hc1, Hc2. rewrite lookup_insert_eq in Hc1, Hc2. simplify_eq.
    exists cd. split; [done|]. split; [done|]. by apply Heq.
  - intros (cd & Hc & Hm & ->). destruct u. xstep. xstep. xstep.
    f_equal. by apply Heq.
Qed.

Lemma excl_dtor_loop_Returns cs s u s' :
  dtor_loop cs s = Returns u s' ↔
  unlocked_children cs s ∧ s' = set_children (orphan cs) s.
Proof.
  revert s. induction cs as [|c cs IH]; intros s; simpl.
  - rewrite ret_Returns. unfold orphan, set_children. simpl. rewrite excl_state_eta.
    split.
    + intros [_ <-]. split; [|done]. intros c Hc. by apply not_elem_of_nil in Hc.
    + intros [_ ->]. by destruct u.
  - assert (Hassoc : ∀ t,
      (cmutex_lock c;; upd_child c (with_parent None);; cmutex_unlock c;; dtor_loop cs) t
      = ((cmutex_lock c;; upd_child c (with_parent None);; cmutex_unlock c) ≫= λ _, dtor_loop cs) t).
    { intros t. unfold mbind, M_bind. destruct (cmutex_lock c t); [|done|done].
      destruct (upd_child c (with_parent None) s0); done. }
    rewrite Hassoc, bind_Returns. split.
    + intros (? & s1 & (cd & Hc & Hm & ->)%excl_dtor_round & (Hrest & ->)%IH).
      split.
      * intros c' [->|Hin]%elem_of_cons; [eauto|].
        destruct (Hrest c' Hin) as (cd' & Hc' & Hm'). simpl in Hc'.
        destruct (decide (c' = c)) as [->|Hne]; [eauto|].
        rewrite lookup_alter_ne in Hc' by done. eauto.
      * done.
    + intros [Hall ->].
      destruct (Hall c) as (cd & Hc & Hm); [apply elem_of_cons; auto|].
      exists (), (set_children (alter (with_parent None) c) s). split.
      * apply excl_dtor_round. eauto.
      * apply IH. split; [|done].
        intros c' Hin. destruct (Hall c') as (cd' & Hc' & Hm'); [apply elem_of_cons; auto|].
        simpl. destruct (decide (c' = c)) as [->|Hne].
        -- rewrite lookup_alter_eq, Hc. simpl. eexists. split; [done|]. simplify_eq. done.
        -- rewrite lookup_alter_ne by done. eauto.
Qed.

Lemma excl_dtor_Returns o s u s' :
  dtor o s = Returns u s' ↔
  ∃ od, owners s !! o = Some od ∧ o_mutex_ od = false ∧
    unlocked_children (o_children_ od) s ∧
    s' = mk_state (owners s) (orphan (o_children_ od) (children s))
                  (delete_ptr (o_value_ od) (freed s)).
Proof.
  assert (Heq : ∀ od, owners s !! o = Some od → o_mutex_ od = false →
    set_owners (insert o (with_omutex false (with_omutex true od)))
      (set_freed (delete_ptr (o_value_ od))
         (set_children (orphan (o_children_ od))
            (set_owners (insert o (with_omutex true od)) s)))
    = mk_state (owners s) (orphan (o_children_ od) (children s))
               (delete_ptr (o_value_ od) (freed s))).
  { intros od Ho Hm. unfold set_owners, set_freed, set_children. simpl.
    rewrite insert_insert_eq. f_equal. unfold with_omutex. simpl. rewrite <- Hm.
    replace (mk_owner _ _ _) with od by by destruct od. by apply insert_id. }
  unfold dtor. split.
  - intros H.
    apply bind_Returns in H as (? & s1 & (od & Ho & Hm & ->)%excl_omutex_lock_Returns & H).
    apply bind_Returns in H as (od1 & ? & [Ho1 ->]%excl_owner_Returns & H).
    simpl in Ho1. rewrite lookup_insert_eq in Ho1. injection Ho1 as <-.
    apply bind_Returns in H as (? & s2 & [Hall ->]%excl_dtor_loop_Returns & H).
    apply bind_Returns in H as (od2 & ? & [Ho2 ->]%excl_owner_Returns & H).
    simpl in Ho2. rewrite lookup_insert_eq in Ho2. injection Ho2 as <-.
    apply bind_Returns in H as (? & s3 & H3 & H).
    injection H3 as H3; subst s3.
    apply excl_upd_owner_Returns in H as (od3 & Ho3 & ->).
    simpl in Ho3. rewrite lookup_insert_eq in Ho3. injection Ho3 as <-.
    exists od. split; [done|]. split; [done|]. split; [exact Hall|]. by apply Heq.
  - intros (od & Ho & Hm & Hall & ->). destruct u. xstep. xstep.
    eapply (bind_ok _ _ _ ()); [apply excl_dtor_loop_Returns; split; [exact Hall|done]|].
    xstep. xstep. xstep. f_equal. exact (Heq od Ho Hm).
Qed.

(** X16: [delete owner] on an owner whose mutex is free and whose registry
    holds live children with free mutexes returns.  The owner is gone,
    its value is freed, every child of the registry has a null [parent_]
    and is otherwise as before, no other child is touched, and [lock()]
    on a child of the registry returns null without locking anything. *)
Theorem X16_delete_owner_orphans_children (o : oid) (s : state) (od : owned_ptr) :
  owners s !! o = Some od → o_mutex_ od = false →
  unlocked_children (o_children_ od) s →
  ∃ s', delete_owner o s = Returns () s' ∧
    owners s' = delete o (owners s) ∧
    freed s' = delete_ptr (o_value_ od) (freed s) ∧
    (∀ c, children s' !! c =
            if decide (c ∈ o_children_ od) then with_parent None <$> children s !! c
            else children s !! c) ∧
    (∀ c, c ∈ o_children_ od → lock c s' = Returns nullptr s').
Proof.
  intros Ho Hm Hall. eexists. split.
  { unfold delete_owner. eapply (bind_ok _ _ _ ()).
    { apply excl_dtor_Returns. exists od. split_and!; done. }
    xstep. reflexivity. }
  simpl. split; [done|]. split; [done|]. split; [apply orphan_lookup|].
  intros c Hin. destruct (Hall c Hin) as (cd & Hc & Hcm).
  apply (excl_lock_no_owner c _ (with_parent None cd)); [|done..].
  simpl. by rewrite orphan_lookup, decide_True, Hc.
Qed.

Lemma two_children_unlocked : unlocked_children [10; 11] two_children_state.
Proof.
  intros c Hc. apply elem_of_cons in Hc as [->|Hc].
  - eexists. split; vm_compute; reflexivity.
  - apply list_elem_of_singleton in Hc as ->. eexists. split; vm_compute; reflexivity.
Qed.

Lemma X16_witness :
  (owners two_children_state !! 1 = Some (mk_owner false (Some 3) [10; 11]) ∧
   unlocked_children [10; 11] two_children_state) ∧
  ∃ s', delete_owner 1 two_children_state = Returns () s' ∧
        owners s' = delete 1 (owners two_children_state) ∧
        freed s' = {[3]} ∪ freed two_children_state ∧
        lock 10 s' = Returns nullptr s'.
Proof.
  split; [split; [vm_compute; reflexivity|apply two_children_unlocked]|].
  destruct (X16_delete_owner_orphans_children 1 two_children_state
              (mk_owner false (Some 3) [10; 11]))
    as (s' & H1 & H2 & H3 & _ & H5).
  - vm_compute; reflexivity.
  - reflexivity.
  - apply two_children_unlocked.
  - exists s'. split; [done|]. split; [done|]. split; [done|].
    apply H5. simpl. apply elem_of_cons. by left.
Defined.

(** X17: a child of the registry that has locked keeps [delete owner]
    from returning for as long as it runs alone. *)
Theorem X17_delete_owner_waits_for_locked_child
    (o : oid) (c : rid) (s : state) (od : owned_ptr) (cd : child_ptr) :
  owners s !! o = Some od → c ∈ o_children_ od →
  children s !! c = Some cd → c_mutex_ cd = false → c_parent_ cd = Some o →
  ∃ s1, lock c s = Returns (o_value_ od) s1 ∧
        ∀ s', delete_owner o s1 ≠ Returns () s'.
Proof.
  intros Ho Hin Hc Hm Hp. eexists. split; [by eapply excl_lock_effect|].
  intros s' H. unfold delete_owner in H.
  apply bind_Returns in H as (? & s2 & (od' & Ho' & _ & Hall & _)%excl_dtor_Returns & _).
  simpl in Ho'. simplify_eq. destruct (Hall c Hin) as (cd' & Hc' & Hm').
  simpl in Hc'. rewrite lookup_insert_eq in Hc'. by simplify_eq.
Qed.

Lemma X17_witness :
  (owners two_children_state !! 1 = Some (mk_owner false (Some 3) [10; 11]) ∧
   10 ∈ [10; 11] ∧
   children two_children_state !! 10 = Some (mk_child false (Some 1) false)) ∧
  ∃ s1, lock 10 two_children_state = Returns (Some 3) s1 ∧
        ∀ s', delete_owner 1 s1 ≠ Returns () s'.
Proof.
  split; [split_and!; [vm_compute; reflexivity|apply elem_of_cons; by left|vm_compute; reflexivity]|].
  apply (X17_delete_owner_waits_for_locked_child 1 10 two_children_state
           (mk_owner false (Some 3) [10; 11]) (mk_child false (Some 1) false)).
  - vm_compute; reflexivity.
  - apply elem_of_cons; by left.
  - vm_compute; reflexivity.
  - reflexivity.
  - reflexivity.
Defined.

(** *** [remove_], [get], [~child_ptr] *)

Lemma excl_remove__iff fuel o c s u s' :
  remove_ fuel o c s = Returns u s' ↔
  0 < fuel ∧ ∃ od, owners s !! o = Some od ∧ o_mutex_ od = false ∧
    ((o_children_ od = [] ∧ s' = s) ∨
     (∃ rest, o_children_ od = c :: rest ∧
              s' = set_owners (insert o (with_children rest od)) s)).
Proof.
  assert (Hid : ∀ od, owners s !! o = Some od → o_mutex_ od = false →
            set_owners (insert o (with_omutex false (with_omutex true od)))
              (set_owners (insert o (with_omutex true od)) s) = s).
  { intros od Ho Hm. unfold set_owners, with_omutex. simpl. rewrite insert_insert_eq.
    rewrite <- Hm. replace (mk_owner _ _ _) with od by by destruct od.
    rewrite insert_id by done. apply excl_state_eta. }
  assert (Hrm : ∀ od rest, o_mutex_ od = false →
            set_owners (insert o (with_omutex false (with_children rest (with_omutex true od))))
              (set_owners (insert o (with_children rest (with_omutex true od)))
                 (set_owners (insert o (with_omutex true od)) s))
            = set_owners (insert o (with_children rest od)) s).
  { intros od rest Hm. unfold set_owners, with_omutex, with_children. simpl.
    rewrite !insert_insert_eq. by rewrite Hm. }
  unfold remove_. split.
  - intros H.
    apply bind_Returns in H as (? & s1 & (od & Ho & Hm & ->)%excl_omutex_lock_Returns & H).
    apply bind_Returns in H as (? & s2 & Hloop & H).
    destruct fuel as [|fuel]; [done|]. split; [lia|].
    exists od. split; [done|]. split; [done|].
    simpl in Hloop.
    apply bind_Returns in Hloop as (od1 & ? & [Ho1 ->]%excl_owner_Returns & Hloop).
    simpl in Ho1. rewrite lookup_insert_eq in Ho1. injection Ho1 as <-. simpl in Hloop.
    destruct (o_children_ od) as [|c' rest] eqn:Hc.
    + apply ret_Returns in Hloop as [_ <-].
      apply excl_upd_owner_Returns in H as (od2 & Ho2 & ->).
      simpl in Ho2. rewrite lookup_insert_eq in Ho2. injection Ho2 as <-.
      left. split; [done|]. by apply Hid.
    + destruct (decide (c' = c)) as [->|Hne].
      * apply excl_upd_owner_Returns in Hloop as (od2 & Ho2 & ->).
        simpl in Ho2. rewrite lookup_insert_eq in Ho2. injection Ho2 as <-.
        apply excl_upd_owner_Returns in H as (od3 & Ho3 & ->).
        simpl in Ho3. rewrite lookup_insert_eq in Ho3. injection Ho3 as <-.
        right. exists rest. split; [done|]. by apply Hrm.
      * assert (remove_loop fuel o c (set_owners (insert o (with_omutex true od)) s) = Hangs)
          as Hh; [|congruence].
        eapply excl_remove_loop_other with (od := with_omutex true od); [|exact Hc|done].
        simpl. apply lookup_insert_eq.
  - intros (Hfuel & od & Ho & Hm & Hcase). destruct u.
    destruct fuel as [|fuel]; [lia|]. xstep.
    destruct Hcase as [[Hc ->]|(rest & Hc & ->)].
    + eapply (bind_ok _ _ _ ()).
      { simpl. xstep. simpl. rewrite Hc. reflexivity. }
      xstep. f_equal. by apply Hid.
    + eapply (bind_ok _ _ _ ()).
      { simpl. xstep. simpl. rewrite Hc, decide_True by done. xstep. reflexivity. }
      xstep. f_equal. by apply Hrm.
Qed.

Lemma excl_get_effect fuel o c s u s' :
  get fuel o c s = Returns u s' →
  ∃ cd om1 od1, children s !! c = Some cd ∧ c_mutex_ cd = false ∧
    match c_parent_ cd with
    | Some p => ∃ pd, owners s !! p = Some pd ∧ o_mutex_ pd = false ∧
        (o_children_ pd = [] ∨ head (o_children_ pd) = Some c) ∧
        om1 = <[p := with_children (tail (o_children_ pd)) pd]> (owners s)
    | None => om1 = owners s
    end ∧
    om1 !! o = Some od1 ∧ o_mutex_ od1 = false ∧
    s' = mk_state (<[o := with_children (o_children_ od1 ++ [c]) od1]> om1)
                  (<[c := mk_child false (Some o) (c_locked_ cd)]> (children s))
                  (freed s).
Proof.
  unfold get. intros H.
  apply bind_Returns in H as (? & s1 & (cd & Hc & Hm & ->)%excl_cmutex_lock_Returns & H).
  apply bind_Returns in H as (cd1 & ? & [Hc1 ->]%excl_child_Returns & H).
  simpl in Hc1. rewrite lookup_insert_eq in Hc1. injection Hc1 as <-. simpl in H.
  apply bind_Returns in H as (? & s2 & Hrem & H).
  apply bind_Returns in H as (? & s3 & (cd2 & Hc2 & ->)%excl_upd_child_Returns & H).
  apply bind_Returns in H as (? & s4 & (cd3 & Hc3 & ->)%excl_upd_child_Returns & H).
  apply bind_Returns in H as (? & s5 & (od1 & Ho1 & Hm1 & ->)%excl_omutex_lock_Returns & H).
  apply bind_Returns in H as (od2 & ? & [Ho2 ->]%excl_owner_Returns & H).
  apply bind_Returns in H as (? & s6 & (od3 & Ho3 & ->)%excl_upd_owner_Returns & H).
  apply excl_upd_owner_Returns in H as (od4 & Ho4 & ->).
  simpl in Hc3. rewrite lookup_insert_eq in Hc3. injection Hc3 as <-.
  simpl in Ho2, Ho3, Ho4. rewrite lookup_insert_eq in Ho2, Ho3, Ho4.
  injection Ho2 as <-. injection Ho3 as <-. injection Ho4 as <-.
  simpl in Ho1.
  assert (Hfin : ∀ cd2', children s2 !! c = Some cd2' → cd2' = with_cmutex true cd →
            children s2 = <[c := with_cmutex true cd]> (children s) → freed s2 = freed s →
            set_owners (insert o (with_omutex false
                                    (with_children (o_children_ (with_omutex true od1) ++ [c])
                                       (with_omutex true od1))))
              (set_owners (insert o (with_children (o_children_ (with_omutex true od1) ++ [c])
                                       (with_omutex true od1)))
                (set_owners (insert o (with_omutex true od1))
                  (set_children (insert c (with_cmutex false (with_parent (Some o) cd2')))
                     (set_children (insert c (with_parent (Some o) cd2')) s2))))
            = mk_state (<[o := with_children (o_children_ od1 ++ [c]) od1]> (owners s2))
                       (<[c := mk_child false (Some o) (c_locked_ cd)]> (children s))
                       (freed s)).
  { intros cd2' _ -> Hcs Hfs. unfold set_owners, set_children. simpl.
    rewrite !insert_insert_eq, Hcs, insert_insert_eq, Hfs. f_equal.
    unfold with_omutex, with_children. simpl. by rewrite Hm1. }
  exists cd. destruct (c_parent_ cd) as [p|] eqn:Hp.
  - apply excl_remove__iff in Hrem as (_ & pd & Hpd & Hpm & Hcase).
    simpl in Hpd.
    exists (<[p := with_children (tail (o_children_ pd)) pd]> (owners s)), od1.
    split; [done|]. split; [done|].
    assert (owners s2 = <[p := with_children (tail (o_children_ pd)) pd]> (owners s)
            ∧ children s2 = <[c := with_cmutex true cd]> (children s)
            ∧ freed s2 = freed s
            ∧ (o_children_ pd = [] ∨ head (o_children_ pd) = Some c)) as (Ho' & Hc' & Hf' & Hh).
    { destruct Hcase as [[Hnil ->]|(rest & Hcs & ->)]; simpl.
      - rewrite Hnil. simpl. split; [|by auto].
        replace (with_children [] pd) with pd
          by (destruct pd; unfold with_children; simpl in *; congruence).
        by rewrite insert_id.
      - rewrite Hcs. simpl. auto. }
    split; [eauto 10|]. rewrite <- Ho'. split; [done|]. split; [done|].
    assert (cd2 = with_cmutex true cd) as ->.
    { rewrite Hc', lookup_insert_eq in Hc2. congruence. }
    exact (Hfin _ Hc2 eq_refl Hc' Hf').
  - apply ret_Returns in Hrem as [_ <-]. simpl in *.
    exists (owners s), od1. split; [done|]. split; [done|]. split; [done|].
    split; [done|]. split; [done|].
    rewrite lookup_insert_eq in Hc2. injection Hc2 as <-.
    apply (Hfin (with_cmutex true cd)); simpl; [apply lookup_insert_eq|done..].
Qed.

Lemma excl_get_tail o c cd od1 s1 :
  children s1 !! c = Some (with_cmutex true cd) →
  owners s1 !! o = Some od1 → o_mutex_ od1 = false →
  (upd_child c (with_parent (Some o));;
   cmutex_unlock c;;
   omutex_lock o;;
   od ← owner o;
   upd_owner o (with_children (o_children_ od ++ [c]));;
   omutex_unlock o) s1
  = Returns () (mk_state (<[o := with_children (o_children_ od1 ++ [c]) od1]> (owners s1))
                         (<[c := mk_child false (Some o) (c_locked_ cd)]> (children s1))
                         (freed s1)).
Proof.
  intros Hc Ho Hm. xstep. xstep. xstep. xstep. xstep. xstep. f_equal.
  unfold set_owners, set_children. simpl. rewrite !insert_insert_eq. f_equal.
  unfold with_omutex, with_children. simpl. by rewrite Hm.
Qed.

Lemma excl_get_no_owner fuel o c s od cd :
  owners s !! o = Some od → o_mutex_ od = false →
  children s !! c = Some cd → c_mutex_ cd = false → c_parent_ cd = None →
  get fuel o c s = Returns () (attached o od c cd s).
Proof.
  intros Ho Hm Hc Hcm Hp. unfold get. xstep. xstep. simpl. rewrite Hp.
  eapply (bind_ok _ _ _ ()); [reflexivity|].
  etrans; [apply (excl_get_tail o c cd od); [simpl; apply lookup_insert_eq|done..]|]. f_equal.
  unfold attached. simpl. by rewrite insert_insert_eq.
Qed.

Lemma excl_get_front fuel o p c s cd pd rest od1 :
  children s !! c = Some cd → c_mutex_ cd = false → c_parent_ cd = Some p →
  owners s !! p = Some pd → o_mutex_ pd = false → o_children_ pd = c :: rest →
  <[p := with_children rest pd]> (owners s) !! o = Some od1 → o_mutex_ od1 = false →
  get (S fuel) o c s
  = Returns () (attached o od1 c cd (set_owners (insert p (with_children rest pd)) s)).
Proof.
  intros Hc Hcm Hp Hpd Hpm Hcs Ho1 Hm1. unfold get. xstep. xstep. simpl. rewrite Hp.
  eapply (bind_ok _ _ _ ()).
  { apply excl_remove__iff. split; [lia|]. exists pd. split; [done|]. split; [done|].
    right. eauto. }
  etrans; [apply (excl_get_tail o c cd od1); [simpl; apply lookup_insert_eq|done..]|]. f_equal.
  unfold attached. simpl. by rewrite insert_insert_eq.
Qed.

(** X18: [owner->get(child)] on a child without owner, with the mutexes
    of owner and child free, appends the child to the registry, points
    its [parent_] to the owner and changes nothing else; [lock()] on the
    child then returns the owner's value. *)
Theorem X18_get_attaches_child_without_owner
    (fuel : nat) (o : oid) (c : rid) (s : state) (od : owned_ptr) (cd : child_ptr) :
  owners s !! o = Some od → o_mutex_ od = false →
  children s !! c = Some cd → c_mutex_ cd = false → c_parent_ cd = None →
  get fuel o c s = Returns () (attached o od c cd s) ∧
  lock c (attached o od c cd s) =
    Returns (o_value_ od)
      (set_children (insert c (mk_child true (Some o) true)) (attached o od c cd s)).
Proof.
  intros Ho Hm Hc Hcm Hp. split; [by apply excl_get_no_owner|].
  eapply (excl_lock_effect c _ (mk_child false (Some o) (c_locked_ cd)) o
            (with_children (o_children_ od ++ [c]) od)); try done.
  - simpl. apply lookup_insert_eq.
  - simpl. apply lookup_insert_eq.
Qed.

Lemma X18_witness :
  (owners lone_child_state !! 1 = Some (mk_owner false (Some 3) []) ∧
   children lone_child_state !! 10 = Some (mk_child false None false)) ∧
  get 0 1 10 lone_child_state =
    Returns () (attached 1 (mk_owner false (Some 3) []) 10 (mk_child false None false)
                  lone_child_state).
Proof.
  split; [split; vm_compute; reflexivity|].
  apply (X18_get_attaches_child_without_owner 0 1 10 lone_child_state);
    vm_compute; reflexivity.
Defined.

(** X19: [owner->get(child)] on a child that is the front entry of its
    owner's registry, with all mutexes involved free, takes the child out
    of that registry and appends it to the registry of the new owner.
    When the new owner is the old one, the child goes from the front of
    the registry to its back. *)
Theorem X19_get_moves_front_child
    (fuel : nat) (p : oid) (c : rid) (s : state) (cd : child_ptr) (pd : owned_ptr)
    (rest : list rid) :
  children s !! c = Some cd → c_mutex_ cd = false → c_parent_ cd = Some p →
  owners s !! p = Some pd → o_mutex_ pd = false → o_children_ pd = c :: rest →
  (∀ o od, o ≠ p → owners s !! o = Some od → o_mutex_ od = false →
     get (S fuel) o c s =
       Returns () (mk_state (<[o := with_children (o_children_ od ++ [c]) od]>
                               (<[p := with_children rest pd]> (owners s)))
                            (<[c := mk_child false (Some o) (c_locked_ cd)]> (children s))
                            (freed s))) ∧
  get (S fuel) p c s =
    Returns () (mk_state (<[p := with_children (rest ++ [c]) pd]> (owners s))
                         (<[c := mk_child false (Some p) (c_locked_ cd)]> (children s))
                         (freed s)).
Proof.
  intros Hc Hcm Hp Hpd Hpm Hcs. split.
  - intros o od Hne Ho Hm.
    erewrite (excl_get_front fuel o p c s cd pd rest od); try done.
    by rewrite lookup_insert_ne.
  - erewrite (excl_get_front fuel p p c s cd pd rest (with_children rest pd)); try done.
    + unfold attached. simpl. by rewrite insert_insert_eq.
    + apply lookup_insert_eq.
Qed.

Lemma X19_witness :
  (children two_children_state !! 10 = Some (mk_child false (Some 1) false) ∧
   owners two_children_state !! 1 = Some (mk_owner false (Some 3) [10; 11])) ∧
  get 1 1 10 two_children_state =
    Returns () (mk_state (<[1 := mk_owner false (Some 3) [11; 10]]>
                            (owners two_children_state))
                         (<[10 := mk_child false (Some 1) false]>
                            (children two_children_state))
                         (freed two_children_state)).
Proof.
  split; [split; vm_compute; reflexivity|].
  apply (X19_get_moves_front_child 0 1 10 two_children_state
           (mk_child false (Some 1) false) (mk_owner false (Some 3) [10; 11]) [11]);
    vm_compute; reflexivity.
Defined.

(** *** [~child_ptr] *)

Lemma excl_delete_child_tail c s1 cd1 :
  children s1 !! c = Some cd1 →
  (cmutex_unlock c;; s ← get_state; put_state (set_children (delete c) s)) s1
  = Returns () (set_children (delete c) s1).
Proof.
  intros Hc. xstep. xstep. unfold put_state. f_equal.
  unfold set_children. simpl. by rewrite delete_insert_eq.
Qed.

(** X20: [~child_ptr] on a child whose mutex is free.  Without owner, only
    the child goes.  As the front entry of the registry of its owner,
    whose mutex is free, the entry goes with it.  Behind another entry,
    the destructor never returns. *)
Theorem X20_delete_child_leaves_registry
    (c : rid) (s : state) (cd : child_ptr) :
  children s !! c = Some cd → c_mutex_ cd = false →
  (c_parent_ cd = None →
     ∀ fuel, delete_child fuel c s = Returns () (set_children (delete c) s)) ∧
  (∀ p pd rest, c_parent_ cd = Some p → owners s !! p = Some pd → o_mutex_ pd = false →
     o_children_ pd = c :: rest →
     ∀ fuel, delete_child (S fuel) c s =
       Returns () (mk_state (<[p := with_children rest pd]> (owners s))
                            (delete c (children s)) (freed s))) ∧
  (∀ p pd c' rest, c_parent_ cd = Some p → owners s !! p = Some pd →
     o_children_ pd = c' :: rest → c' ≠ c →
     never_returns (λ fuel, delete_child fuel c) s).
Proof.
  intros Hc Hcm. split; [|split].
  - intros Hp fuel. unfold delete_child. xstep. xstep. simpl. rewrite Hp.
    eapply (bind_ok _ _ _ ()); [reflexivity|].
    erewrite excl_delete_child_tail by (simpl; apply lookup_insert_eq).
    f_equal. unfold set_children. simpl. by rewrite delete_insert_eq.
  - intros p pd rest Hp Hpd Hpm Hcs fuel. unfold delete_child. xstep. xstep. simpl.
    rewrite Hp. eapply (bind_ok _ _ _ ()).
    { apply excl_remove__iff. split; [lia|]. exists pd. split; [done|]. split; [done|].
      right. eauto. }
    erewrite excl_delete_child_tail by (simpl; apply lookup_insert_eq).
    f_equal. unfold set_children, set_owners. simpl. by rewrite delete_insert_eq.
  - intros p pd c' rest Hp Hpd Hcs Hne fuel. unfold delete_child.
    rewrite (bind_step _ _ _ _ _ (excl_cmutex_lock_ok _ _ _ Hc Hcm)).
    erewrite (bind_step (child c)) by (apply excl_child_ok; simpl; apply lookup_insert_eq).
    simpl. rewrite Hp. apply bind_Hangs_l.
    destruct (o_mutex_ pd) eqn:Hpm.
    + unfold remove_. apply bind_Hangs_l. unfold omutex_lock.
      erewrite (bind_step (owner p)) by (by apply excl_owner_ok).
      by rewrite Hpm.
    + by eapply excl_remove__other.
Qed.

Lemma X20_witness :
  (children two_children_state !! 11 = Some (mk_child false (Some 1) false) ∧
   owners two_children_state !! 1 = Some (mk_owner false (Some 3) [10; 11]) ∧
   10 ≠ 11) ∧
  never_returns (λ fuel, delete_child fuel 11) two_children_state.
Proof.
  split; [split_and!; [vm_compute; reflexivity..|done]|].
  destruct (X20_delete_child_leaves_registry 11 two_children_state
              (mk_child false (Some 1) false)) as (_ & _ & H).
  - vm_compute; reflexivity.
  - reflexivity.
  - apply (H 1 (mk_owner false (Some 3) [10; 11]) 10 [11]); [reflexivity| |reflexivity|done].
    vm_compute; reflexivity.
Defined.

(** *** The registries and the children's back-pointers *)

Lemma registered_weaken x s : registered s → registered_but x s.
Proof. intros (H1 & H2 & H3). split_and!; [done|done|]. intros c cd o _. apply H3. Qed.

Lemma registered_empty : registered empty_state.
Proof.
  split_and!.
  - intros o od H. simpl in H. by rewrite lookup_empty in H.
  - intros o od c H. simpl in H. by rewrite lookup_empty in H.
  - intros c cd o H. simpl in H. by rewrite lookup_empty in H.
Qed.

(** Taking the front entry [c] out of the registry of its owner. *)
Lemma registered_but_remove c s cd p pd :
  registered_but c s →
  children s !! c = Some cd → c_parent_ cd = Some p → owners s !! p = Some pd →
  o_children_ pd = [] ∨ head (o_children_ pd) = Some c →
  registered_but c (set_owners (insert p (with_children (tail (o_children_ pd)) pd)) s) ∧
  ∀ o od, (<[p := with_children (tail (o_children_ pd)) pd]> (owners s)) !! o = Some od →
          c ∉ o_children_ od.
Proof.
  intros (H1 & H2 & H3) Hc Hp Hpd Hfront.
  assert (Htail : ∀ c', c' ∈ tail (o_children_ pd) → c' ∈ o_children_ pd ∧ c' ≠ c).
  { intros c' Hin. destruct (o_children_ pd) as [|c0 rest] eqn:Hcs; [by apply not_elem_of_nil in Hin|].
    simpl in Hin. destruct Hfront as [?|[= ->]]; [done|].
    split; [apply elem_of_cons; auto|]. intros ->.
    pose proof (H1 p pd Hpd) as Hnd. rewrite Hcs in Hnd.
    by apply NoDup_cons in Hnd as [? _]. }
  split; [split_and!|].
  - intros o od Ho. simpl in Ho. destruct (decide (o = p)) as [->|Hne].
    + rewrite lookup_insert_eq in Ho. injection Ho as <-. simpl.
      pose proof (H1 p pd Hpd) as Hnd. destruct (o_children_ pd); [done|].
      by apply NoDup_cons in Hnd as [_ ?].
    + rewrite lookup_insert_ne in Ho by done. by eapply H1.
  - intros o od c' Ho Hin. simpl in Ho. simpl. destruct (decide (o = p)) as [->|Hne].
    + rewrite lookup_insert_eq in Ho. injection Ho as <-. simpl in Hin.
      apply Htail in Hin as [Hin _]. by eapply H2.
    + rewrite lookup_insert_ne in Ho by done. by eapply H2.
  - intros c' cd' o Hne Hc' Hp'. simpl in Hc'. simpl.
    destruct (H3 c' cd' o Hne Hc' Hp') as (od & Ho & Hin).
    destruct (decide (o = p)) as [->|Hop].
    + rewrite lookup_insert_eq. eexists. split; [done|]. simpl. simplify_eq.
      destruct (o_children_ pd) as [|c0 rest] eqn:Hcs; [by apply not_elem_of_nil in Hin|].
      destruct Hfront as [?|[= ->]]; [done|]. simpl.
      apply elem_of_cons in Hin as [->|Hin]; done.
    + rewrite lookup_insert_ne by done. eauto.
  - intros o od Ho Hin. destruct (decide (o = p)) as [->|Hne].
    + rewrite lookup_insert_eq in Ho. injection Ho as <-. simpl in Hin.
      by apply Htail in Hin as [_ ?].
    + rewrite lookup_insert_ne in Ho by done.
      destruct (H2 o od c Ho Hin) as (cd' & Hc' & Hp'). simplify_eq.
Qed.

(** Appending [c], which is in no registry, to the registry of [o]. *)
Lemma registered_attach o od c cd s :
  registered_but c s →
  (∀ o' od', owners s !! o' = Some od' → c ∉ o_children_ od') →
  owners s !! o = Some od → children s !! c = Some cd →
  registered (attached o od c cd s).
Proof.
  intros (H1 & H2 & H3) Hout Ho Hc. unfold attached. split_and!; simpl.
  - intros o' od' Ho'. destruct (decide (o' = o)) as [->|Hne].
    + rewrite lookup_insert_eq in Ho'. injection Ho' as <-. simpl.
      apply NoDup_app. split; [by eapply H1|]. split; [|apply NoDup_singleton].
      intros c' Hin ->%list_elem_of_singleton. by eapply Hout.
    + rewrite lookup_insert_ne in Ho' by done. by eapply H1.
  - intros o' od' c' Ho' Hin. destruct (decide (o' = o)) as [->|Hne].
    + rewrite lookup_insert_eq in Ho'. injection Ho' as <-. simpl in Hin.
      apply elem_of_app in Hin as [Hin| ->%list_elem_of_singleton].
      * destruct (decide (c' = c)) as [->|Hcc]; [by rewrite lookup_insert_eq; eauto|].
        rewrite lookup_insert_ne by done. by eapply H2.
      * rewrite lookup_insert_eq. eauto.
    + rewrite lookup_insert_ne in Ho' by done.
      destruct (decide (c' = c)) as [->|Hcc]; [by destruct (Hout o' od' Ho')|].
      rewrite lookup_insert_ne by done. by eapply H2.
  - intros c' cd' o' Hc' Hp'. destruct (decide (c' = c)) as [->|Hcc].
    + rewrite lookup_insert_eq in Hc'. injection Hc' as <-. simpl in Hp'.
      injection Hp' as <-. rewrite lookup_insert_eq. eexists. split; [done|].
      simpl. apply elem_of_app. right. by apply list_elem_of_singleton.
    + rewrite lookup_insert_ne in Hc' by done.
      destruct (H3 c' cd' o' Hcc Hc' Hp') as (od' & Ho' & Hin).
      destruct (decide (o' = o)) as [->|Hne].
      * rewrite lookup_insert_eq. eexists. split; [done|]. simpl. simplify_eq.
        apply elem_of_app. by left.
      * rewrite lookup_insert_ne by done. eauto.
Qed.

Lemma registered_get fuel o c s u s' :
  registered_but c s → get fuel o c s = Returns u s' → registered s'.
Proof.
  intros Hreg H.
  apply excl_get_effect in H as (cd & om1 & od1 & Hc & Hcm & Hpar & Ho1 & Hm1 & ->).
  destruct (c_parent_ cd) as [p|] eqn:Hp.
  - destruct Hpar as (pd & Hpd & Hpm & Hfront & ->).
    destruct (registered_but_remove c s cd p pd Hreg Hc Hp Hpd Hfront) as [Hreg1 Hout].
    exact (registered_attach o od1 c cd _ Hreg1 Hout Ho1 Hc).
  - subst om1. refine (registered_attach o od1 c cd s Hreg _ Ho1 Hc).
    intros o' od' Ho' Hin. destruct Hreg as (_ & H2 & _).
    destruct (H2 o' od' c Ho' Hin) as (cd' & Hc' & Hp'). simplify_eq.
Qed.

Lemma registered_frame s s' :
  (∀ o, o_children_ <$> owners s' !! o = o_children_ <$> owners s !! o) →
  (∀ c, c_parent_ <$> children s' !! c = c_parent_ <$> children s !! c) →
  registered s → registered s'.
Proof.
  intros Ho Hc (H1 & H2 & H3).
  assert (Hown : ∀ o od', owners s' !! o = Some od' →
            ∃ od, owners s !! o = Some od ∧ o_children_ od = o_children_ od').
  { intros o od' H. specialize (Ho o). rewrite H in Ho. simpl in Ho.
    destruct (owners s !! o) as [od|]; [|done]. injection Ho as Ho. eauto. }
  assert (Hown' : ∀ o od, owners s !! o = Some od →
            ∃ od', owners s' !! o = Some od' ∧ o_children_ od' = o_children_ od).
  { intros o od H. specialize (Ho o). rewrite H in Ho. simpl in Ho.
    destruct (owners s' !! o) as [od'|]; [|done]. injection Ho as Ho. eauto. }
  assert (Hch : ∀ c cd', children s' !! c = Some cd' →
            ∃ cd, children s !! c = Some cd ∧ c_parent_ cd = c_parent_ cd').
  { intros c cd' H. specialize (Hc c). rewrite H in Hc. simpl in Hc.
    destruct (children s !! c) as [cd|]; [|done]. injection Hc as Hc. eauto. }
  assert (Hch' : ∀ c cd, children s !! c = Some cd →
            ∃ cd', children s' !! c = Some cd' ∧ c_parent_ cd' = c_parent_ cd).
  { intros c cd H. specialize (Hc c). rewrite H in Hc. simpl in Hc.
    destruct (children s' !! c) as [cd'|]; [|done]. injection Hc as Hc. eauto. }
  split_and!.
  - intros o od' (od & Hod & <-)%Hown. by eapply H1.
  - intros o od' c (od & Hod & <-)%Hown Hin.
    destruct (H2 o od c Hod Hin) as (cd & (cd' & Hcd' & Hpp)%Hch' & Hp).
    exists cd'. split; [done|]. congruence.
  - intros c cd' o (cd & Hcd & Hpp)%Hch Hp.
    destruct (H3 c cd o Hcd) as (od & (od' & Hod' & Hcc)%Hown' & Hin); [congruence|].
    exists od'. split; [done|]. by rewrite Hcc.
Qed.

Lemma keeps_registry_registered {A} (m : Op A) s a s' :
  keeps_registry m → m s = Returns a s' → registered s → registered s'.
Proof. intros Hm H. destruct (Hm s a s' H). by apply registered_frame. Qed.

Lemma keeps_registry_bind {A B} (m : Op A) (f : A → Op B) :
  keeps_registry m → (∀ a, keeps_registry (f a)) → keeps_registry (m ≫= f).
Proof.
  intros Hm Hf s b s' (a & s1 & H1 & H2)%bind_Returns.
  destruct (Hm _ _ _ H1) as [Ho1 Hc1]. destruct (Hf a _ _ _ H2) as [Ho2 Hc2].
  split; intros k; [by rewrite Ho2, Ho1|by rewrite Hc2, Hc1].
Qed.

Lemma keeps_registry_ret {A} (a : A) : keeps_registry (mret a : Op A).
Proof. intros s b s' [_ <-]%ret_Returns. done. Qed.

Lemma keeps_registry_hang {A} : keeps_registry (hang : Op A).
Proof. intros s b s' H. done. Qed.

Lemma keeps_registry_crash {A} : keeps_registry (crash : Op A).
Proof. intros s b s' H. done. Qed.

Lemma keeps_registry_child c : keeps_registry (child c).
Proof. intros s b s' [_ ->]%excl_child_Returns. done. Qed.

Lemma keeps_registry_owner o : keeps_registry (owner o).
Proof. intros s b s' [_ ->]%excl_owner_Returns. done. Qed.

Lemma keeps_registry_delete_value p : keeps_registry (delete_value p).
Proof. intros s b s' H. injection H as H; subst s'. done. Qed.

Lemma keeps_registry_upd_child c f :
  (∀ cd, c_parent_ (f cd) = c_parent_ cd) → keeps_registry (upd_child c f).
Proof.
  intros Hf s b s' (cd & Hc & ->)%excl_upd_child_Returns. split; [done|].
  intros k. simpl. destruct (decide (k = c)) as [->|Hne].
  - by rewrite lookup_insert_eq, Hc; simpl; rewrite Hf.
  - by rewrite lookup_insert_ne.
Qed.

Lemma keeps_registry_upd_owner o f :
  (∀ od, o_children_ (f od) = o_children_ od) → keeps_registry (upd_owner o f).
Proof.
  intros Hf s b s' (od & Ho & ->)%excl_upd_owner_Returns. split; [|done].
  intros k. simpl. destruct (decide (k = o)) as [->|Hne].
  - by rewrite lookup_insert_eq, Ho; simpl; rewrite Hf.
  - by rewrite lookup_insert_ne.
Qed.

Ltac keeps_registry_tac :=
  repeat first
    [ apply keeps_registry_ret
    | apply keeps_registry_hang
    | apply keeps_registry_crash
    | apply keeps_registry_child
    | apply keeps_registry_owner
    | apply keeps_registry_delete_value
    | apply keeps_registry_upd_child; by intros []
    | apply keeps_registry_upd_owner; by intros []
    | apply keeps_registry_bind; [|intros ?]
    | case_match ].

Lemma keeps_registry_lock_ c : keeps_registry (lock_ c).
Proof. unfold lock_, cmutex_unlock. keeps_registry_tac. Qed.

Lemma keeps_registry_lock c : keeps_registry (lock c).
Proof.
  unfold lock, cmutex_lock. apply keeps_registry_bind; [|intros ?; apply keeps_registry_lock_].
  keeps_registry_tac.
Qed.

Lemma keeps_registry_try_lock_loop clock fuel k now timeout c :
  keeps_registry (try_lock_loop clock fuel k now timeout c).
Proof.
  revert k. induction fuel as [|fuel IH]; intros k; simpl; [apply keeps_registry_hang|].
  apply keeps_registry_bind.
  { unfold cmutex_try_lock. keeps_registry_tac. }
  intros [|]; [apply keeps_registry_lock_|].
  case_decide; [apply IH|apply keeps_registry_ret].
Qed.

Lemma keeps_registry_unlock c : keeps_registry (unlock c).
Proof. unfold unlock, cmutex_unlock, omutex_unlock. keeps_registry_tac. Qed.

Lemma keeps_registry_set o v : keeps_registry (set o v).
Proof. unfold set, omutex_lock, omutex_unlock. keeps_registry_tac. Qed.

Lemma registered_new_owner o v s u s' :
  new_owner o v s = Returns u s' → registered s → registered s'.
Proof.
  unfold new_owner. destruct (owners s !! o) as [|] eqn:Ho; [done|].
  intros H (H1 & H2 & H3). injection H as H; subst s'. split_and!; simpl.
  - intros o' od' Ho'. destruct (decide (o' = o)) as [->|Hne].
    + rewrite lookup_insert_eq in Ho'. injection Ho' as <-. apply NoDup_nil_2.
    + rewrite lookup_insert_ne in Ho' by done. by eapply H1.
  - intros o' od' c Ho' Hin. destruct (decide (o' = o)) as [->|Hne].
    + rewrite lookup_insert_eq in Ho'. injection Ho' as <-. by apply not_elem_of_nil in Hin.
    + rewrite lookup_insert_ne in Ho' by done. by eapply H2.
  - intros c cd o' Hc Hp. destruct (H3 c cd o' Hc Hp) as (od & Hod & Hin).
    exists od. split; [|done]. rewrite lookup_insert_ne; [done|]. intros ->. congruence.
Qed.

(** A child constructed at an address that is free, whatever its
    [parent_] holds. *)
Lemma registered_but_fresh c cd0 s :
  children s !! c = None → registered s →
  registered_but c (set_children (insert c cd0) s).
Proof.
  intros Hc (H1 & H2 & H3). split_and!; simpl.
  - done.
  - intros o od c' Ho Hin. destruct (H2 o od c' Ho Hin) as (cd & Hcd & Hp).
    exists cd. split; [|done]. rewrite lookup_insert_ne; [done|]. intros ->. congruence.
  - intros c' cd o Hne Hc' Hp. rewrite lookup_insert_ne in Hc' by done. by eapply H3.
Qed.

Lemma registered_new_child c b s u s' :
  new_child c b s = Returns u s' → registered s → registered s'.
Proof.
  unfold new_child. destruct (children s !! c) as [|] eqn:Hc; [done|].
  intros H Hreg. injection H as H; subst s'.
  destruct (registered_but_fresh c (mk_child false None b) s Hc Hreg) as (H1 & H2 & H3).
  split_and!; [done|done|]. intros c' cd o Hc' Hp.
  destruct (decide (c' = c)) as [->|Hne]; [|by eapply H3].
  simpl in Hc'. rewrite lookup_insert_eq in Hc'. by simplify_eq.
Qed.

Lemma registered_new_child_on fuel c parent0 locked0 o s u s' :
  new_child_on fuel c parent0 locked0 o s = Returns u s' → registered s → registered s'.
Proof.
  unfold new_child_on. intros (? & s1 & H1 & H2)%bind_Returns Hreg.
  destruct (children s !! c) as [|] eqn:Hc; [done|]. injection H1 as H1; subst s1.
  eapply registered_get; [|done]. by apply registered_but_fresh.
Qed.

Lemma registered_delete_child fuel c s u s' :
  delete_child fuel c s = Returns u s' → registered s → registered s'.
Proof.
  unfold delete_child. intros H Hreg.
  apply bind_Returns in H as (? & s1 & (cd & Hc & Hm & ->)%excl_cmutex_lock_Returns & H).
  apply bind_Returns in H as (cd1 & ? & [Hc1 ->]%excl_child_Returns & H).
  simpl in Hc1. rewrite lookup_insert_eq in Hc1. injection Hc1 as <-. simpl in H.
  apply bind_Returns in H as (? & s2 & Hrem & H).
  apply bind_Returns in H as (? & s3 & (cd3 & Hc3 & ->)%excl_upd_child_Returns & H).
  apply bind_Returns in H as (s4 & ? & H4 & H). injection H4 as H4 H4'; subst.
  injection H as H; subst s'.
  assert (Hcs2 : ∀ c', c' ≠ c → children s2 !! c' = children s !! c').
  { intros c' Hne. destruct (c_parent_ cd) as [p|].
    - apply excl_remove__iff in Hrem as (_ & pd & _ & _ & [[_ ->]|(rest & _ & ->)]);
        simpl; by rewrite lookup_insert_ne.
    - apply ret_Returns in Hrem as [_ <-]. simpl. by rewrite lookup_insert_ne. }
  assert (∃ om, registered_but c (mk_state om (children s) (freed s)) ∧
                (∀ o od, om !! o = Some od → c ∉ o_children_ od) ∧
                owners s2 = om) as (om & (H1 & H2 & H3) & Hout & Hom).
  { destruct (c_parent_ cd) as [p|] eqn:Hp.
    - apply excl_remove__iff in Hrem as (_ & pd & Hpd & Hpm & Hcase). simpl in Hpd.
      destruct (registered_but_remove c s cd p pd (registered_weaken c s Hreg) Hc Hp Hpd)
        as [Hreg1 Hout1].
      { destruct Hcase as [[-> _]|(rest & -> & _)]; auto. }
      eexists. split; [exact Hreg1|]. split; [exact Hout1|].
      destruct Hcase as [[Hnil ->]|(rest & Hcs & ->)]; simpl; rewrite ?Hnil, ?Hcs; simpl.
      + replace (with_children [] pd) with pd
          by (destruct pd; unfold with_children; simpl in *; congruence).
        by rewrite insert_id.
      + done.
    - apply ret_Returns in Hrem as [_ <-]. exists (owners s).
      rewrite excl_state_eta. split; [by apply registered_weaken|]. split; [|done].
      intros o od Ho Hin. destruct Hreg as (_ & H2 & _).
      destruct (H2 o od c Ho Hin) as (cd' & Hc' & Hp'). simplify_eq. }
  simpl in H1, H2, H3. split_and!; simpl; rewrite ?Hom.
  - done.
  - intros o od c' Ho Hin. destruct (H2 o od c' Ho Hin) as (cd' & Hc' & Hp').
    exists cd'. split; [|done].
    assert (c' ≠ c) as Hne by (intros ->; by eapply Hout).
    by rewrite lookup_delete_ne, lookup_insert_ne, Hcs2.
  - intros c' cd' o Hc' Hp'. apply lookup_delete_Some in Hc' as [Hne Hc'].
    rewrite lookup_insert_ne, Hcs2 in Hc' by done.
    apply (H3 c' cd' o); done.
Qed.

Lemma registered_delete_owner o s u s' :
  delete_owner o s = Returns u s' → registered s → registered s'.
Proof.
  unfold delete_owner. intros H (H1 & H2 & H3).
  apply bind_Returns in H as (? & s1 & (od & Ho & Hm & Hall & ->)%excl_dtor_Returns & H).
  apply bind_Returns in H as (s4 & ? & H4 & H). injection H4 as H4 H4'; subst.
  injection H as H; subst s'. split_and!; simpl.
  - intros o' od' [Hne Ho']%lookup_delete_Some. by eapply H1.
  - intros o' od' c [Hne Ho']%lookup_delete_Some Hin.
    destruct (H2 o' od' c Ho' Hin) as (cd & Hc & Hp). exists cd. split; [|done].
    rewrite orphan_lookup, decide_False; [done|]. intros Hin'.
    destruct (H2 o od c Ho Hin') as (cd' & Hc' & Hp'). simplify_eq.
  - intros c cd' o' Hc Hp. rewrite orphan_lookup in Hc.
    destruct (decide (c ∈ o_children_ od)) as [Hin|Hin].
    + destruct (children s !! c) as [cd|]; simpl in Hc; [|done].
      injection Hc as <-. done.
    + destruct (H3 c cd' o' Hc Hp) as (od' & Ho' & Hin').
      exists od'. split; [|done]. apply lookup_delete_Some. split; [|done].
      intros <-. simplify_eq. done.
Qed.

Lemma registered_exec fuel c s u s' :
  exec fuel c s = Returns u s' → registered s → registered s'.
Proof.
  destruct c; simpl; intros H Hreg.
  - by eapply registered_new_owner.
  - by eapply registered_new_child.
  - by eapply registered_new_child_on.
  - eapply registered_get; [|done]. by apply registered_weaken.
  - by eapply (keeps_registry_registered _ _ _ _ (keeps_registry_set _ _)).
  - apply bind_Returns in H as (? & s1 & H & [_ <-]%ret_Returns).
    by eapply (keeps_registry_registered _ _ _ _ (keeps_registry_lock _)).
  - apply bind_Returns in H as (? & s1 & H & [_ <-]%ret_Returns).
    by eapply (keeps_registry_registered _ _ _ _ (keeps_registry_try_lock_loop _ _ _ _ _ _)).
  - by eapply (keeps_registry_registered _ _ _ _ (keeps_registry_unlock _)).
  - by eapply registered_delete_child.
  - by eapply registered_delete_owner.
Qed.

(** X21: whatever calls a thread makes, the registries and the children's
    [parent_] fields agree afterwards: no registry holds an entry twice,
    every entry is a live child whose [parent_] is that owner, and every
    live child with a [parent_] is in the registry of that owner, which
    is live.  In particular no registry holds a dangling pointer for
    [~owned_ptr] to follow. *)
Theorem X21_calls_keep_registries_and_parents_in_step
    (fuel : nat) (cs : list call) (s : state) :
  exec_all fuel cs empty_state = Returns () s → registered s.
Proof.
  assert (∀ s0 s1, registered s0 → exec_all fuel cs s0 = Returns () s1 → registered s1) as H.
  { induction cs as [|c cs IH]; intros s0 s1 Hreg H; simpl in H.
    - by apply ret_Returns in H as [_ <-].
    - apply bind_Returns in H as (? & s2 & H2 & H). eapply IH; [|done].
      by eapply registered_exec. }
  intros Hrun. eapply H; [apply registered_empty|done].
Qed.

Lemma X21_witness :
  exec_all 5 busy_run empty_state = Returns () busy_state ∧ registered busy_state.
Proof.
  assert (H : exec_all 5 busy_run empty_state = Returns () busy_state)
    by (vm_compute; reflexivity).
  split; [done|]. exact (X21_calls_keep_registries_and_parents_in_step 5 busy_run busy_state H).
Defined.

(** *** The children's mutexes and their [locked_] flags *)

Lemma disciplined_empty : disciplined empty_state.
Proof.
  split.
  - intros o od H. simpl in H. by rewrite lookup_empty in H.
  - intros c cd H. simpl in H. by rewrite lookup_empty in H.
Qed.

(** Owners come, or change apart from being there; one child changes. *)
Lemma disciplined_update s s' c cd' :
  disciplined s →
  (∀ o od', owners s' !! o = Some od' → o_mutex_ od' = false) →
  (∀ o, is_Some (owners s !! o) → is_Some (owners s' !! o)) →
  children s' = <[c := cd']> (children s) →
  c_mutex_ cd' = c_locked_ cd' →
  (c_locked_ cd' = true → ∃ o od, c_parent_ cd' = Some o ∧ owners s' !! o = Some od) →
  disciplined s'.
Proof.
  intros [H1 H2] Hm Ho Hc Hcm Hcl. split; [done|]. intros k cd Hk. rewrite Hc in Hk.
  destruct (decide (k = c)) as [->|Hne].
  - rewrite lookup_insert_eq in Hk. injection Hk as <-. done.
  - rewrite lookup_insert_ne in Hk by done. destruct (H2 k cd Hk) as [Hkm Hkl].
    split; [done|]. intros Hl. destruct (Hkl Hl) as (o & od & Hp & Hod).
    destruct (Ho o) as [od' Hod']; [eauto|]. eauto.
Qed.

Lemma excl_lock__Returns c s cd v s' :
  children s !! c = Some cd → c_mutex_ cd = false →
  lock_ c (set_children (insert c (with_cmutex true cd)) s) = Returns v s' →
  (c_parent_ cd = None ∧ s' = s) ∨
  (∃ p od, c_parent_ cd = Some p ∧ owners s !! p = Some od ∧
           s' = set_children (insert c (mk_child true (Some p) true)) s).
Proof.
  intros Hc Hm H. destruct (c_parent_ cd) as [p|] eqn:Hp.
  - right. unfold lock_ in H.
    apply bind_Returns in H as (cd1 & ? & [Hc1 ->]%excl_child_Returns & H).
    simpl in Hc1. rewrite lookup_insert_eq in Hc1. injection Hc1 as <-.
    simpl in H. rewrite Hp in H.
    apply bind_Returns in H as (? & s2 & (cd2 & Hc2 & ->)%excl_upd_child_Returns & H).
    apply bind_Returns in H as (od & ? & [Ho ->]%excl_owner_Returns & H).
    apply ret_Returns in H as [_ <-]. simpl in Ho, Hc2.
    rewrite lookup_insert_eq in Hc2. injection Hc2 as <-.
    exists p, od. split; [done|]. split; [done|].
    unfold set_children, with_locked, with_cmutex. simpl.
    by rewrite insert_insert_eq, Hp.
  - left. split; [done|]. rewrite (excl_lock__no_owner c s cd Hc Hm Hp) in H.
    by injection H.
Qed.

Lemma disciplined_lock_ c s cd v s' :
  children s !! c = Some cd → c_mutex_ cd = false →
  lock_ c (set_children (insert c (with_cmutex true cd)) s) = Returns v s' →
  disciplined s → disciplined s'.
Proof.
  intros Hc Hm H Hd.
  destruct (excl_lock__Returns c s cd v s' Hc Hm H) as [[_ ->]|(p & od & Hp & Ho & ->)];
    [done|].
  eapply (disciplined_update s _ c (mk_child true (Some p) true)); try done.
  - apply Hd.
  - intros _. eauto.
Qed.

Lemma disciplined_lock c s v s' :
  lock c s = Returns v s' → disciplined s → disciplined s'.
Proof.
  unfold lock. intros H Hd.
  apply bind_Returns in H as (? & s1 & (cd & Hc & Hm & ->)%excl_cmutex_lock_Returns & H).
  by eapply disciplined_lock_.
Qed.

Lemma disciplined_try_lock_loop clock fuel k now timeout c s v s' :
  try_lock_loop clock fuel k now timeout c s = Returns v s' →
  disciplined s → disciplined s'.
Proof.
  revert k. induction fuel as [|fuel IH]; intros k H Hd; [done|]. simpl in H.
  apply bind_Returns in H as (b & s1 & Htry & H). unfold cmutex_try_lock in Htry.
  apply bind_Returns in Htry as (cd & ? & [Hc ->]%excl_child_Returns & Htry).
  destruct (c_mutex_ cd) eqn:Hm.
  - apply ret_Returns in Htry as [<- <-]. case_decide.
    + by eapply IH.
    + by apply ret_Returns in H as [_ <-].
  - apply bind_Returns in Htry as (? & s2 & (cd2 & Hc2 & ->)%excl_upd_child_Returns & Htry).
    apply ret_Returns in Htry as [<- <-]. simplify_eq. by eapply disciplined_lock_.
Qed.

Lemma disciplined_unlock c s u s' :
  unlock c s = Returns u s' → disciplined s → disciplined s'.
Proof.
  unfold unlock. intros H Hd.
  apply bind_Returns in H as (cd & ? & [Hc ->]%excl_child_Returns & H).
  destruct (c_locked_ cd) eqn:Hl; [|by apply ret_Returns in H as [_ <-]].
  apply bind_Returns in H as (? & s1 & (cd1 & Hc1 & ->)%excl_upd_child_Returns & H).
  apply bind_Returns in H as (? & s2 & Hp & H).
  apply excl_upd_child_Returns in H as (cd2 & Hc2 & ->).
  destruct (c_parent_ cd) as [p|]; [|done].
  apply excl_upd_owner_Returns in Hp as (pd & Hpd & ->). simpl in *.
  rewrite lookup_insert_eq in Hc2. injection Hc2 as <-.
  rewrite Hc in Hc1. injection Hc1 as <-.
  eapply (disciplined_update s _ c (with_locked false (with_cmutex false cd))).
  - done.
  - simpl. intros o od' Ho. destruct (decide (o = p)) as [->|Hne].
    + rewrite lookup_insert_eq in Ho. by injection Ho as <-.
    + rewrite lookup_insert_ne in Ho by done. by eapply Hd.
  - simpl. intros o Ho. destruct (decide (o = p)) as [->|Hne].
    + rewrite lookup_insert_eq. eauto.
    + by rewrite lookup_insert_ne.
  - simpl. by rewrite insert_insert_eq.
  - done.
  - done.
Qed.

Lemma excl_set_Returns o v s u s' :
  set o v s = Returns u s' →
  ∃ od, owners s !! o = Some od ∧ o_mutex_ od = false ∧
    s' = mk_state (<[o := mk_owner false v (o_children_ od)]> (owners s))
                  (children s) (delete_ptr (o_value_ od) (freed s)).
Proof.
  intros H. assert (H' := H). unfold set in H'.
  apply bind_Returns in H' as (? & s1 & (od & Ho & Hm & _)%excl_omutex_lock_Returns & _).
  exists od. split; [done|]. split; [done|].
  rewrite (excl_set_ok o v s od Ho Hm) in H. by injection H.
Qed.

Lemma disciplined_set o v s u s' :
  set o v s = Returns u s' → disciplined s → disciplined s'.
Proof.
  intros (od & Ho & Hm & ->)%excl_set_Returns [H1 H2]. split; simpl.
  - intros o' od' Ho'. destruct (decide (o' = o)) as [->|Hne].
    + rewrite lookup_insert_eq in Ho'. by injection Ho' as <-.
    + rewrite lookup_insert_ne in Ho' by done. by eapply H1.
  - intros c cd Hc. destruct (H2 c cd Hc) as [Hcm Hcl]. split; [done|].
    intros Hl. destruct (Hcl Hl) as (p & pd & Hp & Hpd).
    destruct (decide (p = o)) as [->|Hne].
    + eexists o, _. by rewrite lookup_insert_eq.
    + exists p, pd. by rewrite lookup_insert_ne.
Qed.

Lemma disciplined_get fuel o c s u s' :
  get fuel o c s = Returns u s' → disciplined s → disciplined s'.
Proof.
  intros (cd & om1 & od1 & Hc & Hcm & Hpar & Ho1 & Hm1 & ->)%excl_get_effect Hd.
  assert (Hom : (∀ o' od', om1 !! o' = Some od' → o_mutex_ od' = false) ∧
                (∀ o', is_Some (owners s !! o') → is_Some (om1 !! o'))) .
  { destruct (c_parent_ cd) as [p|].
    - destruct Hpar as (pd & Hpd & Hpm & _ & ->). split.
      + intros o' od' Ho'. destruct (decide (o' = p)) as [->|Hne].
        * rewrite lookup_insert_eq in Ho'. by injection Ho' as <-.
        * rewrite lookup_insert_ne in Ho' by done. by eapply Hd.
      + intros o' Ho'. destruct (decide (o' = p)) as [->|Hne].
        * rewrite lookup_insert_eq. eauto.
        * by rewrite lookup_insert_ne.
    - subst om1. split; [apply Hd|done]. }
  destruct Hom as [Hom1 Hom2].
  eapply (disciplined_update s _ c (mk_child false (Some o) (c_locked_ cd))); try done.
  - simpl. intros o' od' Ho'. destruct (decide (o' = o)) as [->|Hne].
    + rewrite lookup_insert_eq in Ho'. by injection Ho' as <-.
    + rewrite lookup_insert_ne in Ho' by done. by eapply Hom1.
  - simpl. intros o' Ho'. destruct (decide (o' = o)) as [->|Hne].
    + rewrite lookup_insert_eq. eauto.
    + rewrite lookup_insert_ne by done. by apply Hom2.
  - simpl. destruct Hd as [_ H2]. destruct (H2 c cd Hc) as [<- _]. done.
  - simpl. intros _. exists o. rewrite lookup_insert_eq. eauto.
Qed.

Lemma disciplined_fresh_child c p s :
  children s !! c = None → disciplined s →
  disciplined (set_children (insert c (mk_child false p false)) s).
Proof. intros Hc Hd. eapply (disciplined_update s _ c); try done. apply Hd. Qed.

Lemma disciplined_new_owner o v s u s' :
  new_owner o v s = Returns u s' → disciplined s → disciplined s'.
Proof.
  unfold new_owner. destruct (owners s !! o) as [|] eqn:Ho; [done|].
  intros H [H1 H2]. injection H as H; subst s'. split; simpl.
  - intros o' od' Ho'. destruct (decide (o' = o)) as [->|Hne].
    + rewrite lookup_insert_eq in Ho'. by injection Ho' as <-.
    + rewrite lookup_insert_ne in Ho' by done. by eapply H1.
  - intros c cd Hc. destruct (H2 c cd Hc) as [Hcm Hcl]. split; [done|].
    intros Hl. destruct (Hcl Hl) as (p & pd & Hp & Hpd).
    exists p, pd. split; [done|]. rewrite lookup_insert_ne; [done|]. congruence.
Qed.

Lemma excl_delete_child_effect fuel c s u s' :
  delete_child fuel c s = Returns u s' →
  children s' = delete c (children s) ∧
  (owners s' = owners s ∨
   ∃ p pd cs, owners s !! p = Some pd ∧ o_mutex_ pd = false ∧
              owners s' = <[p := with_children cs pd]> (owners s)).
Proof.
  unfold delete_child. intros H.
  apply bind_Returns in H as (? & s1 & (cd & Hc & Hm & ->)%excl_cmutex_lock_Returns & H).
  apply bind_Returns in H as (cd1 & ? & [Hc1 ->]%excl_child_Returns & H).
  simpl in Hc1. rewrite lookup_insert_eq in Hc1. injection Hc1 as <-. simpl in H.
  apply bind_Returns in H as (? & s2 & Hrem & H).
  apply bind_Returns in H as (? & s3 & (cd3 & Hc3 & ->)%excl_upd_child_Returns & H).
  apply bind_Returns in H as (s4 & ? & H4 & H). injection H4 as H4 H4'; subst.
  injection H as H; subst s'. simpl.
  destruct (c_parent_ cd) as [p|].
  - apply excl_remove__iff in Hrem as (_ & pd & Hpd & Hpm & [[_ ->]|(rest & _ & ->)]);
      simpl in *.
    + split; [|by left]. by rewrite !delete_insert_eq.
    + split; [by rewrite !delete_insert_eq|]. right. eauto 10.
  - apply ret_Returns in Hrem as [_ <-]. simpl.
    split; [|by left]. by rewrite !delete_insert_eq.
Qed.

Lemma disciplined_delete_child fuel c s u s' :
  delete_child fuel c s = Returns u s' → disciplined s → disciplined s'.
Proof.
  intros [Hcs Hos]%excl_delete_child_effect [H1 H2].
  assert ((∀ o od', owners s' !! o = Some od' → o_mutex_ od' = false) ∧
          (∀ o, is_Some (owners s !! o) → is_Some (owners s' !! o))) as [Ha Hb].
  { destruct Hos as [->|(p & pd & cs & Hpd & Hpm & ->)]; [done|]. split.
    - intros o od' Ho. destruct (decide (o = p)) as [->|Hne].
      + rewrite lookup_insert_eq in Ho. by injection Ho as <-.
      + rewrite lookup_insert_ne in Ho by done. by eapply H1.
    - intros o Ho. destruct (decide (o = p)) as [->|Hne].
      + rewrite lookup_insert_eq. eauto.
      + by rewrite lookup_insert_ne. }
  split; [done|]. intros k cd Hk. rewrite Hcs in Hk.
  apply lookup_delete_Some in Hk as [_ Hk]. destruct (H2 k cd Hk) as [Hkm Hkl].
  split; [done|]. intros Hl. destruct (Hkl Hl) as (o & od & Hp & Hod).
  destruct (Hb o) as [od' Hod']; eauto.
Qed.

Lemma disciplined_delete_owner o s u s' :
  delete_owner o s = Returns u s' → registered s → disciplined s → disciplined s'.
Proof.
  unfold delete_owner. intros H (_ & _ & H3) [Hd1 Hd2].
  apply bind_Returns in H as (? & s1 & (od & Ho & Hm & Hall & ->)%excl_dtor_Returns & H).
  apply bind_Returns in H as (s4 & ? & H4 & H). injection H4 as H4 H4'; subst.
  injection H as H; subst s'. split; simpl.
  - intros o' od' [_ Ho']%lookup_delete_Some. by eapply Hd1.
  - intros c cd' Hc. rewrite orphan_lookup in Hc.
    destruct (decide (c ∈ o_children_ od)) as [Hin|Hin].
    + destruct (Hall c Hin) as (cd & Hcd & Hcm). rewrite Hcd in Hc. simpl in Hc.
      injection Hc as <-. destruct (Hd2 c cd Hcd) as [Heq _]. simpl.
      split; [done|]. congruence.
    + destruct (Hd2 c cd' Hc) as [Heq Hl]. split; [done|].
      intros Hlk. destruct (Hl Hlk) as (p & pd & Hp & Hpd).
      exists p, pd. split; [done|]. apply lookup_delete_Some. split; [|done].
      intros <-. destruct (H3 c cd' o Hc Hp) as (od' & Ho' & Hin'). simplify_eq. done.
Qed.

Lemma disciplined_exec fuel c s u s' :
  zeroed c = true → exec fuel c s = Returns u s' →
  registered s → disciplined s → disciplined s'.
Proof.
  destruct c; simpl; intros Hz H Hreg Hd.
  - by eapply disciplined_new_owner.
  - unfold new_child in H. destruct (children s !! c) as [|] eqn:Hc; [done|].
    injection H as H; subst s'. destruct locked0; [done|].
    by apply disciplined_fresh_child.
  - unfold new_child_on in H. apply bind_Returns in H as (? & s1 & H1 & H).
    destruct (children s !! c) as [|] eqn:Hc; [done|]. injection H1 as H1; subst s1.
    destruct locked0; [done|]. eapply disciplined_get; [done|].
    by apply disciplined_fresh_child.
  - by eapply disciplined_get.
  - by eapply disciplined_set.
  - apply bind_Returns in H as (? & s1 & H & [_ <-]%ret_Returns).
    by eapply disciplined_lock.
  - apply bind_Returns in H as (? & s1 & H & [_ <-]%ret_Returns).
    by eapply disciplined_try_lock_loop.
  - by eapply disciplined_unlock.
  - by eapply disciplined_delete_child.
  - by eapply disciplined_delete_owner.
Qed.

(** X22: as long as no child is constructed on storage whose [locked_]
    byte was set, after any calls of a thread nobody holds the mutex of
    an owner, a child's mutex is held exactly when the child is locked,
    and a locked child has a live owner: [unlock()] never follows a
    [parent_] that is null or dangling. *)
Theorem X22_locked_children_hold_their_mutex
    (fuel : nat) (cs : list call) (s : state) :
  forallb zeroed cs = true →
  exec_all fuel cs empty_state = Returns () s →
  (∀ o od, owners s !! o = Some od → o_mutex_ od = false) ∧
  (∀ c cd, children s !! c = Some cd →
     c_mutex_ cd = c_locked_ cd ∧
     (c_locked_ cd = true → ∃ o od, c_parent_ cd = Some o ∧ owners s !! o = Some od)).
Proof.
  assert (∀ s0 s1, forallb zeroed cs = true → registered s0 → disciplined s0 →
            exec_all fuel cs s0 = Returns () s1 → disciplined s1) as H.
  { induction cs as [|c cs IH]; intros s0 s1 Hz Hreg Hd H; simpl in H.
    - by apply ret_Returns in H as [_ <-].
    - apply bind_Returns in H as (? & s2 & H2 & H).
      simpl in Hz. apply andb_prop in Hz as [Hz1 Hz2].
      eapply (IH s2 s1 Hz2); [by eapply registered_exec| |done].
      by eapply disciplined_exec. }
  intros Hz Hrun. exact (H _ _ Hz registered_empty disciplined_empty Hrun).
Qed.

Lemma X22_witness :
  (forallb zeroed busy_run = true ∧
   exec_all 5 busy_run empty_state = Returns () busy_state) ∧
  (∀ c cd, children busy_state !! c = Some cd →
     c_mutex_ cd = c_locked_ cd ∧
     (c_locked_ cd = true →
      ∃ o od, c_parent_ cd = Some o ∧ owners busy_state !! o = Some od)).
Proof.
  assert (H : exec_all 5 busy_run empty_state = Returns () busy_state)
    by (vm_compute; reflexivity).
  split; [by split|].
  exact (proj2 (X22_locked_children_hold_their_mutex 5 busy_run busy_state eq_refl H)).
Defined.

End ExclusiveCalls.
